(** * dimod: the constrained quadratic model and its file format

    A shallow embedding of [dimod/constrained.py]: the typed variable
    registry ([TypedVariables]), the constrained model facade
    ([ConstrainedQuadraticModel]) and the archive codec ([to_file],
    [from_file]), and of the serialization of labels and the equality of
    [Variables] in [dimod/variables.py], followed by the properties proved
    about them.

    Conventions.
    - A Python object that is mutated in place is a value threaded through
      a state monad [Py S]; an exception aborts the computation and leaves
      the state as it was at the [raise].
    - Numbers (biases, bounds, right-hand sides) are an abstract type
      [Bias] with decidable equality; floating-point rounding and NaN are
      outside the model.
    - Collaborators that live outside [constrained.py] (the expression
      classes, the header and zip containers, [json], [uuid]) are either
      modelled by the few observations the code makes of them or taken as
      parameters ([Externals], [QuadraticModelMethods]). *)

From Stdlib Require Import ZArith.
From Stdlib Require Strings.Byte.
From Stdlib Require Import Ascii.
From stdpp Require Import gmap strings pretty list.

Open Scope Z_scope.
Set Warnings "-register-all".

(* ===================================================================== *)
(** * Python values *)
(* ===================================================================== *)

(** A hashable label ([dimod.typing.Variable]): an integer, a string or a
    tuple of labels. *)
Inductive Hashable : Type :=
| HInt (z : Z)
| HStr (s : string)
| HTuple (items : list Hashable).

Fixpoint Hashable_to_tree (h : Hashable) : gen_tree (Z + string) :=
  match h with
  | HInt z => GenLeaf (inl z)
  | HStr s => GenLeaf (inr s)
  | HTuple items => GenNode 0 (map Hashable_to_tree items)
  end.

Fixpoint tree_to_Hashable (t : gen_tree (Z + string)) : Hashable :=
  match t with
  | GenLeaf (inl z) => HInt z
  | GenLeaf (inr s) => HStr s
  | GenNode _ ts => HTuple (map tree_to_Hashable ts)
  end.

Lemma Hashable_rect' (P : Hashable → Prop) :
  (∀ z, P (HInt z)) →
  (∀ s, P (HStr s)) →
  (∀ items, Forall P items → P (HTuple items)) →
  ∀ h, P h.
Proof.
  intros Hz Hs Ht. fix IH 1. intros [z|s|items].
  - apply Hz.
  - apply Hs.
  - apply Ht. induction items as [|h items IHitems]; constructor.
    + apply IH.
    + apply IHitems.
Qed.

Lemma tree_to_Hashable_to_tree h : tree_to_Hashable (Hashable_to_tree h) = h.
Proof.
  induction h as [z|s|items IH] using Hashable_rect'; simpl; try done.
  f_equal. induction IH as [|h items Hh _ IHitems]; simpl; [done|].
  by rewrite Hh, IHitems.
Qed.

#[global] Instance Hashable_eq_dec : EqDecision Hashable.
Proof.
  intros x y.
  destruct (decide (Hashable_to_tree x = Hashable_to_tree y)) as [E|N].
  - left. rewrite <- (tree_to_Hashable_to_tree x), <- (tree_to_Hashable_to_tree y).
    by rewrite E.
  - right. intros ->. by apply N.
Defined.

#[global] Instance Hashable_countable : Countable Hashable :=
  inj_countable' Hashable_to_tree tree_to_Hashable tree_to_Hashable_to_tree.

(** Python [bytes] are lists of [Byte.byte]. *)
#[global] Instance byte_eq_dec : EqDecision Byte.byte := Byte.byte_eq_dec.

(** [dimod.vartypes.Vartype], with the extended members. *)
Inductive Vartype : Type := SPIN | BINARY | INTEGER | REAL | DISCRETE.

#[global] Instance Vartype_eq_dec : EqDecision Vartype.
Proof. solve_decision. Defined.

(** [dimod.sym.Sense]; [Sense(s)] builds it from its string value. *)
Inductive Sense : Type := Le | Ge | Eq.

#[global] Instance Sense_eq_dec : EqDecision Sense.
Proof. solve_decision. Defined.

Definition Sense_value (s : Sense) : string :=
  match s with Le => "<=" | Ge => ">=" | Eq => "==" end.

Definition Sense_of_value (s : string) : option Sense :=
  if decide (s = "<=") then Some Le
  else if decide (s = ">=") then Some Ge
  else if decide (s = "==") then Some Eq
  else None.

(* ===================================================================== *)
(** * Serializable labels and equality of [Variables] ([variables.py]) *)
(* ===================================================================== *)

(** The objects [iter_serialize_variables] and [iter_deserialize_variables]
    tell apart, by the [isinstance] tests they make. A number is given by
    what [int(v)] or [float(v)] returns for it; [F] is the type of the
    floats. Sets are left out: the order in which one is iterated is not
    fixed. *)
Inductive PyObject (F : Type) : Type :=
| OInt (n : Z)                     (* an [int] *)
| OIntegral (n : Z)                (* another [Integral], with [int(v) = n]: a bool, a NumPy integer *)
| OFloat (x : F)                   (* a [float] *)
| ONumber (x : F)                  (* another [Number], with [float(v) = x]: a NumPy float, a fraction *)
| OStr (s : string)                (* a [str] *)
| OTuple (items : list (PyObject F))   (* a [tuple] *)
| OList (items : list (PyObject F))    (* another [Sequence] that is no [str]: a [list] *)
| OOther (id : nat).               (* any other object *)
Arguments OInt {F} n.
Arguments OIntegral {F} n.
Arguments OFloat {F} x.
Arguments ONumber {F} x.
Arguments OStr {F} s.
Arguments OTuple {F} items.
Arguments OList {F} items.
Arguments OOther {F} id.

(** What the body of the loop of [iter_serialize_variables] yields for
    one element. *)
Fixpoint serialize_one {F} (v : PyObject F) : PyObject F :=
  match v with
  | OInt n | OIntegral n => OInt n
  | OFloat x | ONumber x => OFloat x
  | OStr s => OStr s
  | OTuple items | OList items => OTuple (map serialize_one items)
  | OOther id => OOther id
  end.

(** [iter_serialize_variables(variables)], as the list of what it yields. *)
Definition iter_serialize_variables {F} (variables : list (PyObject F))
    : list (PyObject F) :=
  map serialize_one variables.

(** What the body of the loop of [iter_deserialize_variables] yields for
    one element. *)
Fixpoint deserialize_one {F} (v : PyObject F) : PyObject F :=
  match v with
  | OTuple items | OList items => OTuple (map deserialize_one items)
  | _ => v
  end.

(** [iter_deserialize_variables(variables)] *)
Definition iter_deserialize_variables {F} (variables : list (PyObject F))
    : list (PyObject F) :=
  map deserialize_one variables.

(** [Variables.to_serializable()] *)
Definition to_serializable {F} (self : list (PyObject F)) : list (PyObject F) :=
  iter_serialize_variables self.

(** An object as a JSON round trip returns it: every tuple is a list. *)
Fixpoint tuples_as_lists {F} (v : PyObject F) : PyObject F :=
  match v with
  | OTuple items | OList items => OList (map tuples_as_lists items)
  | _ => v
  end.

(** An object built from [int], [float], [str] and tuples of such, and
    from the objects of no kind the serialization knows. *)
Fixpoint serialized {F} (v : PyObject F) : Prop :=
  match v with
  | OInt _ | OFloat _ | OStr _ | OOther _ => True
  | OIntegral _ | ONumber _ | OList _ => False
  | OTuple items => foldr (λ item rest, serialized item ∧ rest) True items
  end.

(** The other operand of [Variables.__eq__], by the [isinstance] tests:
    a sequence with its items in order, a set, or anything else. *)
Inductive Operand : Type :=
| Sequence (items : list Hashable)
| SetOf (items : gset Hashable)
| Object.

(** [Variables.__eq__(other)] on the labels of [self], in order. *)
Definition Variables__eq__ (self : list Hashable) (other : Operand) : bool :=
  match other with
  | Sequence items =>
      (length self =? length items)%nat &&
      forallb (λ p, bool_decide (p.1 = p.2)) (zip self items)
  | SetOf items =>
      bool_decide (list_to_set self ∖ items ∪ items ∖ list_to_set self = ∅)
  | Object => false
  end.

(** [Variables.__ne__(other)] *)
Definition Variables__ne__ (self : list Hashable) (other : Operand) : bool :=
  negb (Variables__eq__ self other).

(* ===================================================================== *)
(** * Exceptions and the state monad *)
(* ===================================================================== *)

(** The messages of the [raise] statements of [constrained.py], and the
    failures of the library calls it makes. *)
Inductive message : Type :=
| different_vartype        (* "variable ... already exists with a different vartype" *)
| different_lower_bound    (* "... already been added with a different lower bound" *)
| different_upper_bound    (* same text, raised by the upper-bound test *)
| label_exists             (* "a constraint with that label already exists" *)
| used_in_discrete         (* "variable ... is already used in a discrete variable" *)
| not_binary               (* "variable ... has already been added but is not BINARY" *)
| added_different_vartype  (* "given variable has already been added with a different vartype" *)
| cannot_load_version      (* "cannot load a BQM serialized with version ..., try upgrading" *)
| invalid_sense            (* Sense(s) on a string that is no sense value *)
| library_failure.         (* an error of a collaborator: header, zip, json, load *)

Inductive exn : Type :=
| TypeError (m : message)
| ValueError (m : message)
| KeyError (name : string)
| IndexError.

#[global] Instance message_eq_dec : EqDecision message.
Proof. solve_decision. Defined.

#[global] Instance exn_eq_dec : EqDecision exn.
Proof. solve_decision. Defined.

(** The error kinds of the specification, section 7. Python raises
    [ValueError] for most of them; the kind is read off the message. Both
    messages of the validation loop of [add_discrete] are DiscreteConflict,
    as section 7 defines it ("already claimed by another discrete group, or
    previously typed as non-BINARY"). *)
Inductive ErrorKind : Type :=
| TypeConflict | BoundConflict | DuplicateLabel | DiscreteConflict
| FormatVersionUnsupported | OtherError.

Definition error_kind (e : exn) : ErrorKind :=
  match e with
  | TypeError different_vartype => TypeConflict
  | ValueError added_different_vartype => TypeConflict
  | ValueError different_lower_bound => BoundConflict
  | ValueError different_upper_bound => BoundConflict
  | ValueError label_exists => DuplicateLabel
  | ValueError used_in_discrete => DiscreteConflict
  | ValueError not_binary => DiscreteConflict
  | ValueError cannot_load_version => FormatVersionUnsupported
  | _ => OtherError
  end.

(** How a call ends. [OutOfDraws] is not a Python outcome: it marks a run of
    the label-generation loop that has used up every random draw it was
    given (see [fresh_label]). *)
Inductive outcome (A : Type) : Type :=
| Return (a : A)
| Raise (e : exn)
| OutOfDraws.
Arguments Return {A} a.
Arguments Raise {A} e.
Arguments OutOfDraws {A}.

Definition Py (S A : Type) : Type := S → outcome A * S.

Definition ret {S A} (a : A) : Py S A := λ s, (Return a, s).
Definition raise {S A} (e : exn) : Py S A := λ s, (Raise e, s).
Definition bind {S A B} (c : Py S A) (k : A → Py S B) : Py S B :=
  λ s, match c s with
       | (Return a, s') => k a s'
       | (Raise e, s') => (Raise e, s')
       | (OutOfDraws, s') => (OutOfDraws, s')
       end.
Definition get {S} : Py S S := λ s, (Return s, s).
Definition put {S} (s' : S) : Py S unit := λ _, (Return tt, s').

Declare Scope py_scope.
Delimit Scope py_scope with py.
Notation "x <- c ;; k" := (bind c (λ x, k))
  (at level 100, c at next level, right associativity) : py_scope.
Notation "c ;;; k" := (bind c (λ _, k))
  (at level 100, right associativity) : py_scope.

(** [for x in xs: body(x)] *)
Fixpoint for_each {S A} (xs : list A) (body : A → Py S unit) : Py S unit :=
  match xs with
  | [] => ret tt
  | x :: xs' => bind (body x) (λ _, for_each xs' body)
  end.

Definition is_Return {A} (o : outcome A) : Prop :=
  match o with Return _ => True | _ => False end.

Definition is_Raise {A} (o : outcome A) : Prop :=
  match o with Raise _ => True | _ => False end.

(* ===================================================================== *)
(** * The typed variable registry *)
(* ===================================================================== *)

Section Model.

#[local] Set Default Proof Using "Type".

(** Numbers: biases, bounds and right-hand sides. *)
Context {Bias : Type} `{!EqDecision Bias}.
Context (bias_one : Bias) (bias_add : Bias → Bias → Bias).

(** [naive_solver] and [set_solver] generalise over the whole context;
    these variants first drop the section variables the goal does not
    mention, so that a lemma depends only on what it states. *)
Ltac tidy := try clear bias_add; try clear bias_one.
Ltac tidy_solver := tidy; naive_solver.
Ltac tidy_set_solver := tidy; set_solver.

(** [class TypedVariables(Variables)]: the labels of the base class in
    insertion order, and the three attributes [__init__] adds. *)
Record TypedVariables : Type := mkTypedVariables {
  labels : list Hashable;
  vartypes : list Vartype;
  lower_bounds : gmap Hashable Bias;
  upper_bounds : gmap Hashable Bias
}.

Definition TypedVariables_init : TypedVariables :=
  mkTypedVariables [] [] ∅ ∅.

(** [Variables.count(v)]: 1 when the label is present, else 0. *)
Definition count (self : TypedVariables) (v : Hashable) : nat :=
  if decide (v ∈ labels self) then 1%nat else 0%nat.

(** [Variables.index(v)]: the position of the label. *)
Fixpoint index_in (l : list Hashable) (v : Hashable) : option nat :=
  match l with
  | [] => None
  | x :: l' => if decide (x = v) then Some 0%nat else S <$> index_in l' v
  end.

Definition index (self : TypedVariables) (v : Hashable) : option nat :=
  index_in (labels self) v.

(** [self.vartypes[self.index(v)]] *)
Definition vartypes_at (self : TypedVariables) (v : Hashable) : option Vartype :=
  i ← index self v; vartypes self !! i.

(** [TypedVariables.vartype(v)] *)
Definition vartype (self : TypedVariables) (v : Hashable) : outcome Vartype :=
  match index self v with
  | None => Raise (ValueError library_failure)
  | Some i => match vartypes self !! i with
              | None => Raise IndexError
              | Some t => Return t
              end
  end.

(** [d.setdefault(v, b)] on the two bound dictionaries: the stored value
    when there is one, else [b], which is then stored. *)
Definition setdefault_lower (v : Hashable) (b : Bias) : Py TypedVariables Bias :=
  λ self,
    match lower_bounds self !! v with
    | Some stored => (Return stored, self)
    | None => (Return b,
               mkTypedVariables (labels self) (vartypes self)
                 (<[v := b]> (lower_bounds self)) (upper_bounds self))
    end.

Definition setdefault_upper (v : Hashable) (b : Bias) : Py TypedVariables Bias :=
  λ self,
    match upper_bounds self !! v with
    | Some stored => (Return stored, self)
    | None => (Return b,
               mkTypedVariables (labels self) (vartypes self)
                 (lower_bounds self) (<[v := b]> (upper_bounds self)))
    end.

(** The [else] branch of [_append]: [super()._append(v)], then the vartype
    and the bounds that were given. *)
Definition append_new (vt : Vartype) (v : Hashable)
    (lower_bound upper_bound : option Bias) (self : TypedVariables) : TypedVariables :=
  mkTypedVariables
    (labels self ++ [v])
    (vartypes self ++ [vt])
    (match lower_bound with
     | Some b => <[v := b]> (lower_bounds self)
     | None => lower_bounds self
     end)
    (match upper_bound with
     | Some b => <[v := b]> (upper_bounds self)
     | None => upper_bounds self
     end).

(** [if b is not None and b != d.setdefault(v, b): raise ValueError] *)
Definition check_lower (v : Hashable) (lower_bound : option Bias) : Py TypedVariables unit :=
  match lower_bound with
  | None => ret tt
  | Some b =>
      (stored <- setdefault_lower v b ;;
       if decide (b ≠ stored) then raise (ValueError different_lower_bound)
       else ret tt)%py
  end.

Definition check_upper (v : Hashable) (upper_bound : option Bias) : Py TypedVariables unit :=
  match upper_bound with
  | None => ret tt
  | Some b =>
      (stored <- setdefault_upper v b ;;
       if decide (b ≠ stored) then raise (ValueError different_upper_bound)
       else ret tt)%py
  end.

(** [TypedVariables._append(vartype, v, *, lower_bound, upper_bound)].
    The vartype argument is already a [Vartype] ([as_vartype] is the
    identity on the members of the enumeration). *)
Definition _append (vt : Vartype) (v : Hashable)
    (lower_bound upper_bound : option Bias) : Py TypedVariables Hashable :=
  λ self,
    if decide (count self v ≠ 0%nat) then
      match vartype self v with
      | Return stored =>
          if decide (vt ≠ stored) then (Raise (TypeError different_vartype), self)
          else if decide (vt ≠ BINARY ∧ vt ≠ SPIN) then
            (check_lower v lower_bound ;;;
             check_upper v upper_bound ;;;
             ret v)%py self
          else (Return v, self)
      | Raise e => (Raise e, self)
      | OutOfDraws => (OutOfDraws, self)
      end
    else (Return v, append_new vt v lower_bound upper_bound self).

(* ===================================================================== *)
(** * Quadratic expressions and comparisons *)
(* ===================================================================== *)

(** The vartype of a binary quadratic model: [SPIN] or [BINARY]. *)
Inductive BinaryVartype : Type := BQM_SPIN | BQM_BINARY.

Definition as_vartype (t : BinaryVartype) : Vartype :=
  match t with BQM_SPIN => SPIN | BQM_BINARY => BINARY end.

(** [BinaryQuadraticModel], by what [constrained.py] reads of it: its
    vartype, [linear] (one entry per variable, in variable order),
    [quadratic] and the offset. *)
Record BinaryQuadraticModel : Type := mkBQM {
  bqm_vartype : BinaryVartype;
  bqm_linear : list (Hashable * Bias);
  bqm_quadratic : list (Hashable * Hashable * Bias);
  bqm_offset : option Bias
}.

(** One variable of a [QuadraticModel]: what [vartype(v)],
    [lower_bound(v)], [upper_bound(v)] and [linear[v]] return. *)
Record QMVariable : Type := mkQMVariable {
  qmv_vartype : Vartype;
  qmv_lower_bound : Bias;
  qmv_upper_bound : Bias;
  qmv_linear : Bias
}.

Record QuadraticModel : Type := mkQM {
  qm_variables : list (Hashable * QMVariable);
  qm_quadratic : list (Hashable * Hashable * Bias);
  qm_offset : option Bias
}.

(** [Union[BinaryQuadraticModel, QuadraticModel]] *)
Inductive Model : Type :=
| BQM (bqm : BinaryQuadraticModel)
| QM (qm : QuadraticModel).

(** [model.variables] *)
Definition model_variables (m : Model) : list Hashable :=
  match m with
  | BQM b => (bqm_linear b).*1
  | QM q => (qm_variables q).*1
  end.

(** [len(model.linear)] and [len(model.quadratic)] *)
Definition len_linear (m : Model) : nat :=
  match m with
  | BQM b => length (bqm_linear b)
  | QM q => length (qm_variables q)
  end.

Definition model_quadratic (m : Model) : list (Hashable * Hashable * Bias) :=
  match m with
  | BQM b => bqm_quadratic b
  | QM q => qm_quadratic q
  end.

Definition len_quadratic (m : Model) : nat := length (model_quadratic m).

(** [model.degree(v)]: the number of interactions [v] takes part in. *)
Definition degree (m : Model) (v : Hashable) : nat :=
  length (filter (λ t, t.1.1 = v ∨ t.1.2 = v) (model_quadratic m)).

(** The registrations [_add_variables_from] makes for a model, in order:
    a binary quadratic model passes its vartype and no bound, a quadratic
    model passes each variable's vartype and both of its bounds. *)
Definition registrations (m : Model)
    : list (Vartype * Hashable * option Bias * option Bias) :=
  match m with
  | BQM b => (λ v, (as_vartype (bqm_vartype b), v, None, None)) <$> (bqm_linear b).*1
  | QM q => (λ e, (qmv_vartype e.2, e.1,
                   Some (qmv_lower_bound e.2), Some (qmv_upper_bound e.2)))
              <$> qm_variables q
  end.

(** [dimod.sym.Comparison] with a model on the left and a number on the
    right. *)
Record Comparison : Type := mkComparison {
  lhs : Model;
  sense : Sense;
  rhs : Bias
}.

(** [bqm.add_variable(v, bias)] on the linear biases: a new variable is
    appended, a known one has the bias added to its own. *)
Fixpoint add_linear (linear : list (Hashable * Bias)) (v : Hashable) (bias : Bias)
    : list (Hashable * Bias) :=
  match linear with
  | [] => [(v, bias)]
  | (u, b) :: rest =>
      if decide (u = v) then (u, bias_add b bias) :: rest
      else (u, b) :: add_linear rest v bias
  end.

(** [bqm = BinaryQuadraticModel('BINARY'); bqm.add_variables_from((v, 1) for v in variables)] *)
Definition one_hot (variables : list Hashable) : BinaryQuadraticModel :=
  mkBQM BQM_BINARY
    (foldl (λ linear v, add_linear linear v bias_one) [] variables) [] None.

(* ===================================================================== *)
(** * The constrained quadratic model *)
(* ===================================================================== *)

(** A Python [dict] with insertion order, as an association list. *)
Fixpoint dict_get {V} (d : list (Hashable * V)) (k : Hashable) : option V :=
  match d with
  | [] => None
  | (k', x) :: rest => if decide (k' = k) then Some x else dict_get rest k
  end.

(** [d[k] = x]: replaces the value of a present key in place, appends a
    new key. *)
Fixpoint dict_set {V} (d : list (Hashable * V)) (k : Hashable) (x : V)
    : list (Hashable * V) :=
  match d with
  | [] => [(k, x)]
  | (k', y) :: rest =>
      if decide (k' = k) then (k', x) :: rest else (k', y) :: dict_set rest k x
  end.

(** The attributes of a [ConstrainedQuadraticModel]. The three lazily
    created ones ([_objective], [_constraints], [_variables]) hold the
    value their property creates on first access. *)
Record ConstrainedQuadraticModel : Type := mkCQM {
  objective : Model;
  constraints : list (Hashable * Comparison);
  variables : TypedVariables;
  discrete : gset Hashable;
  _discrete : gset Hashable
}.

(** [CQM()] *)
Definition CQM : ConstrainedQuadraticModel :=
  mkCQM (BQM (mkBQM BQM_BINARY [] [] None)) [] TypedVariables_init ∅ ∅.

Definition set_variables (r : TypedVariables) (self : ConstrainedQuadraticModel) :=
  mkCQM (objective self) (constraints self) r (discrete self) (_discrete self).

(** Runs a method of [self.variables]. *)
Definition on_variables {A} (c : Py TypedVariables A) : Py ConstrainedQuadraticModel A :=
  λ self, let '(o, r) := c (variables self) in (o, set_variables r self).

(** [ConstrainedQuadraticModel._add_variables_from(model)] *)
Definition _add_variables_from (model : Model) : Py ConstrainedQuadraticModel unit :=
  for_each (registrations model)
    (λ '(vt, v, lb, ub), on_variables (_append vt v lb ub) ;;; ret tt)%py.

(** [label = uuid.uuid4().hex[:6]; while label in self.constraints: ...]
    where [draws] are the values the successive [uuid.uuid4().hex[:6]]
    evaluate to. The loop returns the first draw that is no label of a
    constraint; it is still running when the draws are used up. *)
Fixpoint fresh_label (draws : list string) (constraints : list (Hashable * Comparison))
    : outcome Hashable :=
  match draws with
  | [] => OutOfDraws
  | d :: draws' =>
      if decide (HStr d ∈ constraints.*1) then fresh_label draws' constraints
      else Return (HStr d)
  end.

(** [sense: Union[Sense, str]] and [if isinstance(sense, str): sense = Sense(sense)] *)
Definition as_Sense (s : Sense + string) : outcome Sense :=
  match s with
  | inl s => Return s
  | inr v => match Sense_of_value v with
             | Some s => Return s
             | None => Raise (ValueError invalid_sense)
             end
  end.

Definition lift_outcome {S A} (o : outcome A) : Py S A := λ s, (o, s).

(** [if label is None: (generate) elif label in self.constraints: raise ValueError] *)
Definition choose_label (label : option Hashable) (draws : list string)
    (constraints : list (Hashable * Comparison)) : outcome Hashable :=
  match label with
  | None => fresh_label draws constraints
  | Some l =>
      if decide (l ∈ constraints.*1) then Raise (ValueError label_exists)
      else Return l
  end.

(** [ConstrainedQuadraticModel.add_constraint_from_model(qm, sense, rhs, label, copy)].
    A model is a value, so [qm.copy()] is [qm]. *)
Definition add_constraint_from_model (qm : Model) (sense : Sense + string)
    (rhs : Bias) (label : option Hashable) (copy : bool) (draws : list string)
    : Py ConstrainedQuadraticModel Hashable :=
  (sense <- lift_outcome (as_Sense sense) ;;
   self <- get ;;
   label <- lift_outcome (choose_label label draws (constraints self)) ;;
   _add_variables_from qm ;;;
   self <- get ;;
   put (mkCQM (objective self)
          (dict_set (constraints self) label (mkComparison qm sense rhs))
          (variables self) (discrete self) (_discrete self)) ;;;
   ret label)%py.

(** [ConstrainedQuadraticModel.add_constraint_from_comparison(comp, label, copy)] *)
Definition add_constraint_from_comparison (comp : Comparison)
    (label : option Hashable) (copy : bool) (draws : list string)
    : Py ConstrainedQuadraticModel Hashable :=
  add_constraint_from_model (lhs comp) (inl (sense comp)) (rhs comp) label copy draws.

(** [ConstrainedQuadraticModel.add_constraint(data, *args, **kwargs)] for a
    model and for a comparison; the arguments a branch does not take are
    ignored here. *)
Definition add_constraint (data : Model + Comparison) (sense : Sense + string)
    (rhs : Bias) (label : option Hashable) (draws : list string)
    : Py ConstrainedQuadraticModel Hashable :=
  match data with
  | inl qm => add_constraint_from_model qm sense rhs label true draws
  | inr comp => add_constraint_from_comparison comp label true draws
  end.

(** [ConstrainedQuadraticModel.vartype(v)] *)
Definition cqm_vartype (v : Hashable) : Py ConstrainedQuadraticModel Vartype :=
  λ self, (vartype (variables self) v, self).

(** The validation loop of [add_discrete]. *)
Definition check_discrete (v : Hashable) : Py ConstrainedQuadraticModel unit :=
  (self <- get ;;
   if decide (v ∈ _discrete self) then raise (ValueError used_in_discrete)
   else if decide (v ∈ labels (variables self)) then
     (t <- cqm_vartype v ;;
      if decide (t ≠ BINARY) then raise (ValueError not_binary) else ret tt)
   else ret tt)%py.

(** [ConstrainedQuadraticModel.add_discrete(variables, label)] *)
Definition add_discrete (vs : list Hashable) (label : option Hashable)
    (draws : list string) : Py ConstrainedQuadraticModel Hashable :=
  (self <- get ;;
   (match label with
    | Some l => if decide (l ∈ (constraints self).*1)
                then raise (ValueError label_exists) else ret tt
    | None => ret tt
    end) ;;;
   for_each vs check_discrete ;;;
   label <- add_constraint (inr (mkComparison (BQM (one_hot vs)) Eq bias_one))
              (inl Eq) bias_one label draws ;;
   self <- get ;;
   put (mkCQM (objective self) (constraints self) (variables self)
          ({[label]} ∪ discrete self) (list_to_set vs ∪ _discrete self)) ;;;
   ret label)%py.

(** [ConstrainedQuadraticModel.add_variable(v, vartype)]: returns [None]
    for a known variable, the label for a new one. *)
Definition add_variable (v : Hashable) (vt : Vartype)
    : Py ConstrainedQuadraticModel (option Hashable) :=
  (self <- get ;;
   if decide (count (variables self) v ≠ 0%nat) then
     (stored <- cqm_vartype v ;;
      if decide (vt ≠ stored) then raise (ValueError added_different_vartype)
      else ret None)
   else (l <- on_variables (_append vt v None None) ;; ret (Some l)))%py.

(** [ConstrainedQuadraticModel.set_objective(objective)] *)
Definition set_objective (obj : Model) : Py ConstrainedQuadraticModel unit :=
  (_add_variables_from obj ;;;
   self <- get ;;
   put (mkCQM obj (constraints self) (variables self)
          (discrete self) (_discrete self)))%py.

(** [ConstrainedQuadraticModel.num_biases()] *)
Definition num_biases (self : ConstrainedQuadraticModel) : nat :=
  let num_biases := (len_linear (objective self) + len_quadratic (objective self))%nat in
  (num_biases +
   sum_list ((λ const, (len_linear (lhs const) + len_quadratic (lhs const))%nat)
               <$> (constraints self).*2))%nat.

(** [ConstrainedQuadraticModel.num_quadratic_variables()] *)
Definition num_quadratic_variables (self : ConstrainedQuadraticModel) : nat :=
  foldl (λ count const,
           (count + length (filter (λ v, (0 < degree (lhs const) v)%nat)
                              (model_variables (lhs const))))%nat)
        0%nat (constraints self).*2.

(** The methods of [QuadraticModel] that [add_constraint_from_iterable]
    calls on the model it builds; they are no part of [constrained.py].
    Each changes the model or raises. *)
Class QuadraticModelMethods : Type := {
  (** [QuadraticModel()] *)
  QuadraticModel_new : QuadraticModel;
  (** [qm.offset += bias] *)
  iadd_offset : Bias → Py QuadraticModel unit;
  (** [qm.add_variable(vartype, v)] *)
  qm_add_variable : Vartype → Hashable → Py QuadraticModel unit;
  (** [qm.add_linear(v, bias)] *)
  qm_add_linear : Hashable → Bias → Py QuadraticModel unit;
  (** [qm.add_quadratic(u, v, bias)] *)
  qm_add_quadratic : Hashable → Hashable → Bias → Py QuadraticModel unit
}.

(** [ValueError("terms must be constant, linear or quadratic")], the error
    of the loop of [add_constraint_from_iterable]. *)
Inductive TermsError : Type := terms_must_be_constant_linear_or_quadratic.

(** The body of the loop of [add_constraint_from_iterable] for one term
    [*variables, bias] ([vars] are its variables): what it does to [qm], or
    [None] for the branch that raises the [ValueError] of the loop. [self]
    is only read. *)
Definition add_term `{!QuadraticModelMethods} (self : ConstrainedQuadraticModel)
    (vars : list Hashable) (bias : Bias) : option (Py QuadraticModel unit) :=
  match vars with
  | [] => Some (iadd_offset bias)
  | [v] =>
      Some (t <- lift_outcome (vartype (variables self) v) ;;
            qm_add_variable t v ;;;
            qm_add_linear v bias)%py
  | [u; v] =>
      Some (tu <- lift_outcome (vartype (variables self) u) ;;
            qm_add_variable tu u ;;;
            tv <- lift_outcome (vartype (variables self) v) ;;
            qm_add_variable tv v ;;;
            qm_add_quadratic u v bias)%py
  | _ => None
  end.

(** [for *variables, bias in iterable: ...] on the model [qm]. *)
Fixpoint add_terms `{!QuadraticModelMethods} (self : ConstrainedQuadraticModel)
    (iterable : list (list Hashable * Bias)) (qm : QuadraticModel)
    : TermsError + outcome unit * QuadraticModel :=
  match iterable with
  | [] => inr (Return tt, qm)
  | (vars, bias) :: rest =>
      match add_term self vars bias with
      | None => inl terms_must_be_constant_linear_or_quadratic
      | Some step =>
          match step qm with
          | (Return _, qm') => add_terms self rest qm'
          | (o, qm') => inr (o, qm')
          end
      end
  end.

(** [ConstrainedQuadraticModel.add_constraint_from_iterable(iterable, sense, rhs, label)]:
    the error of the loop, or how the call ends otherwise. *)
Definition add_constraint_from_iterable `{!QuadraticModelMethods}
    (iterable : list (list Hashable * Bias)) (sense : Sense + string) (rhs : Bias)
    (label : option Hashable) (draws : list string) (self : ConstrainedQuadraticModel)
    : (TermsError + outcome Hashable) * ConstrainedQuadraticModel :=
  match add_terms self iterable QuadraticModel_new with
  | inl error => (inl error, self)
  | inr (Return _, qm) =>
      let '(o, self') := add_constraint_from_model (QM qm) sense rhs label false draws self in
      (inr o, self')
  | inr (Raise e, _) => (inr (Raise e), self)
  | inr (OutOfDraws, _) => (inr OutOfDraws, self)
  end.

(* ===================================================================== *)
(** * The archive codec *)
(* ===================================================================== *)

Definition bytes : Type := list Byte.byte.

(** [CQM_MAGIC_PREFIX = b'DIMODCQM'] *)
Definition CQM_MAGIC_PREFIX : bytes := String.list_byte_of_string "DIMODCQM".

(** [fileview.HeaderInfo]: the header dictionary and the version pair. *)
Record HeaderInfo : Type := mkHeaderInfo {
  data : list (string * nat);
  version : nat * nat
}.

(** The collaborators of the codec that are no part of [constrained.py].
    Each field is the function named in its comment, as the code calls it. *)
Class Externals : Type := {
  (** [model.to_file(spool_size=int(1e12))._file.getbuffer()] *)
  Model_to_file : Model → bytes;
  (** [fileview.load(data)] *)
  load : bytes → outcome Model;
  (** [np.float64(rhs).tobytes()] *)
  float64_tobytes : Bias → bytes;
  (** [np.frombuffer(data, np.float64)[0]] *)
  float64_frombuffer : bytes → outcome Bias;
  (** [json.dumps(serialize_variable(label))] *)
  json_dumps_label : Hashable → string;
  (** [deserialize_variable(json.loads(text))] *)
  json_loads_label : string → outcome Hashable;
  (** [write_header(file, prefix, data, version)]: the bytes written *)
  write_header : bytes → list (string * nat) → nat * nat → bytes;
  (** [read_header(file_like, prefix)] *)
  read_header : bytes → bytes → outcome HeaderInfo;
  (** [with zipfile.ZipFile(file, mode='a') as zf: zf.writestr(name, data) ...]:
      the content of the file after the entries were written in this order *)
  ZipFile_append : bytes → list (string * bytes) → bytes;
  (** [zipfile.ZipFile(file_like, mode='r')]: the entries of the archive,
      in the order of [namelist()] *)
  ZipFile_read : bytes → outcome (list (string * bytes));
  (** The order in which [for x in s] enumerates the [set] of strings that
      was filled by [s.add] in the order given. *)
  set_iter : list string → list string
}.

Context `{!Externals}.

Ltac tidy ::=
  try clear bias_add; try clear bias_one;
  repeat match goal with E : Externals |- _ => clear E end.

(** [a >= b] on pairs, as Python compares tuples. *)
Definition tuple_ge (a b : nat * nat) : bool :=
  (b.1 <? a.1)%nat || ((a.1 =? b.1)%nat && (b.2 <=? a.2)%nat).

(** [zf.read(name)]: the last entry of that name, [KeyError] without one. *)
Fixpoint zf_read (zf : list (string * bytes)) (name : string) : outcome bytes :=
  match zf with
  | [] => Raise (KeyError name)
  | (n, content) :: rest =>
      match zf_read rest name with
      | Return later => Return later
      | _ => if decide (n = name) then Return content else Raise (KeyError name)
      end
  end.

(** [re.match("constraints/([^/]+)/", arch)] and [match.group(1)] *)
Fixpoint strip_prefix (p s : string) : option string :=
  match p, s with
  | EmptyString, _ => Some s
  | String a p', String b s' => if decide (a = b) then strip_prefix p' s' else None
  | String _ _, EmptyString => None
  end.

Fixpoint span_not_slash (s : string) : string * string :=
  match s with
  | EmptyString => (EmptyString, EmptyString)
  | String c s' =>
      if decide (c = "/"%char) then (EmptyString, s)
      else let '(g, r) := span_not_slash s' in (String c g, r)
  end.

Definition re_match_constraints (arch : string) : option string :=
  rest ← strip_prefix "constraints/" arch;
  let '(g, r) := span_not_slash rest in
  match g, r with
  | String _ _, String _ _ => Some g
  | _, _ => None
  end.

(** [data.decode('ascii')] *)
Definition decode_ascii (b : bytes) : outcome string :=
  if decide (Forall (λ x, (Byte.to_N x < 128)%N) b)
  then Return (String.string_of_list_byte b)
  else Raise (ValueError library_failure).

(** [bytes(text, 'ascii')] for a text of ASCII characters. *)
Definition encode_ascii (s : string) : bytes := String.list_byte_of_string s.

(** [any(data)] on bytes *)
Definition any_byte (b : bytes) : bool :=
  bool_decide (Exists (λ x, x ≠ Byte.x00) b).

(** [bytes((flag,))] *)
Definition bytes_of_bool (flag : bool) : bytes :=
  [if flag then Byte.x01 else Byte.x00].

(** The entries [to_file] writes for one constraint. *)
Definition constraint_entries (self : ConstrainedQuadraticModel)
    (label : Hashable) (constraint : Comparison) : list (string * bytes) :=
  let lstr := json_dumps_label label in
  [ ("constraints/" +:+ lstr +:+ "/lhs", Model_to_file (lhs constraint));
    ("constraints/" +:+ lstr +:+ "/rhs", float64_tobytes (rhs constraint));
    ("constraints/" +:+ lstr +:+ "/sense", encode_ascii (Sense_value (sense constraint)));
    ("constraints/" +:+ lstr +:+ "/discrete",
       bytes_of_bool (bool_decide (label ∈ discrete self))) ].

Definition archive_entries (self : ConstrainedQuadraticModel) : list (string * bytes) :=
  ("objective"%string, Model_to_file (objective self))
  :: mjoin ((λ e, constraint_entries self e.1 e.2) <$> constraints self).

(** [ConstrainedQuadraticModel.to_file()] *)
Definition to_file (self : ConstrainedQuadraticModel) : bytes :=
  let data :=
    [ ("num_variables"%string, length (labels (variables self)));
      ("num_constraints"%string, length (constraints self));
      ("num_biases"%string, num_biases self);
      ("num_quadratic_variables"%string, num_quadratic_variables self) ] in
  let file := write_header CQM_MAGIC_PREFIX data (1%nat, 1%nat) in
  ZipFile_append file (archive_entries self).

(** The body of the loop of [from_file] over the constraint directories.
    What the name of the directory decodes to is a label here; [None],
    which the name [null] decodes to and for which [add_constraint] would
    generate the label, has no counterpart among the labels. *)
Definition load_constraint (zf : list (string * bytes)) (constraint : string)
    : Py ConstrainedQuadraticModel unit :=
  (lhs_bytes <- lift_outcome (zf_read zf ("constraints/" +:+ constraint +:+ "/lhs")) ;;
   lhs <- lift_outcome (load lhs_bytes) ;;
   rhs_bytes <- lift_outcome (zf_read zf ("constraints/" +:+ constraint +:+ "/rhs")) ;;
   rhs <- lift_outcome (float64_frombuffer rhs_bytes) ;;
   sense_bytes <- lift_outcome (zf_read zf ("constraints/" +:+ constraint +:+ "/sense")) ;;
   sense <- lift_outcome (decode_ascii sense_bytes) ;;
   discrete_bytes <- lift_outcome (zf_read zf ("constraints/" +:+ constraint +:+ "/discrete")) ;;
   label <- lift_outcome (json_loads_label constraint) ;;
   add_constraint (inl lhs) (inr sense) rhs (Some label) [] ;;;
   if any_byte discrete_bytes then
     (cqm <- get ;;
      put (mkCQM (objective cqm) (constraints cqm) (variables cqm)
             ({[label]} ∪ discrete cqm) (_discrete cqm)))
   else ret tt)%py.

(** The [with zipfile.ZipFile(...)] block of [from_file], run on [cqm = CQM()]. *)
Definition load_archive (zf : list (string * bytes)) : Py ConstrainedQuadraticModel unit :=
  (objective_bytes <- lift_outcome (zf_read zf "objective") ;;
   obj <- lift_outcome (load objective_bytes) ;;
   set_objective obj ;;;
   let constraint_labels := set_iter (omap re_match_constraints zf.*1) in
   for_each constraint_labels (load_constraint zf))%py.

(** The part of [from_file] after the version test: the archive is opened
    and loaded into [cqm = CQM()]. *)
Definition read_archive (fp : bytes) : outcome ConstrainedQuadraticModel :=
  match ZipFile_read fp with
  | Return zf =>
      match load_archive zf CQM with
      | (Return _, cqm) => Return cqm
      | (Raise e, _) => Raise e
      | (OutOfDraws, _) => OutOfDraws
      end
  | Raise e => Raise e
  | OutOfDraws => OutOfDraws
  end.

(** [ConstrainedQuadraticModel.from_file(fp)] on a bytes object. *)
Definition from_file (fp : bytes) : outcome ConstrainedQuadraticModel :=
  match read_header fp CQM_MAGIC_PREFIX with
  | Return header_info =>
      if tuple_ge (version header_info) (2%nat, 0%nat)
      then Raise (ValueError cannot_load_version)
      else read_archive fp
  | Raise e => Raise e
  | OutOfDraws => OutOfDraws
  end.

(* ===================================================================== *)
(** * Models built through the facade *)
(* ===================================================================== *)

(** One call of a mutating method, with its arguments. *)
Inductive Call : Type :=
| call_set_objective (obj : Model)
| call_add_constraint_from_model (qm : Model) (sense : Sense + string) (rhs : Bias)
    (label : option Hashable) (copy : bool) (draws : list string)
| call_add_constraint_from_comparison (comp : Comparison)
    (label : option Hashable) (copy : bool) (draws : list string)
| call_add_discrete (vs : list Hashable) (label : option Hashable) (draws : list string)
| call_add_variable (v : Hashable) (vt : Vartype).

(** The model after a call, whether the call returned or raised (the
    caller may catch the exception and go on with the object). *)
Definition after (c : Call) (self : ConstrainedQuadraticModel)
    : ConstrainedQuadraticModel :=
  match c with
  | call_set_objective obj => (set_objective obj self).2
  | call_add_constraint_from_model qm sense rhs label copy draws =>
      (add_constraint_from_model qm sense rhs label copy draws self).2
  | call_add_constraint_from_comparison comp label copy draws =>
      (add_constraint_from_comparison comp label copy draws self).2
  | call_add_discrete vs label draws => (add_discrete vs label draws self).2
  | call_add_variable v vt => (add_variable v vt self).2
  end.

(** The models a program can build from [CQM()] with these methods. *)
Inductive reachable : ConstrainedQuadraticModel → Prop :=
| reachable_init : reachable CQM
| reachable_after c self : reachable self → reachable (after c self).

(* ===================================================================== *)
(** * The vocabulary of the properties *)
(* ===================================================================== *)

(** A registration: the arguments of one call of [_append]. *)
Definition Registration : Type := Vartype * Hashable * option Bias * option Bias.

Definition register (c : Registration) : Py TypedVariables Hashable :=
  let '(vt, v, lb, ub) := c in _append vt v lb ub.

(** The registry after a sequence of registrations, failed ones included. *)
Definition registry_after (cs : list Registration) (r : TypedVariables) : TypedVariables :=
  foldl (λ r c, (register c r).2) r cs.

(** The two parallel lists stay in step. *)
Definition reg_wf (r : TypedVariables) : Prop :=
  length (labels r) = length (vartypes r).

(** Only registered labels have a bound. *)
Definition bounds_registered (r : TypedVariables) : Prop :=
  ∀ u, (is_Some (lower_bounds r !! u) ∨ is_Some (upper_bounds r !! u)) → u ∈ labels r.

(** What a re-registration does to one bound dictionary when it does not
    conflict: a bound is stored where none was. *)
Definition fix_bound (v : Hashable) (supplied : option Bias) (d : gmap Hashable Bias)
    : gmap Hashable Bias :=
  match supplied, d !! v with
  | Some b, None => <[v := b]> d
  | _, _ => d
  end.

(** The supplied bound differs from the bound already fixed. *)
Definition bound_conflict (supplied stored : option Bias) : Prop :=
  ∃ b s, supplied = Some b ∧ stored = Some s ∧ b ≠ s.

#[local] Instance bound_conflict_dec supplied stored : Decision (bound_conflict supplied stored).
Proof using EqDecision0.
  destruct supplied as [b|], stored as [s|];
    try (right; intros (?&?&?&?&?); congruence).
  destruct (decide (b = s)) as [->|N].
  - right. intros (?&?&?&?&?). congruence.
  - left. by exists b, s.
Defined.

(** The registry after a registration either holds one more label, or the
    same labels and vartypes with at most the supplied bounds fixed. *)
Definition extends_bounds (v : Hashable) (supplied : option Bias)
    (d d' : gmap Hashable Bias) : Prop :=
  d' = d ∨ d' = fix_bound v supplied d.

(** The invariants of a registry that hold however it was filled. *)
Definition registry_ok (r : TypedVariables) : Prop :=
  reg_wf r ∧ bounds_registered r.

(** The loop of [_add_variables_from], seen from the registry. *)
Definition register_all (cs : list Registration) : Py TypedVariables unit :=
  for_each cs (λ c, register c ;;; ret tt)%py.

(** What the validation loop of [add_discrete] accepts. *)
Definition discrete_ok (self : ConstrainedQuadraticModel) (v : Hashable) : Prop :=
  (v ∉ _discrete self) ∧
  (v ∈ labels (variables self) → vartype (variables self) v = Return BINARY).

(** [add_discrete] after its test of the label. *)
Definition add_discrete_body (vs : list Hashable) (label : option Hashable)
    (draws : list string) (self : ConstrainedQuadraticModel)
    : outcome Hashable * ConstrainedQuadraticModel :=
  match (for_each vs check_discrete self).1 with
  | Return _ =>
      match add_constraint_from_model (BQM (one_hot vs)) (inl Eq)
              bias_one label true draws self with
      | (Return l', m) =>
          (Return l',
           mkCQM (objective m) (constraints m) (variables m)
             ({[l']} ∪ discrete m) (list_to_set vs ∪ _discrete m))
      | (Raise e, m) => (Raise e, m)
      | (OutOfDraws, m) => (OutOfDraws, m)
      end
  | Raise e => (Raise e, self)
  | OutOfDraws => (OutOfDraws, self)
  end.

(** The exceptions that [_append] raises. *)
Definition registry_error (e : exn) : Prop :=
  e = TypeError different_vartype ∨ e = ValueError different_lower_bound ∨
  e = ValueError different_upper_bound.

(** The model after a sequence of calls. *)
Definition model_after (calls : list Call) (self : ConstrainedQuadraticModel)
    : ConstrainedQuadraticModel :=
  foldl (λ m c, after c m) self calls.

(** The four ways a call changes the model: it registers variables
    only (a call that raised, or [add_variable]), replaces the objective,
    appends a constraint, or appends the constraint of a discrete group. *)
Inductive transition (m : ConstrainedQuadraticModel) : ConstrainedQuadraticModel → Prop :=
| tr_registry regs :
    transition m (set_variables (registry_after regs (variables m)) m)
| tr_objective obj r :
    register_all (registrations obj) (variables m) = (Return tt, r) →
    transition m (mkCQM obj (constraints m) r (discrete m) (_discrete m))
| tr_constraint l c r :
    l ∉ (constraints m).*1 →
    register_all (registrations (lhs c)) (variables m) = (Return tt, r) →
    transition m
      (mkCQM (objective m) (constraints m ++ [(l, c)]) r (discrete m) (_discrete m))
| tr_discrete l vs r :
    l ∉ (constraints m).*1 →
    Forall (discrete_ok m) vs →
    register_all (registrations (BQM (one_hot vs))) (variables m) = (Return tt, r) →
    transition m
      (mkCQM (objective m)
         (constraints m ++ [(l, mkComparison (BQM (one_hot vs)) Eq bias_one)])
         r ({[l]} ∪ discrete m) (list_to_set vs ∪ _discrete m)).

(** The variables of the group recorded under a label. *)
Definition group (self : ConstrainedQuadraticModel) (l : Hashable)
    : option (list Hashable) :=
  if decide (l ∈ discrete self)
  then (λ c, model_variables (lhs c)) <$> dict_get (constraints self) l
  else None.

(** No variable belongs to two groups. *)
Definition groups_disjoint (self : ConstrainedQuadraticModel) : Prop :=
  ∀ l1 l2 g1 g2 v,
    group self l1 = Some g1 → group self l2 = Some g2 →
    v ∈ g1 → v ∈ g2 → l1 = l2.

(** Every discrete label names a constraint, and [_discrete] holds the
    variables of every group. *)
Definition groups_claimed (self : ConstrainedQuadraticModel) : Prop :=
  ∀ l, l ∈ discrete self →
    ∃ c, dict_get (constraints self) l = Some c ∧
         ∀ v, v ∈ model_variables (lhs c) → v ∈ _discrete self.

(** The invariant of the discrete groups. *)
Definition discrete_inv (self : ConstrainedQuadraticModel) : Prop :=
  groups_claimed self ∧ groups_disjoint self.

(** The registry holds the label of a registration with its vartype and,
    for a vartype other than BINARY and SPIN, with the bounds it gives. *)
Definition agrees (r : TypedVariables) (c : Registration) : Prop :=
  let '(vt, v, lb, ub) := c in
  vartype r v = Return vt ∧
  (vt ≠ BINARY → vt ≠ SPIN →
   (∀ b, lb = Some b → lower_bounds r !! v = Some b) ∧
   (∀ b, ub = Some b → upper_bounds r !! v = Some b)).

(** The objective and the left-hand sides of the constraints. *)
Definition expressions (self : ConstrainedQuadraticModel) : list Model :=
  objective self :: (lhs <$> (constraints self).*2).

(** Section 3 of the specification: every variable of the objective or of
    a constraint is registered as the expression declares it. *)
Definition consistent (self : ConstrainedQuadraticModel) : Prop :=
  ∀ e, e ∈ expressions self → Forall (agrees (variables self)) (registrations e).

(** What [r] records, [R] records as well. *)
Definition below (R r : TypedVariables) : Prop :=
  ∀ v t, vartype r v = Return t →
    vartype R v = Return t ∧
    (t ≠ BINARY → t ≠ SPIN →
     (∀ b, lower_bounds r !! v = Some b → lower_bounds R !! v = Some b) ∧
     (∀ b, upper_bounds r !! v = Some b → upper_bounds R !! v = Some b)).

(** A text without [/]. *)
Fixpoint no_slash (s : string) : Prop :=
  match s with
  | EmptyString => True
  | String c s' => c ≠ "/"%char ∧ no_slash s'
  end.

(** A directory name that [[^/]+] matches whole: not empty, no [/]. *)
Definition valid_dir (s : string) : Prop := s ≠ EmptyString ∧ no_slash s.

(** The entry of a field of the directory of a constraint. *)
Definition entry_name (lstr field : string) : string :=
  "constraints/" +:+ lstr +:+ String "/" field.

(** The four files of the directory of a constraint. *)
Definition fields (self : ConstrainedQuadraticModel) (label : Hashable)
    (constraint : Comparison) : list (string * bytes) :=
  [ ("lhs"%string, Model_to_file (lhs constraint));
    ("rhs"%string, float64_tobytes (rhs constraint));
    ("sense"%string, encode_ascii (Sense_value (sense constraint)));
    ("discrete"%string, bytes_of_bool (bool_decide (label ∈ discrete self))) ].

(** The collaborators do their part on the model [M]: the header reads
    back with version 1.1, the zip reader returns the entries written, the
    expression, number and label codecs read back what they wrote for the
    objective and the constraints of [M], and iterating a Python set
    enumerates its members once each, in some order. *)
Definition codec_faithful_on (M : ConstrainedQuadraticModel) : Prop :=
  (∃ header_info, read_header (to_file M) CQM_MAGIC_PREFIX = Return header_info ∧
                  version header_info = (1%nat, 1%nat)) ∧
  ZipFile_read (to_file M) = Return (archive_entries M) ∧
  load (Model_to_file (objective M)) = Return (objective M) ∧
  (∀ l c, (l, c) ∈ constraints M →
     load (Model_to_file (lhs c)) = Return (lhs c) ∧
     float64_frombuffer (float64_tobytes (rhs c)) = Return (rhs c) ∧
     json_loads_label (json_dumps_label l) = Return l) ∧
  (∀ names, NoDup (set_iter names) ∧ ∀ x, x ∈ set_iter names ↔ x ∈ names).

(** The directory name of every constraint label is one that the pattern
    [constraints/([^/]+)/] matches whole. *)
Definition label_dirs_ok (M : ConstrainedQuadraticModel) : Prop :=
  ∀ l, l ∈ (constraints M).*1 → valid_dir (json_dumps_label l).

(** A variable of the objective or of a constraint. *)
Definition used (M : ConstrainedQuadraticModel) (v : Hashable) : Prop :=
  ∃ e, e ∈ expressions M ∧ v ∈ model_variables e.

(** The model after [from_file] has loaded one constraint of [M]. *)
Definition decode_step (M m : ConstrainedQuadraticModel) (e : Hashable * Comparison)
    : ConstrainedQuadraticModel :=
  mkCQM (objective m) (constraints m ++ [e])
    (registry_after (registrations (lhs e.2)) (variables m))
    (if decide (e.1 ∈ discrete M) then {[e.1]} ∪ discrete m else discrete m)
    (_discrete m).



(* ===================================================================== *)
(** * Properties of the registry *)
(* ===================================================================== *)

Lemma index_in_lookup l v i : index_in l v = Some i → l !! i = Some v.
Proof.
  revert i. induction l as [|x l IH]; intros i; simpl; [done|].
  case_decide as Hx; [intros [= <-]; by subst|].
  destruct (index_in l v) as [j|] eqn:E; simpl; [|done].
  intros [= <-]. simpl. by apply IH.
Qed.

Lemma index_in_is_Some l v : v ∈ l ↔ is_Some (index_in l v).
Proof.
  induction l as [|x l IH]; simpl.
  - split; [by intros ?%elem_of_nil|by intros [? ?]].
  - case_decide as Hx.
    + subst. split; [eauto|]. intros _. by left.
    + rewrite elem_of_cons, IH, fmap_is_Some. tidy_solver.
Qed.

Lemma index_in_None l v : v ∉ l ↔ index_in l v = None.
Proof. rewrite index_in_is_Some, eq_None_not_Some. done. Qed.

Lemma index_in_app_l l v x i : index_in l v = Some i → index_in (l ++ [x]) v = Some i.
Proof.
  revert i. induction l as [|y l IH]; intros i; simpl; [done|].
  case_decide; [done|].
  destruct (index_in l v) as [j|] eqn:E; simpl; [|done].
  intros [= <-]. by rewrite (IH j).
Qed.

Lemma index_in_app_new l v : v ∉ l → index_in (l ++ [v]) v = Some (length l).
Proof.
  induction l as [|y l IH]; simpl; intros Hv.
  - by rewrite decide_True.
  - apply not_elem_of_cons in Hv as [Hne Hv].
    rewrite decide_False by done. by rewrite IH.
Qed.

Lemma count_ne_0 r v : count r v ≠ 0%nat ↔ v ∈ labels r.
Proof. unfold count. case_decide; tidy_solver. Qed.

Lemma vartype_Return_elem r v t : vartype r v = Return t → v ∈ labels r.
Proof.
  unfold vartype, index. intros Hv. apply index_in_is_Some.
  destruct (index_in (labels r) v); [eauto|done].
Qed.

Lemma vartype_wf_elem r v : reg_wf r → v ∈ labels r → ∃ t, vartype r v = Return t.
Proof.
  unfold reg_wf, vartype, index. intros Hwf [i Hi]%index_in_is_Some.
  rewrite Hi. apply index_in_lookup, lookup_lt_Some in Hi.
  destruct (lookup_lt_is_Some_2 (vartypes r) i) as [t Ht]; [lia|].
  rewrite Ht. eauto.
Qed.

Lemma vartype_append_new_old r vt v lb ub u t :
  vartype r u = Return t → vartype (append_new vt v lb ub r) u = Return t.
Proof.
  unfold vartype, index. simpl.
  destruct (index_in (labels r) u) as [i|] eqn:Hi; [|done].
  rewrite (index_in_app_l _ _ _ _ Hi).
  destruct (vartypes r !! i) as [t'|] eqn:Ht; [|done].
  intros [= <-]. by rewrite (lookup_app_l_Some _ _ _ _ Ht).
Qed.

Lemma vartype_append_new_same r vt v lb ub :
  reg_wf r → v ∉ labels r → vartype (append_new vt v lb ub r) v = Return vt.
Proof.
  unfold vartype, index, reg_wf. simpl. intros Hwf Hv.
  rewrite index_in_app_new by done. rewrite Hwf.
  by rewrite list_lookup_middle.
Qed.

(** ** The branches of [_append] *)

Lemma _append_new r vt v lb ub :
  v ∉ labels r → _append vt v lb ub r = (Return v, append_new vt v lb ub r).
Proof.
  intros Hv. unfold _append. rewrite decide_False; [done|].
  by rewrite count_ne_0.
Qed.

Lemma _append_type_conflict r vt v lb ub t :
  vartype r v = Return t → vt ≠ t →
  _append vt v lb ub r = (Raise (TypeError different_vartype), r).
Proof.
  intros Hv Hne. unfold _append.
  rewrite decide_True by (rewrite count_ne_0; eauto using vartype_Return_elem).
  rewrite Hv. by rewrite decide_True.
Qed.

Lemma _append_binary_spin r vt v lb ub :
  vartype r v = Return vt → vt = BINARY ∨ vt = SPIN →
  _append vt v lb ub r = (Return v, r).
Proof.
  intros Hv Hvt. unfold _append.
  rewrite decide_True by (rewrite count_ne_0; eauto using vartype_Return_elem).
  rewrite Hv. rewrite decide_False by tidy_solver.
  rewrite decide_False by tidy_solver. done.
Qed.

Lemma _append_bounded r vt v lb ub :
  vartype r v = Return vt → vt ≠ BINARY → vt ≠ SPIN →
  _append vt v lb ub r =
    (check_lower v lb ;;; check_upper v ub ;;; ret v)%py r.
Proof.
  intros Hv H1 H2. unfold _append.
  rewrite decide_True by (rewrite count_ne_0; eauto using vartype_Return_elem).
  rewrite Hv. rewrite decide_False by tidy_solver.
  by rewrite decide_True.
Qed.

Lemma check_lower_spec v lb r :
  check_lower v lb r =
    (if decide (bound_conflict lb (lower_bounds r !! v))
     then Raise (ValueError different_lower_bound) else Return tt,
     mkTypedVariables (labels r) (vartypes r)
       (fix_bound v lb (lower_bounds r)) (upper_bounds r)).
Proof.
  destruct r as [ls vts lo up].
  cbn [labels vartypes lower_bounds upper_bounds].
  destruct (decide (bound_conflict lb (lo !! v))) as [C|C].
  - destruct C as (b&s&->&Hs&Hne).
    unfold check_lower, bind, setdefault_lower, fix_bound, raise; cbn.
    rewrite Hs. by rewrite decide_True.
  - destruct lb as [b|]; [|done].
    unfold check_lower, bind, setdefault_lower, fix_bound, raise, ret; cbn.
    destruct (lo !! v) as [s|] eqn:E.
    + rewrite decide_False; [done|]. intros N. apply C. by exists b, s.
    + by rewrite decide_False by tidy_solver.
Qed.

Lemma check_upper_spec v ub r :
  check_upper v ub r =
    (if decide (bound_conflict ub (upper_bounds r !! v))
     then Raise (ValueError different_upper_bound) else Return tt,
     mkTypedVariables (labels r) (vartypes r)
       (lower_bounds r) (fix_bound v ub (upper_bounds r))).
Proof.
  destruct r as [ls vts lo up].
  cbn [labels vartypes lower_bounds upper_bounds].
  destruct (decide (bound_conflict ub (up !! v))) as [C|C].
  - destruct C as (b&s&->&Hs&Hne).
    unfold check_upper, bind, setdefault_upper, fix_bound, raise; cbn.
    rewrite Hs. by rewrite decide_True.
  - destruct ub as [b|]; [|done].
    unfold check_upper, bind, setdefault_upper, fix_bound, raise, ret; cbn.
    destruct (up !! v) as [s|] eqn:E.
    + rewrite decide_False; [done|]. intros N. apply C. by exists b, s.
    + by rewrite decide_False by tidy_solver.
Qed.

(** A re-registration of a label of a bounded vartype, in one equation. *)
Lemma _append_bounded_spec r vt v lb ub :
  vartype r v = Return vt → vt ≠ BINARY → vt ≠ SPIN →
  _append vt v lb ub r =
    if decide (bound_conflict lb (lower_bounds r !! v)) then
      (Raise (ValueError different_lower_bound), r)
    else if decide (bound_conflict ub (upper_bounds r !! v)) then
      (Raise (ValueError different_upper_bound),
       mkTypedVariables (labels r) (vartypes r)
         (fix_bound v lb (lower_bounds r)) (upper_bounds r))
    else
      (Return v,
       mkTypedVariables (labels r) (vartypes r)
         (fix_bound v lb (lower_bounds r)) (fix_bound v ub (upper_bounds r))).
Proof.
  intros Hv H1 H2. rewrite _append_bounded by done.
  unfold bind at 1. rewrite check_lower_spec.
  destruct (decide (bound_conflict lb _)) as [C|C].
  - f_equal. destruct r as [ls vts lo up]; simpl in *.
    unfold fix_bound. destruct C as (b&s&->&->&?). done.
  - unfold bind at 1. rewrite check_upper_spec. simpl.
    destruct (decide (bound_conflict ub _)) as [C'|C']; [|done].
    f_equal. f_equal. unfold fix_bound. destruct C' as (b&s&->&->&?). done.
Qed.

(** ** What one registration does to the registry *)

Lemma _append_state r vt v lb ub :
  ((v ∉ labels r) ∧ _append vt v lb ub r = (Return v, append_new vt v lb ub r)) ∨
  (v ∈ labels r ∧
   labels (_append vt v lb ub r).2 = labels r ∧
   vartypes (_append vt v lb ub r).2 = vartypes r ∧
   extends_bounds v lb (lower_bounds r) (lower_bounds (_append vt v lb ub r).2) ∧
   extends_bounds v ub (upper_bounds r) (upper_bounds (_append vt v lb ub r).2)).
Proof.
  destruct (decide (v ∈ labels r)) as [Hin|Hout].
  2:{ left. split; [done|]. by apply _append_new. }
  right. split; [done|].
  destruct (vartype r v) as [t| |] eqn:Hv.
  2,3: unfold _append; rewrite decide_True by (by rewrite count_ne_0);
       rewrite Hv; cbn; unfold extends_bounds; auto.
  destruct (decide (vt = t)) as [->|Hne].
  2:{ rewrite (_append_type_conflict r vt v lb ub t) by done.
      cbn; unfold extends_bounds; auto. }
  destruct (decide (t = BINARY ∨ t = SPIN)) as [Hb|Hb].
  { rewrite _append_binary_spin by done. cbn; unfold extends_bounds; auto. }
  rewrite _append_bounded_spec by tidy_solver.
  repeat case_decide; cbn; unfold extends_bounds; auto.
Qed.

Lemma fix_bound_lookup_other v supplied d u :
  u ≠ v → fix_bound v supplied d !! u = d !! u.
Proof.
  intros Hne. unfold fix_bound.
  destruct supplied, (d !! v); try done. by rewrite lookup_insert_ne.
Qed.

Lemma fix_bound_lookup_fixed v supplied d u s :
  d !! u = Some s → fix_bound v supplied d !! u = Some s.
Proof.
  intros Hs. unfold fix_bound.
  destruct supplied as [b|]; [|done].
  destruct (d !! v) eqn:E; [done|].
  rewrite lookup_insert_ne; [done|]. intros ->. congruence.
Qed.

Lemma _append_wf r vt v lb ub : reg_wf r → reg_wf (_append vt v lb ub r).2.
Proof.
  intros Hwf. destruct (_append_state r vt v lb ub) as [[_ ->]|(_&Hl&Ht&_)].
  - unfold reg_wf, append_new in *. cbn. rewrite !length_app. cbn. lia.
  - unfold reg_wf in *. by rewrite Hl, Ht.
Qed.

Lemma _append_vartype_kept r vt v lb ub u t :
  vartype r u = Return t → vartype (_append vt v lb ub r).2 u = Return t.
Proof.
  intros Hu. destruct (_append_state r vt v lb ub) as [[_ ->]|(_&Hl&Ht&_)].
  - by apply vartype_append_new_old.
  - unfold vartype, index in *. by rewrite Hl, Ht.
Qed.

Lemma _append_bounds_registered r vt v lb ub :
  bounds_registered r → bounds_registered (_append vt v lb ub r).2.
Proof.
  intros Hb u.
  destruct (_append_state r vt v lb ub) as [[_ ->]|(Hin&Hl&_&Hlo&Hup)].
  - unfold append_new; cbn. intros Hu. rewrite elem_of_app, list_elem_of_singleton.
    destruct (decide (u = v)) as [->|Hne]; [by right|left].
    apply Hb. destruct Hu as [Hu|Hu]; [left|right].
    + destruct lb; [by rewrite lookup_insert_ne in Hu|done].
    + destruct ub; [by rewrite lookup_insert_ne in Hu|done].
  - rewrite Hl. intros Hu.
    destruct (decide (u = v)) as [->|Hne]; [done|].
    apply Hb. destruct Hu as [Hu|Hu]; [left|right].
    + destruct Hlo as [E|E]; rewrite E in Hu; [done|].
      by rewrite fix_bound_lookup_other in Hu.
    + destruct Hup as [E|E]; rewrite E in Hu; [done|].
      by rewrite fix_bound_lookup_other in Hu.
Qed.

Lemma _append_lower_kept r vt v lb ub u s :
  bounds_registered r →
  lower_bounds r !! u = Some s → lower_bounds (_append vt v lb ub r).2 !! u = Some s.
Proof.
  intros Hb Hu.
  destruct (_append_state r vt v lb ub) as [[Hv ->]|(_&_&_&[->| ->]&_)]; try done.
  - cbn. destruct lb; [|done]. rewrite lookup_insert_ne; [done|].
    intros <-. apply Hv, Hb. left. eauto.
  - by apply fix_bound_lookup_fixed.
Qed.

Lemma _append_upper_kept r vt v lb ub u s :
  bounds_registered r →
  upper_bounds r !! u = Some s → upper_bounds (_append vt v lb ub r).2 !! u = Some s.
Proof.
  intros Hb Hu.
  destruct (_append_state r vt v lb ub) as [[Hv ->]|(_&_&_&_&[->| ->])]; try done.
  - cbn. destruct ub; [|done]. rewrite lookup_insert_ne; [done|].
    intros <-. apply Hv, Hb. right. eauto.
  - by apply fix_bound_lookup_fixed.
Qed.

Lemma _append_labels_prefix r vt v lb ub :
  labels r `prefix_of` labels (_append vt v lb ub r).2.
Proof.
  destruct (_append_state r vt v lb ub) as [[_ ->]|(_&->&_)]; [|done].
  cbn. by apply prefix_app_r.
Qed.

Lemma registry_ok_init : registry_ok TypedVariables_init.
Proof.
  split; [done|]. intros u [[? Hu]|[? Hu]]; cbn in Hu; by rewrite lookup_empty in Hu.
Qed.

Lemma _append_ok r vt v lb ub : registry_ok r → registry_ok (_append vt v lb ub r).2.
Proof.
  intros [? ?]. split; [by apply _append_wf|by apply _append_bounds_registered].
Qed.

Lemma register_ok c r : registry_ok r → registry_ok (register c r).2.
Proof. destruct c as [[[vt v] lb] ub]. apply _append_ok. Qed.

Lemma registry_after_ok cs r : registry_ok r → registry_ok (registry_after cs r).
Proof.
  revert r. induction cs as [|c cs IH]; intros r Hr; [done|].
  cbn. apply IH. by apply register_ok.
Qed.

Lemma registry_after_vartype_kept cs r u t :
  vartype r u = Return t → vartype (registry_after cs r) u = Return t.
Proof.
  revert r. induction cs as [|[[[vt v] lb] ub] cs IH]; intros r Hr; [done|].
  cbn. apply IH. by apply _append_vartype_kept.
Qed.

Lemma registry_after_labels_prefix cs r :
  labels r `prefix_of` labels (registry_after cs r).
Proof.
  revert r. induction cs as [|[[[vt v] lb] ub] cs IH]; intros r; [done|].
  cbn. etrans; [|apply IH]. apply _append_labels_prefix.
Qed.

Lemma registry_after_lower_kept cs r u b :
  registry_ok r → lower_bounds r !! u = Some b →
  lower_bounds (registry_after cs r) !! u = Some b.
Proof.
  revert r. induction cs as [|[[[vt v] lb] ub] cs IH]; intros r Hok Hb; [done|].
  cbn. apply IH; [by apply _append_ok|].
  apply _append_lower_kept; [apply Hok|done].
Qed.

Lemma registry_after_upper_kept cs r u b :
  registry_ok r → upper_bounds r !! u = Some b →
  upper_bounds (registry_after cs r) !! u = Some b.
Proof.
  revert r. induction cs as [|[[[vt v] lb] ub] cs IH]; intros r Hok Hb; [done|].
  cbn. apply IH; [by apply _append_ok|].
  apply _append_upper_kept; [apply Hok|done].
Qed.

Lemma registry_after_app cs1 cs2 r :
  registry_after (cs1 ++ cs2) r = registry_after cs2 (registry_after cs1 r).
Proof. unfold registry_after. by rewrite foldl_app. Qed.

(** After a registration that returned, the label has the vartype given. *)
Lemma _append_Return_vartype r vt v lb ub l :
  reg_wf r → (_append vt v lb ub r).1 = Return l →
  l = v ∧ vartype (_append vt v lb ub r).2 v = Return vt.
Proof.
  intros Hwf. destruct (decide (v ∈ labels r)) as [Hin|Hout].
  - destruct (vartype_wf_elem r v Hwf Hin) as [t Ht].
    destruct (decide (vt = t)) as [->|Hne].
    2:{ by rewrite (_append_type_conflict r vt v lb ub t). }
    intros Hret. split.
    + destruct (decide (t = BINARY ∨ t = SPIN)) as [Hb|Hb].
      * rewrite _append_binary_spin in Hret by done. by injection Hret.
      * rewrite _append_bounded_spec in Hret by tidy_solver.
        repeat case_decide; cbn in Hret; congruence.
    + by apply _append_vartype_kept.
  - rewrite _append_new by done. cbn. intros [= <-]. split; [done|].
    by apply vartype_append_new_same.
Qed.

(* ===================================================================== *)
(** * Properties of the facade *)
(* ===================================================================== *)

Lemma _add_variables_from_registry model self :
  _add_variables_from model self =
    on_variables (register_all (registrations model)) self.
Proof.
  unfold _add_variables_from, register_all.
  generalize (registrations model) as cs. intros cs. revert self.
  induction cs as [|[[[vt v] lb] ub] cs IH]; intros self.
  - unfold on_variables, ret. cbn. by destruct self.
  - cbn [for_each]. unfold bind at 1 2. unfold on_variables at 1.
    unfold on_variables at 2. cbn [for_each]. unfold bind at 2 3. cbn [register].
    destruct (_append vt v lb ub (variables self)) as [[l| |] r]; cbn; [|done..].
    apply IH.
Qed.

Lemma register_all_nil r : register_all [] r = (Return tt, r).
Proof. done. Qed.

Lemma register_all_cons c cs r :
  register_all (c :: cs) r =
    match register c r with
    | (Return _, r') => register_all cs r'
    | (Raise e, r') => (Raise e, r')
    | (OutOfDraws, r') => (OutOfDraws, r')
    end.
Proof.
  unfold register_all. cbn [for_each]. unfold bind at 1 2.
  by destruct (register c r) as [[l| |] r'].
Qed.

(** The registry after the loop is the registry after the registrations
    up to and including the first one that raised. *)
Lemma register_all_state cs r :
  ∃ k, (register_all cs r).2 = registry_after (take k cs) r.
Proof.
  revert r. induction cs as [|c cs IH]; intros r.
  - by exists 0%nat.
  - rewrite register_all_cons.
    destruct (register c r) as [[l| |] r'] eqn:E.
    + destruct (IH r') as [k Hk]. exists (S k). cbn. by rewrite E.
    + exists 1%nat. cbn. by rewrite E.
    + exists 1%nat. cbn. by rewrite E.
Qed.

Lemma register_all_Return cs r r' :
  register_all cs r = (Return tt, r') → r' = registry_after cs r.
Proof.
  revert r. induction cs as [|c cs IH]; intros r.
  - by intros [= <-].
  - rewrite register_all_cons. cbn.
    destruct (register c r) as [[l| |] r1] eqn:E; [|done..].
    intros Hr. by apply IH.
Qed.

(** ** The methods in one equation each *)

Lemma add_constraint_from_model_spec qm sense rhs label copy draws self :
  add_constraint_from_model qm sense rhs label copy draws self =
    match as_Sense sense with
    | Return s =>
        match choose_label label draws (constraints self) with
        | Return l =>
            match register_all (registrations qm) (variables self) with
            | (Return _, r) =>
                (Return l,
                 mkCQM (objective self)
                   (dict_set (constraints self) l (mkComparison qm s rhs))
                   r (discrete self) (_discrete self))
            | (Raise e, r) => (Raise e, set_variables r self)
            | (OutOfDraws, r) => (OutOfDraws, set_variables r self)
            end
        | Raise e => (Raise e, self)
        | OutOfDraws => (OutOfDraws, self)
        end
    | Raise e => (Raise e, self)
    | OutOfDraws => (OutOfDraws, self)
    end.
Proof.
  unfold add_constraint_from_model. unfold bind at 1. unfold lift_outcome at 1.
  destruct (as_Sense sense) as [s| |]; [|done..].
  unfold bind at 1. unfold get at 1. unfold bind at 1. unfold lift_outcome at 1.
  destruct (choose_label label draws (constraints self)) as [l| |]; [|done..].
  unfold bind at 1. rewrite _add_variables_from_registry. unfold on_variables.
  destruct (register_all (registrations qm) (variables self)) as [[[]| |] r]; done.
Qed.

Lemma add_variable_spec v vt self :
  add_variable v vt self =
    if decide (v ∈ labels (variables self)) then
      match vartype (variables self) v with
      | Return stored =>
          if decide (vt ≠ stored)
          then (Raise (ValueError added_different_vartype), self)
          else (Return None, self)
      | Raise e => (Raise e, self)
      | OutOfDraws => (OutOfDraws, self)
      end
    else (Return (Some v), set_variables (append_new vt v None None (variables self)) self).
Proof.
  unfold add_variable. unfold bind at 1. unfold get at 1.
  destruct (decide (v ∈ labels (variables self))) as [Hin|Hout].
  - rewrite decide_True by (by rewrite count_ne_0).
    unfold bind, cqm_vartype.
    destruct (vartype (variables self) v) as [t| |]; [|done..].
    by case_decide.
  - rewrite decide_False by (by rewrite count_ne_0).
    unfold bind, on_variables. by rewrite _append_new.
Qed.

Lemma set_objective_spec obj self :
  set_objective obj self =
    match register_all (registrations obj) (variables self) with
    | (Return _, r) =>
        (Return tt, mkCQM obj (constraints self) r (discrete self) (_discrete self))
    | (Raise e, r) => (Raise e, set_variables r self)
    | (OutOfDraws, r) => (OutOfDraws, set_variables r self)
    end.
Proof.
  unfold set_objective. unfold bind at 1. rewrite _add_variables_from_registry.
  unfold on_variables.
  destruct (register_all (registrations obj) (variables self)) as [[[]| |] r]; done.
Qed.

(** ** [add_discrete] *)

Lemma check_discrete_state v self : (check_discrete v self).2 = self.
Proof.
  unfold check_discrete, bind, get, cqm_vartype, raise, ret.
  repeat (case_decide || destruct (vartype _ _)); done.
Qed.

Lemma check_discrete_Return v self :
  (check_discrete v self).1 = Return tt ↔ discrete_ok self v.
Proof.
  unfold check_discrete, bind, get, cqm_vartype, raise, ret, discrete_ok.
  destruct (decide (v ∈ _discrete self)) as [Hd|Hd]; cbn; [tidy_solver|].
  destruct (decide (v ∈ labels (variables self))) as [Hl|Hl]; cbn; [|tidy_solver].
  destruct (vartype (variables self) v) as [t| |]; cbn; [|tidy_solver..].
  case_decide; cbn; tidy_solver.
Qed.

Lemma check_discrete_not_pending v self : (check_discrete v self).1 ≠ OutOfDraws.
Proof.
  unfold check_discrete, bind, get, cqm_vartype, raise, ret.
  destruct (decide (v ∈ _discrete self)); cbn; [done|].
  destruct (decide (v ∈ labels (variables self))) as [Hl|Hl]; cbn; [|done].
  unfold vartype. destruct (index _ _); [|done].
  destruct (_ !! _); [|done]. by case_decide.
Qed.

Lemma for_each_check_discrete vs self :
  (for_each vs check_discrete self).2 = self ∧
  ((for_each vs check_discrete self).1 = Return tt ↔ Forall (discrete_ok self) vs) ∧
  (for_each vs check_discrete self).1 ≠ OutOfDraws.
Proof.
  induction vs as [|v vs IH]; cbn.
  - split; [done|]. split; [|done]. split; [by constructor|done].
  - unfold bind.
    pose proof (check_discrete_state v self) as Hs.
    pose proof (check_discrete_Return v self) as Hr.
    pose proof (check_discrete_not_pending v self) as Hp.
    destruct (check_discrete v self) as [[[]| |] m']; cbn in *; subst m'.
    + destruct IH as (?&IH&?). split; [done|]. split; [|done].
      rewrite IH, Forall_cons. tidy_solver.
    + split; [done|]. split; [|done].
      rewrite Forall_cons. split; [done|]. intros [Hv _]. by apply Hr in Hv.
    + done.
Qed.

Lemma add_discrete_spec vs label draws self :
  add_discrete vs label draws self =
    match label with
    | Some l =>
        if decide (l ∈ (constraints self).*1)
        then (Raise (ValueError label_exists), self)
        else add_discrete_body vs label draws self
    | None => add_discrete_body vs label draws self
    end.
Proof.
  unfold add_discrete, add_discrete_body. unfold bind at 1. unfold get at 1.
  destruct (for_each_check_discrete vs self) as (Hs&_&_).
  destruct label as [l|].
  - unfold bind at 1. case_decide; [done|]. unfold ret at 1.
    unfold bind at 1. destruct (for_each vs check_discrete self) as [[[]| |] m'];
      cbn in Hs; subst m'; cbn; [|done..].
    reflexivity.
  - unfold bind at 1. unfold ret at 1.
    unfold bind at 1. destruct (for_each vs check_discrete self) as [[[]| |] m'];
      cbn in Hs; subst m'; cbn; [|done..].
    reflexivity.
Qed.

(** The variables of the one-hot model are those given, each once. *)
Lemma add_linear_keys linear v bias :
  (add_linear linear v bias).*1 =
    if decide (v ∈ linear.*1) then linear.*1 else linear.*1 ++ [v].
Proof.
  induction linear as [|[u b] linear IH]; cbn.
  - rewrite decide_False; [done|]. apply not_elem_of_nil.
  - destruct (decide (u = v)) as [->|Hne]; cbn.
    + rewrite decide_True; [done|]. by left.
    + rewrite IH. destruct (decide (v ∈ linear.*1)) as [Hin|Hout].
      * rewrite decide_True; [done|]. by right.
      * rewrite decide_False; [done|]. rewrite elem_of_cons. tidy_solver.
Qed.

Lemma one_hot_keys_from acc vs :
  NoDup acc.*1 →
  NoDup (foldl (λ linear v, add_linear linear v bias_one) acc vs).*1 ∧
  ∀ u, u ∈ (foldl (λ linear v, add_linear linear v bias_one) acc vs).*1
       ↔ u ∈ acc.*1 ∨ u ∈ vs.
Proof.
  revert acc. induction vs as [|v vs IH]; intros acc Hacc; cbn.
  - split; [done|]. intros u. rewrite elem_of_nil. tidy_solver.
  - destruct (IH (add_linear acc v bias_one)) as [Hnd Hel].
    + rewrite add_linear_keys. case_decide; [done|].
      apply NoDup_app. split; [done|]. split; [|apply NoDup_singleton].
      intros x Hx ->%list_elem_of_singleton. done.
    + split; [done|]. intros u. rewrite Hel, add_linear_keys, elem_of_cons.
      case_decide; [tidy_solver|].
      rewrite elem_of_app, list_elem_of_singleton. tidy_solver.
Qed.

Lemma one_hot_variables vs :
  NoDup (model_variables (BQM (one_hot vs))) ∧
  ∀ u, u ∈ model_variables (BQM (one_hot vs)) ↔ u ∈ vs.
Proof.
  cbn. destruct (one_hot_keys_from [] vs) as [Hnd Hel]; [constructor|].
  split; [done|]. intros u. rewrite Hel. cbn. rewrite elem_of_nil. tidy_solver.
Qed.

(** Registering labels that are each new or already [BINARY] succeeds. *)
Lemma register_all_binary ks r :
  NoDup ks →
  (∀ v, v ∈ ks → v ∈ labels r → vartype r v = Return BINARY) →
  (register_all ((λ v, (BINARY, v, None, None)) <$> ks) r).1 = Return tt.
Proof.
  revert r. induction ks as [|v ks IH]; intros r Hnd Hok; [done|].
  apply NoDup_cons in Hnd as [Hv Hnd].
  cbn [fmap list_fmap]. rewrite register_all_cons. cbn [register].
  destruct (decide (v ∈ labels r)) as [Hin|Hout].
  - rewrite _append_binary_spin; [|apply Hok; [by left|done]|by left].
    apply IH; [done|]. intros u Hu. apply Hok. by right.
  - rewrite _append_new by done. apply IH; [done|].
    intros u Hu Hin. apply vartype_append_new_old.
    cbn in Hin. apply elem_of_app in Hin as [Hin|Hin%list_elem_of_singleton].
    + apply Hok; [by right|done].
    + subst. done.
Qed.

(** ** Dictionaries *)

Lemma dict_set_fresh {V} (d : list (Hashable * V)) k x :
  k ∉ d.*1 → dict_set d k x = d ++ [(k, x)].
Proof.
  induction d as [|[k' y] d IH]; cbn; [done|].
  intros [Hne Hk]%not_elem_of_cons.
  rewrite decide_False by done. by rewrite IH.
Qed.

Lemma dict_get_None {V} (d : list (Hashable * V)) k :
  dict_get d k = None ↔ k ∉ d.*1.
Proof.
  induction d as [|[k' y] d IH]; cbn.
  - split; [intros _; apply not_elem_of_nil|done].
  - rewrite not_elem_of_cons. case_decide; tidy_solver.
Qed.

Lemma dict_get_Some_elem {V} (d : list (Hashable * V)) k x :
  dict_get d k = Some x → (k, x) ∈ d.
Proof.
  induction d as [|[k' y] d IH]; cbn; [done|].
  case_decide; [intros [= ->]; subst; by left|].
  intros. right. by apply IH.
Qed.

Lemma dict_get_elem {V} (d : list (Hashable * V)) k x :
  NoDup d.*1 → (k, x) ∈ d → dict_get d k = Some x.
Proof.
  induction d as [|[k' y] d IH]; cbn.
  - by intros _ ?%elem_of_nil.
  - intros [Hk Hnd]%NoDup_cons [[= -> ->]|Hin]%elem_of_cons.
    + by rewrite decide_True.
    + rewrite decide_False; [by apply IH|].
      intros ->. apply Hk. apply list_elem_of_fmap. by exists (k, x).
Qed.

Lemma dict_get_app_fresh {V} (d : list (Hashable * V)) k x k' :
  k ∉ d.*1 →
  dict_get (d ++ [(k, x)]) k' = if decide (k' = k) then Some x else dict_get d k'.
Proof.
  induction d as [|[k0 y] d IH]; cbn.
  - intros _. destruct (decide (k = k')), (decide (k' = k)); tidy_solver.
  - intros [Hne Hk]%not_elem_of_cons. rewrite IH by done.
    destruct (decide (k0 = k')), (decide (k' = k)); tidy_solver.
Qed.

(** ** Labels *)

Lemma fresh_label_Return draws cs l :
  fresh_label draws cs = Return l → (l ∉ cs.*1) ∧ ∃ d, d ∈ draws ∧ l = HStr d.
Proof.
  induction draws as [|d draws IH]; cbn; [done|].
  case_decide as Hd.
  - intros [? (d'&?&?)]%IH. split; [done|]. exists d'. split; [by right|done].
  - intros [= <-]. split; [done|]. exists d. split; [by left|done].
Qed.

Lemma fresh_label_not_Raise draws cs e : fresh_label draws cs ≠ Raise e.
Proof. induction draws as [|d draws IH]; cbn; [done|]. by case_decide. Qed.

(** The loop ends as soon as one draw is no label of the model. *)
Lemma fresh_label_terminates draws cs d :
  d ∈ draws → HStr d ∉ cs.*1 → ∃ l, fresh_label draws cs = Return l.
Proof.
  induction draws as [|d' draws IH]; cbn; [by intros ?%elem_of_nil|].
  intros [->|Hin]%elem_of_cons Hd.
  - rewrite decide_False by done. eauto.
  - case_decide; [by apply IH|eauto].
Qed.

Lemma choose_label_Return label draws cs l :
  choose_label label draws cs = Return l → l ∉ cs.*1.
Proof.
  destruct label as [l'|]; cbn.
  - case_decide; [done|]. by intros [= <-].
  - by intros [? _]%fresh_label_Return.
Qed.

Lemma choose_label_Raise label draws cs e :
  choose_label label draws cs = Raise e →
  e = ValueError label_exists ∧ ∃ l, label = Some l ∧ l ∈ cs.*1.
Proof.
  destruct label as [l'|]; cbn.
  - case_decide; [|done]. intros [= <-]. eauto.
  - by intros ?%fresh_label_not_Raise.
Qed.

(** ** Errors of the registry *)

Lemma vartype_not_pending r v : vartype r v ≠ OutOfDraws.
Proof. unfold vartype. destruct (index r v); [|done]. by destruct (_ !! _). Qed.

Lemma _append_outcome r vt v lb ub :
  reg_wf r →
  (_append vt v lb ub r).1 = Return v ∨
  ∃ e, (_append vt v lb ub r).1 = Raise e ∧ registry_error e.
Proof.
  intros Hwf. unfold registry_error.
  destruct (decide (v ∈ labels r)) as [Hin|Hout].
  2:{ rewrite _append_new by done. by left. }
  destruct (vartype_wf_elem r v Hwf Hin) as [t Ht].
  destruct (decide (vt = t)) as [->|Hne].
  2:{ rewrite (_append_type_conflict r vt v lb ub t) by done. right. eauto. }
  destruct (decide (t = BINARY ∨ t = SPIN)) as [Hb|Hb].
  { rewrite _append_binary_spin by done. by left. }
  rewrite _append_bounded_spec by tidy_solver.
  repeat case_decide; cbn; eauto 6.
Qed.

Lemma register_all_outcome cs r :
  reg_wf r →
  (register_all cs r).1 = Return tt ∨
  ∃ e, (register_all cs r).1 = Raise e ∧ registry_error e.
Proof.
  revert r. induction cs as [|[[[vt v] lb] ub] cs IH]; intros r Hwf; [by left|].
  rewrite register_all_cons. cbn [register].
  pose proof (_append_outcome r vt v lb ub Hwf) as Ho.
  pose proof (_append_wf r vt v lb ub Hwf) as Hwf'.
  destruct (_append vt v lb ub r) as [[l| |] r']; cbn in *.
  - by apply IH.
  - destruct Ho as [?|(e'&[= <-]&?)]; [done|]. right. eauto.
  - destruct Ho as [?|(e'&?&?)]; done.
Qed.

(** ** The four ways a call changes the model *)

Lemma set_variables_same m : set_variables (variables m) m = m.
Proof. by destruct m. Qed.

Lemma tr_same m : transition m m.
Proof.
  rewrite <- (set_variables_same m) at 2. apply (tr_registry m []).
Qed.

Lemma tr_register_all m cs :
  transition m (set_variables (register_all cs (variables m)).2 m).
Proof.
  destruct (register_all_state cs (variables m)) as [k ->]. apply tr_registry.
Qed.

Lemma add_constraint_from_model_transition qm sense rhs label copy draws m :
  transition m (add_constraint_from_model qm sense rhs label copy draws m).2.
Proof.
  rewrite add_constraint_from_model_spec.
  destruct (as_Sense sense) as [s| |]; cbn; try apply tr_same.
  destruct (choose_label label draws (constraints m)) as [l| |] eqn:Hl;
    cbn; try apply tr_same.
  apply choose_label_Return in Hl.
  pose proof (tr_register_all m (registrations qm)) as Htr.
  destruct (register_all (registrations qm) (variables m)) as [[[]| |] r] eqn:Hr;
    cbn in *; try done.
  rewrite dict_set_fresh by done.
  by apply (tr_constraint m l (mkComparison qm s rhs) r).
Qed.

Lemma add_discrete_body_transition vs label draws m :
  transition m (add_discrete_body vs label draws m).2.
Proof.
  unfold add_discrete_body. rewrite add_constraint_from_model_spec.
  cbn [as_Sense].
  destruct (for_each_check_discrete vs m) as (_&Hok&_).
  destruct ((for_each vs check_discrete m).1) as [[]| |]; cbn [snd];
    try apply tr_same.
  apply proj1 in Hok. specialize (Hok eq_refl).
  destruct (choose_label label draws (constraints m)) as [l| |] eqn:Hl;
    cbn [snd]; try apply tr_same.
  apply choose_label_Return in Hl.
  pose proof (tr_register_all m (registrations (BQM (one_hot vs)))) as Htr.
  destruct (register_all (registrations (BQM (one_hot vs))) (variables m))
    as [[[]| |] r] eqn:Hr; cbn [snd objective constraints variables discrete _discrete] in *;
    try done.
  rewrite dict_set_fresh by done.
  by apply (tr_discrete m l vs r).
Qed.

Lemma add_discrete_transition vs label draws m :
  transition m (add_discrete vs label draws m).2.
Proof.
  rewrite add_discrete_spec.
  destruct label as [l|]; [|apply add_discrete_body_transition].
  case_decide; [apply tr_same|apply add_discrete_body_transition].
Qed.

Lemma after_transition c m : transition m (after c m).
Proof.
  destruct c as [obj|qm sn rh lbl cp dr|comp lbl cp dr|vs lbl dr|v vt]; cbn [after].
  - rewrite set_objective_spec.
    pose proof (tr_register_all m (registrations obj)) as Htr.
    destruct (register_all (registrations obj) (variables m)) as [[[]| |] r] eqn:Hr;
      cbn in *; try done.
    by apply tr_objective.
  - apply add_constraint_from_model_transition.
  - apply add_constraint_from_model_transition.
  - apply add_discrete_transition.
  - rewrite add_variable_spec. case_decide.
    + destruct (vartype (variables m) v) as [t| |]; try apply tr_same.
      case_decide; apply tr_same.
    + cbn [snd].
      replace (append_new vt v None None (variables m))
        with (registry_after [(vt, v, None, None)] (variables m)).
      * apply tr_registry.
      * cbn. by rewrite _append_new.
Qed.

(** ** Invariants of the models built through the facade *)

Lemma transition_variables m m' :
  transition m m' → ∃ regs, variables m' = registry_after regs (variables m).
Proof.
  intros [regs|obj r Hr|l c r _ Hr|l vs r _ _ Hr]; cbn.
  - by exists regs.
  - exists (registrations obj). by apply register_all_Return.
  - exists (registrations (lhs c)). by apply register_all_Return.
  - exists (registrations (BQM (one_hot vs))). by apply register_all_Return.
Qed.

Lemma transition_registry_ok m m' :
  transition m m' → registry_ok (variables m) → registry_ok (variables m').
Proof.
  intros [regs ->]%transition_variables. apply registry_after_ok.
Qed.

Lemma reachable_transition_ind (P : ConstrainedQuadraticModel → Prop) :
  P CQM → (∀ m m', P m → transition m m' → P m') → ∀ m, reachable m → P m.
Proof.
  intros H0 Hstep m Hm. induction Hm as [|c m _ IH]; [done|].
  apply (Hstep m); [done|apply after_transition].
Qed.

Lemma model_after_reachable calls m : reachable m → reachable (model_after calls m).
Proof.
  revert m. induction calls as [|c calls IH]; intros m Hm; [done|].
  cbn. apply IH. by constructor.
Qed.

Lemma reachable_registry_ok m : reachable m → registry_ok (variables m).
Proof.
  revert m. apply (reachable_transition_ind (λ m, registry_ok (variables m)));
    [apply registry_ok_init|].
  intros ? ? ? ?. by eapply transition_registry_ok.
Qed.

(** Labels are never reused. *)
Lemma transition_labels_NoDup m m' :
  transition m m' → NoDup (constraints m).*1 → NoDup (constraints m').*1.
Proof.
  intros [regs|obj r Hr|l c r Hl Hr|l vs r Hl _ Hr]; cbn; try done.
  - intros Hnd. rewrite fmap_app. apply NoDup_app. cbn.
    split; [done|]. split; [|apply NoDup_singleton].
    by intros x Hx ->%list_elem_of_singleton.
  - intros Hnd. rewrite fmap_app. apply NoDup_app. cbn.
    split; [done|]. split; [|apply NoDup_singleton].
    by intros x Hx ->%list_elem_of_singleton.
Qed.

Lemma reachable_labels_NoDup m : reachable m → NoDup (constraints m).*1.
Proof.
  revert m. apply (reachable_transition_ind (λ m, NoDup (constraints m).*1));
    [constructor|].
  intros ? ? ? ?. by eapply transition_labels_NoDup.
Qed.

(** ** Discrete groups *)

Lemma group_Some m l g :
  group m l = Some g ↔
  l ∈ discrete m ∧ ∃ c, dict_get (constraints m) l = Some c ∧ g = model_variables (lhs c).
Proof.
  unfold group. case_decide; [|tidy_solver].
  destruct (dict_get (constraints m) l) as [c|]; cbn; tidy_solver.
Qed.

Lemma transition_discrete_inv m m' :
  transition m m' → discrete_inv m → discrete_inv m'.
Proof.
  intros Htr [Hcl Hdj].
  assert (Hkeys : ∀ l, l ∈ discrete m → l ∈ (constraints m).*1).
  { intros l (c&Hc&_)%Hcl. apply dict_get_Some_elem in Hc.
    apply list_elem_of_fmap. by exists (l, c). }
  destruct Htr as [regs|obj r Hr|l c r Hl Hr|l vs r Hl Hok Hr]; try done.
  - (* a constraint that is no discrete group *)
    assert (Hget : ∀ l', l' ∈ discrete m →
              dict_get (constraints m ++ [(l, c)]) l' = dict_get (constraints m) l').
    { intros l' Hl'. rewrite dict_get_app_fresh by done.
      rewrite decide_False; [done|]. intros ->. by apply Hl, Hkeys. }
    split.
    + intros l' Hl'. cbn in *. rewrite Hget by done. by apply Hcl.
    + intros l1 l2 g1 g2 v. rewrite !group_Some. cbn.
      intros (H1&c1&Hc1&->) (H2&c2&Hc2&->).
      rewrite Hget in Hc1, Hc2 by done.
      apply (Hdj l1 l2); apply group_Some; eauto.
  - (* a new discrete group *)
    set (c := mkComparison (BQM (one_hot vs)) Eq bias_one).
    assert (Hget : ∀ l', l' ∈ discrete m →
              dict_get (constraints m ++ [(l, c)]) l' = dict_get (constraints m) l').
    { intros l' Hl'. rewrite dict_get_app_fresh by done.
      rewrite decide_False; [done|]. intros ->. by apply Hl, Hkeys. }
    assert (Hnew : dict_get (constraints m ++ [(l, c)]) l = Some c).
    { rewrite dict_get_app_fresh by done. by rewrite decide_True. }
    assert (Hvs : ∀ v, v ∈ model_variables (lhs c) ↔ v ∈ vs).
    { apply one_hot_variables. }
    split.
    + intros l'. cbn [discrete constraints _discrete].
      rewrite elem_of_union, elem_of_singleton. intros [->|Hl'].
      * exists c. split; [done|]. intros v Hv%Hvs. tidy_set_solver.
      * rewrite Hget by done. destruct (Hcl l' Hl') as (c'&?&?).
        exists c'. split; [done|]. tidy_set_solver.
    + intros l1 l2 g1 g2 v. rewrite !group_Some.
      cbn [discrete constraints _discrete].
      rewrite !elem_of_union, !elem_of_singleton.
      intros (H1&c1&Hc1&->) (H2&c2&Hc2&->) Hv1 Hv2.
      assert (Hfresh : ∀ l' c', l' ∈ discrete m →
                dict_get (constraints m) l' = Some c' →
                v ∈ model_variables (lhs c') → v ∈ vs → False).
      { intros l' c' Hl' Hc' Hv' Hvin.
        destruct (Hcl l' Hl') as (c''&Hc''&Hsub).
        assert (c'' = c') as -> by congruence.
        rewrite Forall_forall in Hok. by apply (Hok v Hvin), Hsub. }
      destruct (decide (l1 = l)) as [->|N1], (decide (l2 = l)) as [->|N2]; [done|..].
      * exfalso. destruct H2 as [?|H2]; [done|].
        rewrite Hnew in Hc1. injection Hc1 as <-.
        rewrite Hget in Hc2 by done. apply Hvs in Hv1. eauto.
      * exfalso. destruct H1 as [?|H1]; [done|].
        rewrite Hnew in Hc2. injection Hc2 as <-.
        rewrite Hget in Hc1 by done. apply Hvs in Hv2. eauto.
      * destruct H1 as [?|H1]; [done|]. destruct H2 as [?|H2]; [done|].
        rewrite Hget in Hc1, Hc2 by done.
        apply (Hdj l1 l2 (model_variables (lhs c1)) (model_variables (lhs c2)) v);
          try apply group_Some; eauto.
Qed.

Lemma discrete_inv_init : discrete_inv CQM.
Proof.
  split.
  - intros l Hl. cbn in Hl. tidy_set_solver.
  - intros l1 l2 g1 g2 v [Hl _]%group_Some. cbn in Hl. tidy_set_solver.
Qed.

Lemma reachable_discrete_inv m : reachable m → discrete_inv m.
Proof.
  revert m. apply (reachable_transition_ind discrete_inv);
    [apply discrete_inv_init|].
  intros ? ? ? ?. by eapply transition_discrete_inv.
Qed.

Lemma model_after_variables calls m :
  ∃ regs, variables (model_after calls m) = registry_after regs (variables m).
Proof.
  revert m. induction calls as [|c calls IH]; intros m.
  - by exists [].
  - destruct (IH (after c m)) as [regs2 H2].
    destruct (transition_variables m (after c m) (after_transition c m)) as [regs1 H1].
    exists (regs1 ++ regs2). rewrite registry_after_app, <- H1. exact H2.
Qed.

Lemma check_discrete_Raise v m e :
  reg_wf (variables m) →
  (check_discrete v m).1 = Raise e →
  e = ValueError used_in_discrete ∨ e = ValueError not_binary.
Proof.
  intros Hwf. unfold check_discrete, bind, get, cqm_vartype, raise, ret.
  destruct (decide (v ∈ _discrete m)); cbn; [intros [= <-]; by left|].
  destruct (decide (v ∈ labels (variables m))) as [Hl|Hl]; cbn; [|done].
  destruct (vartype_wf_elem _ v Hwf Hl) as [t ->].
  case_decide; cbn; [intros [= <-]; by right|done].
Qed.

Lemma for_each_check_discrete_Raise vs m e :
  reg_wf (variables m) →
  (for_each vs check_discrete m).1 = Raise e →
  e = ValueError used_in_discrete ∨ e = ValueError not_binary.
Proof.
  intros Hwf. induction vs as [|v vs IH]; cbn; [done|].
  unfold bind.
  pose proof (check_discrete_state v m) as Hs.
  pose proof (check_discrete_Raise v m) as Hr.
  destruct (check_discrete v m) as [[[]| |] m']; cbn in *; subst m'.
  - done.
  - intros [= <-]. by apply Hr.
  - done.
Qed.

(** Once its validation loop has passed, [add_discrete] does not raise. *)
Lemma add_discrete_body_Raise vs label draws m e m' :
  add_discrete_body vs label draws m = (Raise e, m') →
  m' = m ∧
  ((for_each vs check_discrete m).1 = Raise e ∨
   e = ValueError label_exists ∧ ∃ l, label = Some l ∧ l ∈ (constraints m).*1).
Proof.
  unfold add_discrete_body. rewrite add_constraint_from_model_spec. cbn [as_Sense].
  destruct (for_each_check_discrete vs m) as (_&Hok&_).
  destruct ((for_each vs check_discrete m).1) as [[]| |] eqn:Hc; [|tidy_solver..].
  apply proj1 in Hok. specialize (Hok eq_refl).
  destruct (choose_label label draws (constraints m)) as [l| |] eqn:Hl; [| |done].
  2:{ intros [= <- <-]. apply choose_label_Raise in Hl. tidy_solver. }
  assert ((register_all (registrations (BQM (one_hot vs))) (variables m)).1 = Return tt)
    as Hreg.
  { cbn [registrations bqm_vartype as_vartype].
    destruct (one_hot_variables vs) as [Hnd Hel]. cbn in Hnd, Hel.
    apply register_all_binary; [done|].
    intros v Hv%Hel Hin. rewrite Forall_forall in Hok.
    by apply (Hok v Hv). }
  destruct (register_all _ _) as [[[]| |] r]; cbn in Hreg; done.
Qed.

(* ===================================================================== *)
(** * The claims about the registry and the facade *)
(* ===================================================================== *)

(** C5. Registering a (label, vartype) pair a second time changes nothing,
    through [_append] and through [add_variable]; and after any further
    registrations or calls, registering the label with another vartype
    raises the vartype error ([TypeError] from the registry, [ValueError]
    from the facade; both are the specification's TypeConflict). *)
Theorem C5_idempotent_registration
    (before later : list Registration) (calls_before calls_later : list Call)
    (v : Hashable) (vt vt' : Vartype) (lb ub : option Bias) :
  vt' ≠ vt →
  (let r0 := registry_after before TypedVariables_init in
   (_append vt v None None r0).1 = Return v →
   let r1 := (_append vt v None None r0).2 in
   _append vt v None None r1 = (Return v, r1) ∧
   let r2 := registry_after later r1 in
   _append vt' v lb ub r2 = (Raise (TypeError different_vartype), r2)) ∧
  (let m0 := model_after calls_before CQM in
   is_Return (add_variable v vt m0).1 →
   let m1 := (add_variable v vt m0).2 in
   add_variable v vt m1 = (Return None, m1) ∧
   let m2 := model_after calls_later m1 in
   add_variable v vt' m2 = (Raise (ValueError added_different_vartype), m2)) ∧
  error_kind (TypeError different_vartype) = TypeConflict ∧
  error_kind (ValueError added_different_vartype) = TypeConflict.
Proof.
  intros Hne. split; [|split; [|done]].
  - intros r0 Hret r1.
    assert (registry_ok r0) as [Hwf0 _]
      by apply registry_after_ok, registry_ok_init.
    destruct (_append_Return_vartype r0 vt v None None v Hwf0 Hret) as [_ Hv1].
    fold r1 in Hv1. split.
    + destruct (decide (vt = BINARY ∨ vt = SPIN)) as [Hb|Hb].
      * by apply _append_binary_spin.
      * rewrite _append_bounded_spec by tidy_solver.
        rewrite !decide_False by (intros (?&?&?&?&?); done).
        unfold fix_bound. by destruct r1.
    + intros r2. apply (_append_type_conflict r2 vt' v lb ub vt); [|done].
      by apply registry_after_vartype_kept.
  - intros m0 Hret m1.
    assert (reachable m0) as Hm0 by apply model_after_reachable, reachable_init.
    destruct (reachable_registry_ok m0 Hm0) as [Hwf0 _].
    assert (vartype (variables m1) v = Return vt ∧ v ∈ labels (variables m1))
      as [Hv1 Hin1].
    { subst m1. rewrite add_variable_spec in *.
      destruct (decide (v ∈ labels (variables m0))) as [Hin|Hout].
      - destruct (vartype_wf_elem _ v Hwf0 Hin) as [t Ht]. rewrite Ht in *.
        case_decide as Hd; [done|]. cbn. by subst.
      - cbn. split; [by apply vartype_append_new_same|].
        apply elem_of_app. right. by apply list_elem_of_singleton. }
    split.
    + rewrite add_variable_spec. rewrite decide_True by done.
      rewrite Hv1. by rewrite decide_False by tidy_solver.
    + intros m2. destruct (model_after_variables calls_later m1) as [regs Hregs].
      fold m2 in Hregs.
      assert (vartype (variables m2) v = Return vt) as Hv2.
      { rewrite Hregs. by apply registry_after_vartype_kept. }
      rewrite add_variable_spec.
      rewrite decide_True by eauto using vartype_Return_elem.
      rewrite Hv2. by rewrite decide_True.
Qed.

(** C6. Re-registering a label of vartype INTEGER or REAL: a supplied bound
    that differs from the bound already fixed raises the bound error; when
    every supplied bound equals the fixed one the registry is unchanged;
    and a bound supplied where none was fixed is accepted and stored (the
    other bound not being in conflict). *)
Theorem C6_bound_merge (r : TypedVariables) (v : Hashable) (vt : Vartype)
    (lb ub : option Bias) :
  vartype r v = Return vt → vt = INTEGER ∨ vt = REAL →
  ((bound_conflict lb (lower_bounds r !! v) ∨ bound_conflict ub (upper_bounds r !! v)) →
   ∃ e, (_append vt v lb ub r).1 = Raise e ∧ error_kind e = BoundConflict) ∧
  ((lb = None ∨ lb = lower_bounds r !! v) → (ub = None ∨ ub = upper_bounds r !! v) →
   _append vt v lb ub r = (Return v, r)) ∧
  (¬ bound_conflict lb (lower_bounds r !! v) →
   ¬ bound_conflict ub (upper_bounds r !! v) →
   ∃ r', _append vt v lb ub r = (Return v, r') ∧
         labels r' = labels r ∧ vartypes r' = vartypes r ∧
         (∀ b, lb = Some b → lower_bounds r' !! v = Some b) ∧
         (∀ b, ub = Some b → upper_bounds r' !! v = Some b) ∧
         (lb = None → lower_bounds r' = lower_bounds r) ∧
         (ub = None → upper_bounds r' = upper_bounds r)).
Proof.
  intros Hv Hvt.
  assert (vt ≠ BINARY ∧ vt ≠ SPIN) as [H1 H2] by (destruct Hvt; subst; done).
  rewrite (_append_bounded_spec r vt v lb ub Hv H1 H2).
  split; [|split].
  - intros Hc.
    destruct (decide (bound_conflict lb _)); [eexists; split; done|].
    destruct (decide (bound_conflict ub _)); [eexists; split; done|].
    tidy_solver.
  - intros Hl Hu.
    rewrite !decide_False.
    + f_equal. unfold fix_bound.
      destruct r as [ls vts lo up]; cbn in *.
      destruct Hl as [->| ->], Hu as [->| ->]; try done;
        repeat (destruct (_ !! v)); done.
    + intros (b&s&?&?&?). destruct Hu; congruence.
    + intros (b&s&?&?&?). destruct Hl; congruence.
  - intros Hl Hu. rewrite !decide_False by done.
    eexists. split; [done|]. cbn. split; [done|]. split; [done|].
    unfold fix_bound. repeat split.
    + intros b ->. destruct (lower_bounds r !! v) as [s|] eqn:E.
      * destruct (decide (b = s)) as [->|N]; [done|]. destruct Hl. by exists b, s.
      * by rewrite lookup_insert_eq.
    + intros b ->. destruct (upper_bounds r !! v) as [s|] eqn:E.
      * destruct (decide (b = s)) as [->|N]; [done|]. destruct Hu. by exists b, s.
      * by rewrite lookup_insert_eq.
    + by intros ->.
    + by intros ->.
Qed.

(** C9. [num_biases] is the sum, over the objective and the left-hand side
    of every constraint, of the number of linear terms plus the number of
    quadratic terms. The linear terms of an expression are the entries of
    its [linear] view, one for each of its variables, whatever the bias;
    the quadratic terms are the entries of its [quadratic] view, one for
    each interaction. *)
Theorem C9_num_biases (self : ConstrainedQuadraticModel) :
  num_biases self =
    sum_list ((λ e, (len_linear e + len_quadratic e)%nat)
                <$> (objective self :: (lhs <$> (constraints self).*2))).
Proof.
  unfold num_biases. rewrite fmap_cons. cbn [sum_list sum_list_with].
  f_equal. induction (constraints self) as [|[l c] cs IH]; [done|].
  cbn. by rewrite IH.
Qed.

Lemma add_discrete_Return_label vs label draws m l m' :
  add_discrete vs label draws m = (Return l, m') →
  choose_label label draws (constraints m) = Return l.
Proof.
  rewrite add_discrete_spec.
  assert (add_discrete_body vs label draws m = (Return l, m') →
          choose_label label draws (constraints m) = Return l) as Hbody.
  { unfold add_discrete_body. rewrite add_constraint_from_model_spec. cbn [as_Sense].
    destruct ((for_each vs check_discrete m).1) as [[]| |]; [|done..].
    destruct (choose_label label draws (constraints m)) as [l0| |]; [|done..].
    destruct (register_all _ _) as [[[]| |] r]; [|done..].
    by intros [= <- _]. }
  destruct label as [l0|]; [|done]. by case_decide.
Qed.

Lemma add_discrete_pending vs label draws m :
  (add_discrete vs label draws m).1 = OutOfDraws →
  choose_label label draws (constraints m) = OutOfDraws.
Proof.
  rewrite add_discrete_spec.
  assert ((add_discrete_body vs label draws m).1 = OutOfDraws →
          choose_label label draws (constraints m) = OutOfDraws) as Hbody.
  { unfold add_discrete_body. rewrite add_constraint_from_model_spec. cbn [as_Sense].
    destruct (for_each_check_discrete vs m) as (_&Hok&Hp).
    destruct ((for_each vs check_discrete m).1) as [[]| |] eqn:Hc; [|done..].
    apply proj1 in Hok. specialize (Hok eq_refl).
    destruct (choose_label label draws (constraints m)) as [l0| |]; [|done..].
    assert ((register_all (registrations (BQM (one_hot vs))) (variables m)).1 = Return tt)
      as Hreg.
    { cbn [registrations bqm_vartype as_vartype].
      destruct (one_hot_variables vs) as [Hnd Hel]. cbn in Hnd, Hel.
      apply register_all_binary; [done|].
      intros v Hv%Hel Hin. rewrite Forall_forall in Hok.
      by apply (Hok v Hv). }
    destruct (register_all _ _) as [[[]| |] r]; cbn in Hreg; done. }
  destruct label as [l0|]; [|done]. by case_decide.
Qed.

Lemma register_all_not_pending cs r : (register_all cs r).1 ≠ OutOfDraws.
Proof.
  revert r. induction cs as [|[[[vt v] lb] ub] cs IH]; intros r; [done|].
  rewrite register_all_cons. cbn [register].
  destruct (_append vt v lb ub r) as [[l| |] r'] eqn:E; cbn; [apply IH|done|].
  exfalso. revert E. unfold _append. case_decide; [|done].
  pose proof (vartype_not_pending r v).
  destruct (vartype r v); [|done..].
  case_decide; [done|]. case_decide; [|done].
  unfold bind. rewrite check_lower_spec. case_decide; [done|].
  rewrite check_upper_spec. by case_decide.
Qed.

(** C8. In every model, a call of [add_constraint_from_model] or of
    [add_discrete] that supplies the label of an existing constraint
    raises the duplicate-label error and changes nothing. A call that
    supplies no label and returns, returns one of its random draws, and
    that label is no label of the model before the call; the label loop
    ends as soon as one draw is no label of the model. Hence the labels of
    a model built through the facade are pairwise different. *)
Theorem C8_label_uniqueness (calls : list Call) (self : ConstrainedQuadraticModel) :
  (∀ qm (s : Sense) rh l copy draws,
     l ∈ (constraints self).*1 →
     add_constraint_from_model qm (inl s) rh (Some l) copy draws self
       = (Raise (ValueError label_exists), self) ∧
     add_constraint_from_model qm (inr (Sense_value s)) rh (Some l) copy draws self
       = (Raise (ValueError label_exists), self)) ∧
  (∀ vs l draws,
     l ∈ (constraints self).*1 →
     add_discrete vs (Some l) draws self = (Raise (ValueError label_exists), self)) ∧
  error_kind (ValueError label_exists) = DuplicateLabel ∧
  (∀ qm sn rh copy draws l m',
     add_constraint_from_model qm sn rh None copy draws self = (Return l, m') →
     (l ∉ (constraints self).*1) ∧ (∃ d, d ∈ draws ∧ l = HStr d) ∧
     l ∈ (constraints m').*1) ∧
  (∀ vs draws l m',
     add_discrete vs None draws self = (Return l, m') →
     (l ∉ (constraints self).*1) ∧ (∃ d, d ∈ draws ∧ l = HStr d) ∧
     l ∈ (constraints m').*1) ∧
  (∀ qm sn rh copy draws d,
     d ∈ draws → HStr d ∉ (constraints self).*1 →
     (add_constraint_from_model qm sn rh None copy draws self).1 ≠ OutOfDraws) ∧
  (∀ vs draws d,
     d ∈ draws → HStr d ∉ (constraints self).*1 →
     (add_discrete vs None draws self).1 ≠ OutOfDraws) ∧
  NoDup (constraints (model_after calls CQM)).*1.
Proof.
  split; [|split; [|split; [|split; [|split; [|split; [|split]]]]]].
  - intros qm s rh l copy draws Hl. split.
    + rewrite add_constraint_from_model_spec. cbn. by rewrite decide_True.
    + rewrite add_constraint_from_model_spec. unfold as_Sense.
      replace (Sense_of_value (Sense_value s)) with (Some s) by (by destruct s).
      cbn. by rewrite decide_True.
  - intros vs l draws Hl. rewrite add_discrete_spec. by rewrite decide_True.
  - done.
  - intros qm sn rh copy draws l m'. rewrite add_constraint_from_model_spec.
    destruct (as_Sense sn); [|done..]. cbn [choose_label].
    destruct (fresh_label draws (constraints self)) as [l0| |] eqn:Hl; [|done..].
    destruct (register_all _ _) as [[[]| |] r]; [|done..].
    intros [= <- <-]. apply fresh_label_Return in Hl as [Hl Hd].
    split; [done|]. split; [done|]. cbn.
    rewrite dict_set_fresh by done. rewrite fmap_app. cbn.
    apply elem_of_app. right. by apply list_elem_of_singleton.
  - intros vs draws l m' Hret.
    pose proof (add_discrete_Return_label _ _ _ _ _ _ Hret) as Hl. cbn in Hl.
    apply fresh_label_Return in Hl as [Hl Hd].
    split; [done|]. split; [done|].
    revert Hret. rewrite add_discrete_spec. unfold add_discrete_body.
    rewrite add_constraint_from_model_spec. cbn [as_Sense choose_label].
    destruct ((for_each vs check_discrete self).1) as [[]| |]; [|done..].
    destruct (fresh_label draws (constraints self)) as [l0| |] eqn:Hl0; [|done..].
    destruct (register_all _ _) as [[[]| |] r]; [|done..].
    intros [= <- <-]. cbn.
    apply fresh_label_Return in Hl0 as [Hl0 _].
    rewrite dict_set_fresh by done. rewrite fmap_app. cbn.
    apply elem_of_app. right. by apply list_elem_of_singleton.
  - intros qm sn rh copy draws d Hd Hfresh.
    rewrite add_constraint_from_model_spec.
    destruct (as_Sense sn) as [s| |] eqn:Hs; [|done|].
    2:{ destruct sn as [s|str]; cbn in Hs; [done|].
        by destruct (Sense_of_value str). }
    cbn [choose_label].
    destruct (fresh_label_terminates draws (constraints self) d Hd Hfresh) as [l ->].
    pose proof (register_all_not_pending (registrations qm) (variables self)).
    by destruct (register_all _ _) as [[[]| |] r].
  - intros vs draws d Hd Hfresh Hp%add_discrete_pending. cbn in Hp.
    destruct (fresh_label_terminates draws (constraints self) d Hd Hfresh) as [l Hl].
    congruence.
  - apply reachable_labels_NoDup, model_after_reachable, reachable_init.
Qed.

(** C3, as the code has it. In a model built through the facade no variable
    belongs to two discrete groups. A call of [add_discrete] with a
    variable of a recorded group raises and leaves the model, and so every
    group, as it was: the error is the duplicate-label error when the
    label supplied is that of an existing constraint (that test comes
    first), and the discrete-conflict error otherwise. *)
Theorem C3_discrete_disjoint (calls : list Call) :
  let m := model_after calls CQM in
  groups_disjoint m ∧
  ∀ vs label draws v l g,
    v ∈ vs → group m l = Some g → v ∈ g →
    ∃ e, add_discrete vs label draws m = (Raise e, m) ∧
         ((∃ l0, label = Some l0 ∧ l0 ∈ (constraints m).*1) →
          e = ValueError label_exists ∧ error_kind e = DuplicateLabel) ∧
         (¬ (∃ l0, label = Some l0 ∧ l0 ∈ (constraints m).*1) →
          (e = ValueError used_in_discrete ∨ e = ValueError not_binary) ∧
          error_kind e = DiscreteConflict).
Proof.
  intros m.
  assert (reachable m) as Hm by apply model_after_reachable, reachable_init.
  destruct (reachable_registry_ok m Hm) as [Hwf _].
  destruct (reachable_discrete_inv m Hm) as [Hcl Hdj].
  split; [done|].
  intros vs label draws v l g Hv Hg Hvg.
  apply group_Some in Hg as (Hl&c&Hc&->).
  assert (v ∈ _discrete m) as Hclaimed.
  { destruct (Hcl l Hl) as (c'&Hc'&Hsub). apply Hsub. congruence. }
  assert (∃ e, (for_each vs check_discrete m).1 = Raise e) as [e He].
  { destruct (for_each_check_discrete vs m) as (_&Hok&Hp).
    destruct ((for_each vs check_discrete m).1) as [[]| |]; [|eauto|done].
    apply proj1 in Hok. specialize (Hok eq_refl).
    rewrite Forall_forall in Hok. by destruct (Hok v Hv). }
  assert (add_discrete_body vs label draws m = (Raise e, m)) as Hbody.
  { unfold add_discrete_body. by rewrite He. }
  rewrite add_discrete_spec. destruct label as [l0|].
  - case_decide as Hl0.
    + eexists. split; [done|]. split; [done|]. intros []. eauto.
    + exists e. split; [done|]. split; [intros (?&[= <-]&?); done|].
      intros _.
      destruct (for_each_check_discrete_Raise vs m e Hwf He) as [->| ->]; auto.
  - exists e. split; [done|]. split; [intros (?&?&?); done|].
    intros _.
    destruct (for_each_check_discrete_Raise vs m e Hwf He) as [->| ->]; auto.
Qed.

(** ** What [add_discrete] returns *)

Lemma register_all_one_hot vs m :
  Forall (discrete_ok m) vs →
  (register_all (registrations (BQM (one_hot vs))) (variables m)).1 = Return tt.
Proof.
  intros Hok. cbn [registrations bqm_vartype as_vartype].
  destruct (one_hot_variables vs) as [Hnd Hel]. cbn in Hnd, Hel.
  apply register_all_binary; [done|].
  intros v Hv%Hel Hin. rewrite Forall_forall in Hok.
  by apply (Hok v Hv).
Qed.

Lemma add_discrete_Return vs label draws m l :
  Forall (discrete_ok m) vs →
  choose_label label draws (constraints m) = Return l →
  add_discrete vs label draws m =
    (Return l,
     mkCQM (objective m)
       (constraints m ++ [(l, mkComparison (BQM (one_hot vs)) Eq bias_one)])
       (register_all (registrations (BQM (one_hot vs))) (variables m)).2
       ({[l]} ∪ discrete m) (list_to_set vs ∪ _discrete m)).
Proof.
  intros Hok Hl.
  assert (add_discrete_body vs label draws m =
    (Return l,
     mkCQM (objective m)
       (constraints m ++ [(l, mkComparison (BQM (one_hot vs)) Eq bias_one)])
       (register_all (registrations (BQM (one_hot vs))) (variables m)).2
       ({[l]} ∪ discrete m) (list_to_set vs ∪ _discrete m))) as Hbody.
  { unfold add_discrete_body. rewrite add_constraint_from_model_spec.
    cbn [as_Sense]. rewrite Hl.
    destruct (for_each_check_discrete vs m) as (_&Hc&_).
    apply proj2 in Hc. rewrite (Hc Hok).
    pose proof (register_all_one_hot vs m Hok) as Hreg.
    destruct (register_all _ _) as [[[]| |] r]; cbn in Hreg; [|done..].
    cbn. rewrite dict_set_fresh; [done|]. by eapply choose_label_Return. }
  rewrite add_discrete_spec. destruct label as [l0|]; [|done].
  cbn in Hl. by case_decide.
Qed.

(** ** Loops and state *)

Lemma for_each_preserves {S A} (P : S → Prop) (xs : list A) (body : A → Py S unit) s :
  (∀ x s, P s → P (body x s).2) → P s → P (for_each xs body s).2.
Proof.
  intros Hbody. revert s. induction xs as [|x xs IH]; intros s Hs; [done|].
  cbn. unfold bind. specialize (Hbody x s Hs).
  destruct (body x s) as [[[]| |] s']; cbn in *; [by apply IH|done..].
Qed.

Lemma add_constraint_from_model_frame qm sn rh label copy draws m :
  objective (add_constraint_from_model qm sn rh label copy draws m).2 = objective m ∧
  discrete (add_constraint_from_model qm sn rh label copy draws m).2 = discrete m ∧
  _discrete (add_constraint_from_model qm sn rh label copy draws m).2 = _discrete m.
Proof.
  rewrite add_constraint_from_model_spec.
  destruct (as_Sense sn); [|done..].
  destruct (choose_label _ _ _); [|done..].
  by destruct (register_all _ _) as [[[]| |] r].
Qed.

Lemma set_objective_frame obj m :
  constraints (set_objective obj m).2 = constraints m ∧
  discrete (set_objective obj m).2 = discrete m ∧
  _discrete (set_objective obj m).2 = _discrete m.
Proof.
  rewrite set_objective_spec. by destruct (register_all _ _) as [[[]| |] r].
Qed.

Lemma load_constraint_discrete_kept zf name m :
  _discrete (load_constraint zf name m).2 = _discrete m.
Proof.
  unfold load_constraint.
  unfold bind at 1. unfold lift_outcome at 1.
  destruct (zf_read zf _) as [lhs_bytes| |]; [|done..].
  unfold bind at 1. unfold lift_outcome at 1.
  destruct (load lhs_bytes) as [qm| |]; [|done..].
  unfold bind at 1. unfold lift_outcome at 1.
  destruct (zf_read zf _) as [rhs_bytes| |]; [|done..].
  unfold bind at 1. unfold lift_outcome at 1.
  destruct (float64_frombuffer rhs_bytes) as [rh| |]; [|done..].
  unfold bind at 1. unfold lift_outcome at 1.
  destruct (zf_read zf _) as [sense_bytes| |]; [|done..].
  unfold bind at 1. unfold lift_outcome at 1.
  destruct (decode_ascii sense_bytes) as [sn| |]; [|done..].
  unfold bind at 1. unfold lift_outcome at 1.
  destruct (zf_read zf _) as [discrete_bytes| |]; [|done..].
  unfold bind at 1. unfold lift_outcome at 1.
  destruct (json_loads_label name) as [label| |]; [|done..].
  unfold bind at 1. unfold add_constraint.
  pose proof (add_constraint_from_model_frame qm (inr sn) rh (Some label) true [] m)
    as (_&_&Hd).
  destruct (add_constraint_from_model qm (inr sn) rh (Some label) true [] m)
    as [[l| |] m']; cbn in *; try done.
  by destruct (any_byte discrete_bytes).
Qed.

Lemma load_archive_discrete_kept zf m :
  _discrete (load_archive zf m).2 = _discrete m.
Proof.
  unfold load_archive. unfold bind at 1. unfold lift_outcome at 1.
  destruct (zf_read zf "objective"); [|done..].
  unfold bind at 1. unfold lift_outcome at 1.
  destruct (load a) as [obj| |]; [|done..].
  unfold bind at 1.
  pose proof (set_objective_frame obj m) as (_&_&Hd).
  destruct (set_objective obj m) as [[[]| |] m1]; cbn in Hd; [|done..].
  rewrite <- Hd.
  apply (for_each_preserves (λ s, _discrete s = _discrete m1)); [|done].
  intros name s Hs. by rewrite load_constraint_discrete_kept.
Qed.

Lemma from_file_Return fp cqm :
  from_file fp = Return cqm →
  ∃ zf, ZipFile_read fp = Return zf ∧ load_archive zf CQM = (Return tt, cqm).
Proof.
  unfold from_file, read_archive.
  destruct (read_header _ _); [|done..]. case_match; [done|].
  destruct (ZipFile_read fp) as [zf| |]; [|done..].
  destruct (load_archive zf CQM) as [[[]| |] m] eqn:E; [|done..].
  intros [= <-]. eauto.
Qed.

(** ** Expressions agree with the registry *)

Lemma agrees_register r c c' :
  registry_ok r → agrees r c → agrees (register c' r).2 c.
Proof.
  destruct c as [[[vt v] lb] ub], c' as [[[vt' v'] lb'] ub'].
  intros [Hwf Hbr] [Hv Hb]. cbn [register]. split.
  - by apply _append_vartype_kept.
  - intros H1 H2. destruct (Hb H1 H2) as [Hlo Hup]. split.
    + intros b Hlb. by apply _append_lower_kept, Hlo.
    + intros b Hub. by apply _append_upper_kept, Hup.
Qed.

Lemma agrees_registry_after r cs c :
  registry_ok r → agrees r c → agrees (registry_after cs r) c.
Proof.
  revert r. induction cs as [|c' cs IH]; intros r Hok Hc; [done|].
  cbn. apply IH; [by apply register_ok|by apply agrees_register].
Qed.

Lemma register_Return_agrees r c l :
  reg_wf r → (register c r).1 = Return l → agrees (register c r).2 c.
Proof.
  destruct c as [[[vt v] lb] ub]. cbn [register]. intros Hwf Hret.
  destruct (_append_Return_vartype r vt v lb ub l Hwf Hret) as [_ Hv].
  split; [done|]. intros H1 H2.
  destruct (decide (v ∈ labels r)) as [Hin|Hout].
  - destruct (vartype_wf_elem r v Hwf Hin) as [t Ht].
    destruct (decide (vt = t)) as [->|Hne].
    2:{ by rewrite (_append_type_conflict r vt v lb ub t) in Hret. }
    rewrite _append_bounded_spec in * by done.
    destruct (decide (bound_conflict lb _)) as [|Hl]; [done|].
    destruct (decide (bound_conflict ub _)) as [|Hu]; [done|].
    cbn. unfold fix_bound. split.
    + intros b ->. destruct (lower_bounds r !! v) as [s|] eqn:E.
      * destruct (decide (b = s)) as [->|N]; [done|]. destruct Hl. by exists b, s.
      * by rewrite lookup_insert_eq.
    + intros b ->. destruct (upper_bounds r !! v) as [s|] eqn:E.
      * destruct (decide (b = s)) as [->|N]; [done|]. destruct Hu. by exists b, s.
      * by rewrite lookup_insert_eq.
  - rewrite _append_new by done. cbn. split.
    + intros b ->. by rewrite lookup_insert_eq.
    + intros b ->. by rewrite lookup_insert_eq.
Qed.

Lemma register_all_Return_agrees cs r r' :
  registry_ok r → register_all cs r = (Return tt, r') → Forall (agrees r') cs.
Proof.
  revert r. induction cs as [|c cs IH]; intros r Hok; [constructor|].
  rewrite register_all_cons.
  pose proof (register_Return_agrees r c) as Hc.
  pose proof (register_ok c r Hok) as Hok1.
  destruct (register c r) as [[l| |] r1]; [|done..].
  cbn in *. intros Hall. constructor.
  - rewrite (register_all_Return _ _ _ Hall).
    apply agrees_registry_after; [done|]. apply (Hc l); [apply Hok|done].
  - by apply (IH r1).
Qed.

Lemma transition_consistent m m' :
  transition m m' → registry_ok (variables m) → consistent m → consistent m'.
Proof.
  intros Htr Hok Hcons.
  assert (Hkeep : ∀ regs e, e ∈ expressions m →
            Forall (agrees (registry_after regs (variables m))) (registrations e)).
  { intros regs e He. eapply Forall_impl; [by apply Hcons|].
    intros c. by apply agrees_registry_after. }
  destruct Htr as [regs|obj r Hr|l c r Hl Hr|l vs r Hl Hvs Hr]; intros e;
    unfold expressions; cbn [objective constraints variables].
  - apply Hkeep.
  - rewrite elem_of_cons. intros [->|He].
    + by eapply register_all_Return_agrees.
    + rewrite (register_all_Return _ _ _ Hr). apply Hkeep.
      unfold expressions. by right.
  - rewrite fmap_app, fmap_app, elem_of_cons, elem_of_app.
    cbn. rewrite list_elem_of_singleton. intros [->|[He| ->]].
    + rewrite (register_all_Return _ _ _ Hr). apply Hkeep. by left.
    + rewrite (register_all_Return _ _ _ Hr). apply Hkeep. by right.
    + by eapply register_all_Return_agrees.
  - rewrite fmap_app, fmap_app, elem_of_cons, elem_of_app.
    cbn. rewrite list_elem_of_singleton. intros [->|[He| ->]].
    + rewrite (register_all_Return _ _ _ Hr). apply Hkeep. by left.
    + rewrite (register_all_Return _ _ _ Hr). apply Hkeep. by right.
    + by eapply register_all_Return_agrees.
Qed.

Lemma consistent_add_constraint m l c r d v :
  registry_ok (variables m) → consistent m →
  register_all (registrations (lhs c)) (variables m) = (Return tt, r) →
  consistent (mkCQM (objective m) (constraints m ++ [(l, c)]) r d v).
Proof.
  intros Hok Hcons Hr e. unfold expressions. cbn [objective constraints variables].
  assert (Hkeep : ∀ e, e ∈ expressions m → Forall (agrees r) (registrations e)).
  { intros e' He. rewrite (register_all_Return _ _ _ Hr).
    eapply Forall_impl; [by apply Hcons|].
    intros c'. by apply agrees_registry_after. }
  rewrite fmap_app, fmap_app, elem_of_cons, elem_of_app.
  cbn. rewrite list_elem_of_singleton. intros [->|[He| ->]].
  - apply Hkeep. by left.
  - apply Hkeep. by right.
  - by eapply register_all_Return_agrees.
Qed.

Lemma reachable_consistent m : reachable m → consistent m.
Proof.
  intros Hm. apply proj2 with (A := registry_ok (variables m)).
  revert m Hm.
  apply (reachable_transition_ind (λ m, registry_ok (variables m) ∧ consistent m)).
  - split; [apply registry_ok_init|].
    intros e [->|He%elem_of_nil]%elem_of_cons; [constructor|done].
  - intros m m' [Hok Hc] Htr. split.
    + by eapply transition_registry_ok.
    + by eapply transition_consistent.
Qed.

(** ** Registering into a fresh registry what agrees with a given one *)

Lemma below_init R : below R TypedVariables_init.
Proof. intros v t Hv. by apply vartype_Return_elem, elem_of_nil in Hv. Qed.

Lemma vartype_append_new_inv r vt v lb ub u t :
  reg_wf r → v ∉ labels r →
  vartype (append_new vt v lb ub r) u = Return t →
  (u = v ∧ t = vt) ∨ (u ≠ v ∧ vartype r u = Return t).
Proof.
  intros Hwf Hv Hu. destruct (decide (u = v)) as [->|Hne].
  - left. split; [done|].
    rewrite vartype_append_new_same in Hu by done. congruence.
  - right. split; [done|].
    pose proof (vartype_Return_elem _ _ _ Hu) as Hin. cbn in Hin.
    apply elem_of_app in Hin as [Hin|Hin%list_elem_of_singleton]; [|done].
    destruct (vartype_wf_elem r u Hwf Hin) as [t' Ht'].
    rewrite (vartype_append_new_old r vt v lb ub u t' Ht') in Hu. congruence.
Qed.

Lemma register_below R r c :
  registry_ok r → below R r → agrees R c →
  (register c r).1 = Return c.1.1.2 ∧ below R (register c r).2.
Proof.
  destruct c as [[[vt v] lb] ub]. cbn [register fst snd].
  intros [Hwf Hbr] Hbelow [HRv HRb].
  destruct (decide (v ∈ labels r)) as [Hin|Hout].
  - destruct (vartype_wf_elem r v Hwf Hin) as [t Ht].
    destruct (Hbelow v t Ht) as [HRt Hbt].
    assert (t = vt) as -> by congruence.
    destruct (decide (vt = BINARY ∨ vt = SPIN)) as [Hbin|Hbin].
    { rewrite _append_binary_spin by done. done. }
    assert (vt ≠ BINARY ∧ vt ≠ SPIN) as [H1 H2] by tidy_solver.
    destruct (HRb H1 H2) as [HRlo HRup]. destruct (Hbt H1 H2) as [Hlo Hup].
    rewrite _append_bounded_spec by done.
    rewrite decide_False.
    2:{ intros (b&s0&->&Hs0&Hne). apply Hne.
        apply Hlo in Hs0. rewrite (HRlo b eq_refl) in Hs0. congruence. }
    rewrite decide_False.
    2:{ intros (b&s0&->&Hs0&Hne). apply Hne.
        apply Hup in Hs0. rewrite (HRup b eq_refl) in Hs0. congruence. }
    cbn. split; [done|].
    intros u t Hu.
    assert (vartype r u = Return t) as Hu' by exact Hu.
    destruct (Hbelow u t Hu') as [? Hbu]. split; [done|].
    intros Hn1 Hn2. destruct (Hbu Hn1 Hn2) as [Hlo' Hup']. cbn.
    destruct (decide (u = v)) as [->|Hne].
    + assert (t = vt) as -> by congruence. unfold fix_bound. split.
      * intros b. destruct lb as [b0|]; [|apply Hlo'].
        destruct (lower_bounds r !! v) eqn:E; [rewrite E; apply Hlo'|].
        rewrite lookup_insert_eq. intros [= <-]. by apply HRlo.
      * intros b. destruct ub as [b0|]; [|apply Hup'].
        destruct (upper_bounds r !! v) eqn:E; [rewrite E; apply Hup'|].
        rewrite lookup_insert_eq. intros [= <-]. by apply HRup.
    + rewrite !fix_bound_lookup_other by done. done.
  - rewrite _append_new by done. cbn. split; [done|].
    intros u t Hu.
    destruct (vartype_append_new_inv r vt v lb ub u t Hwf Hout Hu)
      as [[-> ->]|[Hne Hu']]; clear Hu; [|rename Hu' into Hu].
    + split; [done|]. intros H1 H2. destruct (HRb H1 H2) as [HRlo HRup].
      assert (lower_bounds r !! v = None ∧ upper_bounds r !! v = None) as [Nl Nu].
      { split; apply eq_None_not_Some; intros Hs; apply Hout, Hbr; eauto. }
      cbn. split.
      * intros b. destruct lb as [b0|]; [|by rewrite Nl].
        rewrite lookup_insert_eq. intros [= <-]. by apply HRlo.
      * intros b. destruct ub as [b0|]; [|by rewrite Nu].
        rewrite lookup_insert_eq. intros [= <-]. by apply HRup.
    + destruct (Hbelow u t Hu) as [? Hbu]. split; [done|].
      intros H1 H2. destruct (Hbu H1 H2) as [Hlo' Hup']. cbn. split.
      * intros b. destruct lb; [rewrite lookup_insert_ne by done|]; apply Hlo'.
      * intros b. destruct ub; [rewrite lookup_insert_ne by done|]; apply Hup'.
Qed.

Lemma register_all_below R r cs :
  registry_ok r → below R r → Forall (agrees R) cs →
  register_all cs r = (Return tt, registry_after cs r) ∧
  below R (registry_after cs r).
Proof.
  revert r. induction cs as [|c cs IH]; intros r Hok Hbelow Hcs; [done|].
  apply Forall_cons in Hcs as [Hc Hcs].
  rewrite register_all_cons. cbn [registry_after foldl].
  destruct (register_below R r c Hok Hbelow Hc) as [Hret Hb1].
  pose proof (register_ok c r Hok) as Hok1.
  destruct (register c r) as [[l| |] r1]; cbn in *; [|done..].
  by apply IH.
Qed.

(** The labels of a registry come from the registrations made. *)
Lemma registry_after_labels cs r v :
  v ∈ labels (registry_after cs r) → v ∈ labels r ∨ v ∈ (λ c : Registration, c.1.1.2) <$> cs.
Proof.
  revert r. induction cs as [|[[[vt u] lb] ub] cs IH]; intros r; [by left|].
  cbn [registry_after foldl register]. intros [Hv|Hv]%IH.
  - destruct (_append_state r vt u lb ub) as [[_ E]|(_&E&_)]; rewrite E in Hv.
    + cbn in Hv. apply elem_of_app in Hv as [?|Hs%list_elem_of_singleton]; [by left|].
      subst. right. by left.
    + by left.
  - right. by right.
Qed.

Lemma registrations_labels e :
  (λ c : Registration, c.1.1.2) <$> registrations e = model_variables e.
Proof.
  destruct e as [b|q]; cbn.
  - induction (bqm_linear b) as [|[u bias] l IH]; [done|]. cbn. by rewrite IH.
  - induction (qm_variables q) as [|[u d] l IH]; [done|]. cbn. by rewrite IH.
Qed.

(** A registration of a vartype other than BINARY and SPIN comes from a
    quadratic model, which gives both bounds. *)
Lemma registrations_bounded e vt v lb ub :
  (vt, v, lb, ub) ∈ registrations e → vt ≠ BINARY → vt ≠ SPIN →
  is_Some lb ∧ is_Some ub.
Proof.
  destruct e as [b|q]; cbn.
  - intros (u&[= -> _ _ _]&_)%list_elem_of_fmap. by destruct (bqm_vartype b).
  - intros (u&[= _ _ -> ->]&_)%list_elem_of_fmap. eauto.
Qed.

(** ** Names of archive entries *)

Lemma strip_prefix_app p s : strip_prefix p (p +:+ s) = Some s.
Proof.
  induction p as [|a p IH]; [by destruct s|].
  change (String a p +:+ s) with (String a (p +:+ s)).
  cbn [strip_prefix]. by rewrite decide_True.
Qed.

Lemma span_not_slash_app a rest :
  no_slash a →
  span_not_slash (a +:+ String "/" rest) = (a, String "/" rest).
Proof.
  induction a as [|c a IH]; intros Hns.
  - change (EmptyString +:+ String "/" rest) with (String "/" rest).
    cbn [span_not_slash]. by rewrite decide_True.
  - destruct Hns as [Hc Ha].
    change (String c a +:+ String "/" rest) with (String c (a +:+ String "/" rest)).
    cbn [span_not_slash]. rewrite decide_False by done. by rewrite IH.
Qed.

Lemma re_match_entry_name lstr field :
  valid_dir lstr → re_match_constraints (entry_name lstr field) = Some lstr.
Proof.
  intros [Hne Hns]. unfold re_match_constraints, entry_name.
  rewrite strip_prefix_app. cbn [mbind option_bind].
  rewrite span_not_slash_app by done. by destruct lstr.
Qed.

Lemma strip_prefix_Some p s rest : strip_prefix p s = Some rest → s = p +:+ rest.
Proof.
  revert s. induction p as [|a p IH]; intros s; cbn [strip_prefix].
  - by intros [= ->].
  - destruct s as [|b s]; [done|]. case_decide; [|done]. subst.
    intros Hs. change (String b p +:+ rest) with (String b (p +:+ rest)).
    f_equal. by apply IH.
Qed.

Lemma span_not_slash_append s g r : span_not_slash s = (g, r) → s = g +:+ r.
Proof.
  revert g r. induction s as [|c s IH]; intros g r; cbn [span_not_slash].
  - by intros [= <- <-].
  - case_decide; [by intros [= <- <-]|].
    destruct (span_not_slash s) as [g0 r0]. intros [= <- <-].
    change (String c g0 +:+ r0) with (String c (g0 +:+ r0)).
    f_equal. by apply IH.
Qed.

Lemma re_match_Some_prefix arch g :
  re_match_constraints arch = Some g → ∃ rest, arch = "constraints/" +:+ g +:+ rest.
Proof.
  unfold re_match_constraints.
  destruct (strip_prefix "constraints/" arch) as [rest|] eqn:Hp; [|done].
  cbn [mbind option_bind]. apply strip_prefix_Some in Hp as ->.
  destruct (span_not_slash rest) as [g' r] eqn:Hs.
  apply span_not_slash_append in Hs as ->.
  destruct g' as [|c g']; [done|]. destruct r as [|c' r]; [done|].
  intros [= <-]. eauto.
Qed.

Lemma entry_name_inj lstr1 field1 lstr2 field2 :
  no_slash lstr1 → no_slash lstr2 →
  entry_name lstr1 field1 = entry_name lstr2 field2 →
  lstr1 = lstr2 ∧ field1 = field2.
Proof.
  intros H1 H2 Heq.
  assert (Some (lstr1 +:+ String "/" field1) = Some (lstr2 +:+ String "/" field2)) as Hs.
  { rewrite <- (strip_prefix_app "constraints/" (lstr1 +:+ String "/" field1)).
    rewrite <- (strip_prefix_app "constraints/" (lstr2 +:+ String "/" field2)).
    unfold entry_name in Heq. by rewrite Heq. }
  injection Hs as Hs.
  pose proof (span_not_slash_app lstr1 field1 H1) as E1.
  pose proof (span_not_slash_app lstr2 field2 H2) as E2.
  rewrite Hs in E1. rewrite E1 in E2. by injection E2 as -> ->.
Qed.

(** ** Reading entries *)

Lemma zf_read_elem zf name content :
  zf_read zf name = Return content → (name, content) ∈ zf.
Proof.
  induction zf as [|[n c] zf IH]; cbn; [done|].
  destruct (zf_read zf name) as [later| |] eqn:E.
  - intros [= <-]. right. by apply IH.
  - case_decide; [|done]. intros [= <-]. subst. by left.
  - case_decide; [|done]. intros [= <-]. subst. by left.
Qed.

Lemma zf_read_unique zf name content :
  (name, content) ∈ zf →
  (∀ content', (name, content') ∈ zf → content' = content) →
  zf_read zf name = Return content.
Proof.
  induction zf as [|[n c] zf IH]; cbn [zf_read]; [by intros ?%elem_of_nil|].
  intros Hin Huniq.
  destruct (zf_read zf name) as [later| |] eqn:E.
  - f_equal. apply Huniq. right. by apply zf_read_elem.
  - apply elem_of_cons in Hin as [Heq|Hin].
    + injection Heq as -> ->. by rewrite decide_True.
    + assert (Raise e = Return content) as Habs; [|done].
      apply IH; [done|]. intros c' Hc'. apply Huniq. by right.
  - apply elem_of_cons in Hin as [Heq|Hin].
    + injection Heq as -> ->. by rewrite decide_True.
    + assert (OutOfDraws = Return content) as Habs; [|done].
      apply IH; [done|]. intros c' Hc'. apply Huniq. by right.
Qed.

Lemma constraint_entries_fields self l c :
  constraint_entries self l c =
    (λ f, (entry_name (json_dumps_label l) f.1, f.2)) <$> fields self l c.
Proof. reflexivity. Qed.

Lemma fields_functional self l c f x y :
  (f, x) ∈ fields self l c → (f, y) ∈ fields self l c → x = y.
Proof.
  unfold fields. rewrite !elem_of_cons, !elem_of_nil.
  intros [[= -> ->]|[[= -> ->]|[[= -> ->]|[[= -> ->]|[]]]]]
         [[= <-]|[[= <-]|[[= <-]|[[= <-]|[]]]]]; done.
Qed.

(** ** Decoding what [to_file] wrote *)

Section Decoding.

Context (M : ConstrainedQuadraticModel).
Context (Hfaithful : codec_faithful_on M) (Hdirs : label_dirs_ok M).
Context (Hkeys : NoDup (constraints M).*1).

Lemma key_of_constraint l c : (l, c) ∈ constraints M → l ∈ (constraints M).*1.
Proof using Type. intros Hin. apply list_elem_of_fmap. by exists (l, c). Qed.

Lemma constraint_functional l c c' :
  (l, c) ∈ constraints M → (l, c') ∈ constraints M → c = c'.
Proof using Hkeys.
  intros H1%(dict_get_elem _ _ _ Hkeys) H2%(dict_get_elem _ _ _ Hkeys). congruence.
Qed.

Lemma json_dumps_label_inj l1 c1 l2 c2 :
  (l1, c1) ∈ constraints M → (l2, c2) ∈ constraints M →
  json_dumps_label l1 = json_dumps_label l2 → l1 = l2.
Proof using Hfaithful.
  destruct Hfaithful as (_&_&_&Hc&_).
  intros (_&_&H1)%Hc (_&_&H2)%Hc Heq. rewrite Heq in H1. congruence.
Qed.

Lemma archive_entry_inv name content :
  (name, content) ∈ archive_entries M →
  (name = "objective"%string ∧ content = Model_to_file (objective M)) ∨
  ∃ l c f, (l, c) ∈ constraints M ∧ (f, content) ∈ fields M l c ∧
           name = entry_name (json_dumps_label l) f.
Proof using Type.
  unfold archive_entries. rewrite elem_of_cons, list_elem_of_join.
  intros [[= -> ->]|(es&Hin&Hes)]; [by left|right].
  apply list_elem_of_fmap in Hes as ([l c]&->&Hlc). cbn [fst snd] in Hin.
  rewrite constraint_entries_fields in Hin.
  apply list_elem_of_fmap in Hin as ([f x]&[= -> ->]&Hf).
  by exists l, c, f.
Qed.

Lemma archive_entry_field l c f content :
  (l, c) ∈ constraints M → (f, content) ∈ fields M l c →
  (entry_name (json_dumps_label l) f, content) ∈ archive_entries M.
Proof using Type.
  intros Hlc Hf. unfold archive_entries. right. apply list_elem_of_join.
  exists (constraint_entries M l c). split.
  - rewrite constraint_entries_fields. apply list_elem_of_fmap. by exists (f, content).
  - apply list_elem_of_fmap. by exists (l, c).
Qed.

Lemma zf_read_objective :
  zf_read (archive_entries M) "objective" = Return (Model_to_file (objective M)).
Proof using Type.
  apply zf_read_unique; [by left|].
  intros content' [[_ ->]|(l&c&f&_&_&Hname)]%archive_entry_inv; [done|].
  by unfold entry_name in Hname.
Qed.

Lemma zf_read_field l c f content :
  (l, c) ∈ constraints M → (f, content) ∈ fields M l c →
  zf_read (archive_entries M) (entry_name (json_dumps_label l) f) = Return content.
Proof using Hfaithful Hdirs Hkeys.
  intros Hlc Hf. apply zf_read_unique; [by apply (archive_entry_field l c)|].
  intros content' [[Hname _]|(l'&c'&f'&Hlc'&Hf'&Hname)]%archive_entry_inv.
  { by unfold entry_name in Hname. }
  pose proof (proj2 (Hdirs l (key_of_constraint l c Hlc))) as Hns.
  pose proof (proj2 (Hdirs l' (key_of_constraint l' c' Hlc'))) as Hns'.
  destruct (entry_name_inj _ _ _ _ Hns Hns' Hname) as [Hl <-].
  assert (l = l') as <- by (by eapply json_dumps_label_inj).
  assert (c = c') as <- by (by eapply constraint_functional).
  by eapply fields_functional.
Qed.

(** The directory names that [from_file] collects. *)
Lemma constraint_dirs x :
  x ∈ omap re_match_constraints (archive_entries M).*1 ↔
  ∃ l c, (l, c) ∈ constraints M ∧ x = json_dumps_label l.
Proof using Hdirs.
  rewrite list_elem_of_omap. split.
  - intros (name&Hname&Hm).
    apply list_elem_of_fmap in Hname as ([n content]&->&Hin). cbn [fst] in Hm.
    apply archive_entry_inv in Hin as [[-> _]|(l&c&f&Hlc&_&->)]; [done|].
    rewrite re_match_entry_name in Hm by (by eapply Hdirs, (key_of_constraint l c)).
    injection Hm as <-. eauto.
  - intros (l&c&Hlc&->). exists (entry_name (json_dumps_label l) "lhs"). split.
    + apply list_elem_of_fmap. eexists (_, _). split; [done|].
      apply (archive_entry_field l c); [done|]. by left.
    + apply re_match_entry_name. by eapply Hdirs, (key_of_constraint l c).
Qed.

End Decoding.

Lemma decode_ascii_Sense_value s :
  decode_ascii (encode_ascii (Sense_value s)) = Return (Sense_value s).
Proof. by destruct s; vm_compute. Qed.

Lemma any_byte_bytes_of_bool flag : any_byte (bytes_of_bool flag) = flag.
Proof. by destruct flag; vm_compute. Qed.

Lemma as_Sense_value s : as_Sense (inr (Sense_value s)) = Return s.
Proof. by destruct s. Qed.


Lemma dict_get_same_elements {V} (d1 d2 : list (Hashable * V)) k :
  NoDup d1.*1 → NoDup d2.*1 → (∀ e, e ∈ d1 ↔ e ∈ d2) →
  dict_get d1 k = dict_get d2 k.
Proof.
  intros H1 H2 Heq. destruct (dict_get d1 k) as [x|] eqn:E1.
  - symmetry. apply dict_get_elem; [done|]. by apply Heq, dict_get_Some_elem.
  - destruct (dict_get d2 k) as [y|] eqn:E2; [|done].
    apply dict_get_Some_elem, Heq, (dict_get_elem _ _ _ H1) in E2. congruence.
Qed.

Section Loading.

Context (M : ConstrainedQuadraticModel).
Context (Hfaithful : codec_faithful_on M) (Hdirs : label_dirs_ok M).
Context (Hkeys : NoDup (constraints M).*1).
Context (Hok : registry_ok (variables M)) (Hcons : consistent M).

Lemma lhs_in_expressions l c : (l, c) ∈ constraints M → lhs c ∈ expressions M.
Proof using Type.
  intros Hin. unfold expressions. right.
  apply list_elem_of_fmap. exists c. split; [done|].
  apply list_elem_of_fmap. by exists (l, c).
Qed.

Lemma load_constraint_spec m l c :
  (l, c) ∈ constraints M → l ∉ (constraints m).*1 →
  registry_ok (variables m) → below (variables M) (variables m) →
  load_constraint (archive_entries M) (json_dumps_label l) m =
    (Return tt, decode_step M m (l, c)).
Proof using Hfaithful Hdirs Hkeys Hcons.
  intros Hlc Hfresh Hokm Hbelow.
  destruct Hfaithful as (_&_&_&Hc&_). destruct (Hc l c Hlc) as (Hload&Hfloat&Hlabel).
  unfold load_constraint.
  change ("constraints/" +:+ json_dumps_label l +:+ "/lhs")
    with (entry_name (json_dumps_label l) "lhs").
  change ("constraints/" +:+ json_dumps_label l +:+ "/rhs")
    with (entry_name (json_dumps_label l) "rhs").
  change ("constraints/" +:+ json_dumps_label l +:+ "/sense")
    with (entry_name (json_dumps_label l) "sense").
  change ("constraints/" +:+ json_dumps_label l +:+ "/discrete")
    with (entry_name (json_dumps_label l) "discrete").
  assert (∀ f content, (f, content) ∈ fields M l c →
            zf_read (archive_entries M) (entry_name (json_dumps_label l) f)
              = Return content) as Hread.
  { intros f content. by apply (zf_read_field M Hfaithful Hdirs Hkeys). }
  unfold bind at 1. unfold lift_outcome at 1.
  rewrite (Hread "lhs"%string (Model_to_file (lhs c)))
    by (unfold fields; repeat constructor).
  cbv beta iota. unfold bind at 1. unfold lift_outcome at 1.
  rewrite Hload.
  cbv beta iota. unfold bind at 1. unfold lift_outcome at 1.
  rewrite (Hread "rhs"%string (float64_tobytes (rhs c)))
    by (unfold fields; repeat constructor).
  cbv beta iota. unfold bind at 1. unfold lift_outcome at 1.
  rewrite Hfloat.
  cbv beta iota. unfold bind at 1. unfold lift_outcome at 1.
  rewrite (Hread "sense"%string (encode_ascii (Sense_value (sense c))))
    by (unfold fields; repeat constructor).
  cbv beta iota. unfold bind at 1. unfold lift_outcome at 1.
  rewrite decode_ascii_Sense_value.
  cbv beta iota. unfold bind at 1. unfold lift_outcome at 1.
  rewrite (Hread "discrete"%string (bytes_of_bool (bool_decide (l ∈ discrete M))))
    by (unfold fields; repeat constructor).
  cbv beta iota. unfold bind at 1. unfold lift_outcome at 1.
  rewrite Hlabel.
  cbv beta iota. rewrite any_byte_bytes_of_bool.
  unfold bind at 1. unfold add_constraint.
  rewrite add_constraint_from_model_spec, as_Sense_value.
  cbn [choose_label]. rewrite decide_False by done.
  destruct (register_all_below (variables M) (variables m) (registrations (lhs c)))
    as [Hreg _]; [done|done|by eapply Hcons, lhs_in_expressions|].
  rewrite Hreg. rewrite dict_set_fresh by done.
  unfold decode_step. cbn [fst snd].
  destruct c as [qm sn rh]. cbn [lhs sense rhs].
  destruct (decide (l ∈ discrete M)) as [Hd|Hd].
  - rewrite bool_decide_eq_true_2 by done. reflexivity.
  - rewrite bool_decide_eq_false_2 by done. reflexivity.
Qed.

Lemma decode_step_invariants m l c :
  (l, c) ∈ constraints M →
  registry_ok (variables m) → below (variables M) (variables m) → consistent m →
  registry_ok (variables (decode_step M m (l, c))) ∧
  below (variables M) (variables (decode_step M m (l, c))) ∧
  consistent (decode_step M m (l, c)).
Proof using Hcons.
  intros Hlc Hokm Hbelow Hconsm.
  destruct (register_all_below (variables M) (variables m) (registrations (lhs c)))
    as [Hreg Hb]; [done|done|by eapply Hcons, lhs_in_expressions|].
  unfold decode_step. cbn [fst snd variables].
  split; [by apply registry_after_ok|]. split; [done|].
  by apply consistent_add_constraint.
Qed.

Lemma decode_loop ord m :
  (∀ e, e ∈ ord → e ∈ constraints M) → NoDup ord.*1 →
  (∀ l, l ∈ ord.*1 → l ∉ (constraints m).*1) →
  registry_ok (variables m) → below (variables M) (variables m) → consistent m →
  for_each ((λ e, json_dumps_label e.1) <$> ord)
    (load_constraint (archive_entries M)) m
    = (Return tt, foldl (decode_step M) m ord) ∧
  registry_ok (variables (foldl (decode_step M) m ord)) ∧
  consistent (foldl (decode_step M) m ord).
Proof using Hfaithful Hdirs Hkeys Hcons.
  revert m. induction ord as [|[l c] ord IH]; intros m Hin Hnd Hfresh Hokm Hbelow Hconsm.
  - done.
  - cbn [fmap list_fmap for_each foldl fst].
    apply NoDup_cons in Hnd as [Hl Hnd].
    assert ((l, c) ∈ constraints M) as Hlc by (apply Hin; by left).
    unfold bind. rewrite (load_constraint_spec m l c); [|done| |done|done].
    2:{ apply Hfresh. by left. }
    destruct (decode_step_invariants m l c) as (Hok1&Hb1&Hc1); [done..|].
    apply IH; [|done| |done..].
    + intros e He. apply Hin. by right.
    + intros l' Hl'. cbn [decode_step constraints]. rewrite fmap_app.
      cbn. rewrite elem_of_app, list_elem_of_singleton.
      intros [Hc|Hc]; [|by subst]. revert Hc. apply Hfresh. by right.
Qed.

(** The directories, in whatever order, are those of constraints of [M]. *)
Lemma dirs_to_constraints names :
  NoDup names →
  (∀ x, x ∈ names → ∃ l c, (l, c) ∈ constraints M ∧ x = json_dumps_label l) →
  ∃ ord, names = (λ e, json_dumps_label e.1) <$> ord ∧
         (∀ e, e ∈ ord → e ∈ constraints M) ∧ NoDup ord.*1.
Proof using Type.
  induction names as [|x names IH]; intros Hnd Hall.
  - exists []. split; [done|]. split; [by intros ? ?%elem_of_nil|constructor].
  - apply NoDup_cons in Hnd as [Hx Hnd].
    destruct IH as (ord&->&Hin&Hnd'); [done|intros; apply Hall; by right|].
    destruct (Hall x) as (l&c&Hlc&->); [by left|].
    exists ((l, c) :: ord). split; [done|]. split.
    + intros e [->|He]%elem_of_cons; [done|by apply Hin].
    + cbn. apply NoDup_cons. split; [|done].
      intros (e&Hl&He)%list_elem_of_fmap. apply Hx.
      apply list_elem_of_fmap. exists e. split; [|done]. by rewrite Hl.
Qed.

Lemma foldl_decode_step ord m :
  objective (foldl (decode_step M) m ord) = objective m ∧
  constraints (foldl (decode_step M) m ord) = constraints m ++ ord ∧
  (∀ x, x ∈ discrete (foldl (decode_step M) m ord) ↔
        x ∈ discrete m ∨ (x ∈ ord.*1 ∧ x ∈ discrete M)) ∧
  (∀ v, v ∈ labels (variables (foldl (decode_step M) m ord)) →
        v ∈ labels (variables m) ∨ ∃ e, e ∈ ord ∧ v ∈ model_variables (lhs e.2)).
Proof using Type.
  revert m. induction ord as [|[l c] ord IH]; intros m.
  - cbn. rewrite app_nil_r. split; [done|]. split; [done|]. split; [|by left].
    intros x. rewrite elem_of_nil. split; [by left|by intros [?|[[] ?]]].
  - cbn [foldl]. destruct (IH (decode_step M m (l, c))) as (Ho&Hcs&Hd&Hv).
    split; [done|].
    split; [rewrite Hcs; cbn [decode_step constraints]; by rewrite <- app_assoc|].
    split.
    + intros x. rewrite Hd. cbn [decode_step discrete fst fmap list_fmap].
      rewrite elem_of_cons.
      destruct (decide (l ∈ discrete M)) as [Hl|Hl].
      * rewrite elem_of_union, elem_of_singleton. split; [|intros [?|[[->|?] ?]]; auto].
        intros [[->|?]|[? ?]]; auto.
      * split; [intros [?|[? ?]]; auto|].
        intros [?|[[->|?] ?]]; auto. done.
    + intros v [Hin|(e&He&Hin)]%Hv.
      * cbn [decode_step variables snd] in Hin.
        apply registry_after_labels in Hin as [?|Hin]; [by left|].
        rewrite registrations_labels in Hin. right. exists (l, c).
        split; [by left|done].
      * right. exists e. split; [by right|done].
Qed.

End Loading.

(* ===================================================================== *)
(** * The claims about the codec *)
(* ===================================================================== *)

(** C7. When the header of a blob reads with a major version of 2 or more,
    [from_file] raises the unsupported-version error; this holds for every
    zip reader and every other collaborator, so nothing of the archive
    decides the outcome. A header with major version 1 passes the test:
    [from_file] is then the reading of the archive. *)
Theorem C7_version_gate (fp : bytes) (header_info : HeaderInfo) :
  read_header fp CQM_MAGIC_PREFIX = Return header_info →
  ((2 ≤ (version header_info).1)%nat →
   from_file fp = Raise (ValueError cannot_load_version) ∧
   error_kind (ValueError cannot_load_version) = FormatVersionUnsupported) ∧
  ((version header_info).1 = 1%nat → from_file fp = read_archive fp).
Proof.
  intros Hh. unfold from_file. rewrite Hh. unfold tuple_ge.
  destruct (version header_info) as [major minor]. cbn [fst snd]. split.
  - intros Hmajor. split; [|done].
    destruct (decide (major = 2%nat)) as [->|Hne].
    + cbn. done.
    + replace (2 <? major)%nat with true; [done|].
      symmetry. apply Nat.ltb_lt. lia.
  - intros ->. done.
Qed.

(** C10. A model built by [from_file] has an empty [_discrete], whatever
    the file marks as discrete. So a later [add_discrete] whose variables
    all belong to one decoded discrete group (and are registered BINARY)
    returns: it records a second group over those variables, and the
    groups of the model are then no longer disjoint. *)
Theorem C10_decoded_groups_unprotected (fp : bytes) (cqm : ConstrainedQuadraticModel) :
  from_file fp = Return cqm →
  _discrete cqm = ∅ ∧
  ∀ vs label draws l0 c l,
    l0 ∈ discrete cqm → dict_get (constraints cqm) l0 = Some c →
    (∀ v, v ∈ vs → v ∈ model_variables (lhs c) ∧
                   vartype (variables cqm) v = Return BINARY) →
    choose_label label draws (constraints cqm) = Return l →
    ∃ m', add_discrete vs label draws cqm = (Return l, m') ∧
          l ∈ discrete m' ∧ (∀ v, v ∈ vs → v ∈ _discrete m') ∧
          (vs ≠ [] → ¬ groups_disjoint m').
Proof.
  intros (zf&_&Hload)%from_file_Return.
  assert (_discrete cqm = ∅) as Hempty.
  { pose proof (load_archive_discrete_kept zf CQM) as Hd.
    rewrite Hload in Hd. exact Hd. }
  split; [done|].
  intros vs label draws l0 c l Hl0 Hc Hvs Hl.
  assert (Forall (discrete_ok cqm) vs) as Hok.
  { apply Forall_forall. intros v Hv%Hvs. split.
    - rewrite Hempty. apply not_elem_of_empty.
    - intros _. apply Hv. }
  eexists. split; [by apply add_discrete_Return|].
  cbn [discrete _discrete]. split; [tidy_set_solver|]. split.
  { intros v Hv. apply elem_of_union. left. by apply elem_of_list_to_set. }
  intros Hne Hdj. destruct vs as [|v vs]; [done|].
  pose proof (choose_label_Return _ _ _ _ Hl) as Hfresh.
  assert (l0 ≠ l) as Hll.
  { intros ->. apply Hfresh. apply dict_get_Some_elem in Hc.
    apply list_elem_of_fmap. by exists (l, c). }
  apply Hll.
  apply (Hdj l0 l (model_variables (lhs c))
           (model_variables (BQM (one_hot (v :: vs)))) v).
  - apply group_Some. cbn [discrete constraints]. split; [tidy_set_solver|].
    exists c. split; [|done]. rewrite dict_get_app_fresh by done.
    by rewrite decide_False.
  - apply group_Some. cbn [discrete constraints]. split; [tidy_set_solver|].
    exists (mkComparison (BQM (one_hot (v :: vs))) Eq bias_one). split; [|done].
    rewrite dict_get_app_fresh by done. by rewrite decide_True.
  - apply Hvs. by left.
  - apply one_hot_variables. by left.
Qed.

(** C1, as the code has it. Let [M] be a model built through the facade,
    on which the collaborators do their part, and whose constraint labels
    have directory names without [/]. Then [from_file (to_file M)] returns a
    model with the objective of [M], the constraints of [M] under the same
    labels (same left-hand side, sense and right-hand side), the discrete
    labels of [M], and a registry that holds exactly the variables of the
    objective and of the constraints of [M], each with the vartype it has in
    [M] and, for a vartype other than BINARY and SPIN, with the bounds it has
    in [M]. Variables of [M] that no expression uses are not in the file. *)
Theorem C1_round_trip (M : ConstrainedQuadraticModel) :
  reachable M → codec_faithful_on M → label_dirs_ok M →
  ∃ M', from_file (to_file M) = Return M' ∧
        objective M' = objective M ∧
        (∀ l, dict_get (constraints M') l = dict_get (constraints M) l) ∧
        discrete M' = discrete M ∧
        (∀ v, used M v →
           vartype (variables M') v = vartype (variables M) v ∧
           (∀ t, vartype (variables M) v = Return t → t ≠ BINARY → t ≠ SPIN →
              lower_bounds (variables M') !! v = lower_bounds (variables M) !! v ∧
              upper_bounds (variables M') !! v = upper_bounds (variables M) !! v)) ∧
        (∀ v, ¬ used M v → v ∉ labels (variables M')).
Proof.
  intros Hreach Hfaithful Hdirs.
  pose proof (reachable_labels_NoDup M Hreach) as Hkeys.
  pose proof (reachable_registry_ok M Hreach) as Hok.
  pose proof (reachable_consistent M Hreach) as Hcons.
  pose proof (reachable_discrete_inv M Hreach) as [Hclaimed _].
  pose proof Hfaithful as ((info&Hh&Hv)&Hzip&Hobj&Hc&Hset).
  set (names := set_iter (omap re_match_constraints (archive_entries M).*1)).
  destruct (Hset (omap re_match_constraints (archive_entries M).*1)) as [Hnd Hel].
  fold names in Hnd, Hel.
  destruct (dirs_to_constraints M names Hnd) as (ord&Hnames&Hord&Hordnd).
  { intros x Hx%Hel. by apply (constraint_dirs M Hdirs). }
  (* the objective is registered into the empty registry *)
  destruct (register_all_below (variables M) TypedVariables_init
              (registrations (objective M)))
    as [Hreg0 Hb0]; [apply registry_ok_init|apply below_init| |].
  { apply Hcons. by left. }
  set (r0 := registry_after (registrations (objective M)) TypedVariables_init) in *.
  set (m0 := mkCQM (objective M) [] r0 ∅ ∅).
  assert (registry_ok (variables m0)) as Hok0
    by apply registry_after_ok, registry_ok_init.
  assert (consistent m0) as Hcons0.
  { intros e [->|He%elem_of_nil]%elem_of_cons; [|done]. cbn.
    eapply register_all_Return_agrees; [apply registry_ok_init|done]. }
  destruct (decode_loop M Hfaithful Hdirs Hkeys Hcons ord m0)
    as (Hloop&Hokf&Hconsf); [done|done|by intros ? _ ?%elem_of_nil|done|done|done|].
  destruct (foldl_decode_step M ord m0) as (Hfo&Hfc&Hfd&Hfv).
  set (M' := foldl (decode_step M) m0 ord) in *.
  cbn [m0 objective constraints discrete variables app] in Hfo, Hfc, Hfd, Hfv.
  (* every constraint of M is loaded *)
  assert (Hsame : ∀ e, e ∈ ord ↔ e ∈ constraints M).
  { intros [l c]. split; [apply Hord|]. intros Hlc.
    assert (json_dumps_label l ∈ names) as Hin.
    { apply Hel, (constraint_dirs M Hdirs). eauto. }
    rewrite Hnames in Hin. apply list_elem_of_fmap in Hin as ([l' c']&Heq&Hin).
    cbn in Heq. pose proof (Hord _ Hin) as Hlc'.
    assert (l = l') as <- by (by eapply (json_dumps_label_inj M Hfaithful)).
    by rewrite (constraint_functional M Hkeys l c c'). }
  assert (Hexpr : ∀ e, e ∈ expressions M' ↔ e ∈ expressions M).
  { intros e. unfold expressions. rewrite Hfo, Hfc, !elem_of_cons.
    rewrite !list_elem_of_fmap.
    split; intros [?|(c&->&Hc')]; [by left| |by left|]; right; exists c;
      (split; [done|]); apply list_elem_of_fmap in Hc' as ([l c']&->&Hin);
      apply list_elem_of_fmap; exists (l, c'); (split; [done|]); by apply Hsame. }
  exists M'. split; [|split; [done|split; [|split; [|split]]]].
  - unfold from_file. rewrite Hh, Hv. cbn [tuple_ge fst snd Nat.ltb Nat.leb Nat.eqb orb andb].
    unfold read_archive. rewrite Hzip. unfold load_archive.
    unfold bind at 1. unfold lift_outcome at 1. rewrite zf_read_objective.
    cbv beta iota. unfold bind at 1. unfold lift_outcome at 1. rewrite Hobj.
    cbv beta iota. unfold bind at 1. rewrite set_objective_spec.
    cbn [CQM variables constraints discrete _discrete]. rewrite Hreg0.
    cbv beta iota zeta. fold names. rewrite Hnames.
    fold m0. by rewrite Hloop.
  - intros l. rewrite Hfc. apply dict_get_same_elements; [done|done|done].
  - apply set_eq. intros x. rewrite Hfd. split.
    + intros [?%not_elem_of_empty|[_ ?]]; done.
    + intros Hx. right. split; [|done].
      destruct (Hclaimed x Hx) as (c&Hget&_).
      apply dict_get_Some_elem, Hsame in Hget.
      apply list_elem_of_fmap. by exists (x, c).
  - intros v (e&He&Hve).
    rewrite <- registrations_labels in Hve.
    apply list_elem_of_fmap in Hve as ([[[vt u] lb] ub]&->&Hreg). cbn [fst snd].
    pose proof (Hcons e He) as HM. pose proof (Hconsf e (proj2 (Hexpr e) He)) as HM'.
    rewrite Forall_forall in HM, HM'.
    destruct (HM _ Hreg) as [Hvt Hbd]. destruct (HM' _ Hreg) as [Hvt' Hbd'].
    split; [congruence|].
    intros t Ht H1 H2. assert (t = vt) as -> by congruence.
    destruct (registrations_bounded e vt u lb ub Hreg H1 H2) as [[b ->] [b' ->]].
    destruct (Hbd H1 H2) as [Hlo Hup]. destruct (Hbd' H1 H2) as [Hlo' Hup'].
    by rewrite (Hlo b), (Hlo' b), (Hup b'), (Hup' b').
  - intros v Hunused Hin.
    apply Hunused. apply Hfv in Hin as [Hin|(e&He&Hin)].
    + subst r0. apply registry_after_labels in Hin as [Hin%elem_of_nil|Hin]; [done|].
      rewrite registrations_labels in Hin. exists (objective M). split; [by left|done].
    + exists (lhs e.2). split; [|done]. destruct e as [l c].
      apply (lhs_in_expressions M l c). by apply Hord.
Qed.

(* ===================================================================== *)
(** * The claim about failed calls *)
(* ===================================================================== *)

Lemma registry_error_kind e :
  registry_error e → error_kind e = TypeConflict ∨ error_kind e = BoundConflict.
Proof. intros [->|[->| ->]]; cbn; auto. Qed.

Lemma register_labels c r : c.1.1.2 ∈ labels (register c r).2.
Proof.
  destruct c as [[[vt v] lb] ub]. cbn.
  destruct (_append_state r vt v lb ub) as [[Hv ->]|(Hv&->&_)]; [|done].
  cbn. apply elem_of_app. right. by apply list_elem_of_singleton.
Qed.

Lemma registry_after_registered cs r c :
  c ∈ cs → c.1.1.2 ∈ labels (registry_after cs r).
Proof.
  revert r. induction cs as [|c' cs IH]; intros r Hc; [by apply elem_of_nil in Hc|].
  change (registry_after (c' :: cs) r) with (registry_after cs (register c' r).2).
  apply elem_of_cons in Hc as [->|Hc]; [|by apply IH].
  destruct (registry_after_labels_prefix cs (register c' r).2) as [k ->].
  apply elem_of_app. left. apply register_labels.
Qed.

Lemma register_all_Raise cs r e r' :
  register_all cs r = (Raise e, r') →
  ∃ k c, cs !! k = Some c ∧
         register_all (take k cs) r = (Return tt, registry_after (take k cs) r) ∧
         register c (registry_after (take k cs) r) = (Raise e, r').
Proof.
  revert r. induction cs as [|c cs IH]; intros r; [done|].
  rewrite register_all_cons. destruct (register c r) as [[l| |] r1] eqn:E.
  - intros (k&c'&Hk&Htake&Hc')%IH. exists (S k), c'. split; [done|].
    cbn [take]. rewrite register_all_cons.
    change (registry_after (c :: ?cs) r) with (registry_after cs (register c r).2).
    by rewrite E.
  - intros [= <- <-]. exists 0%nat, c. by rewrite take_0.
  - done.
Qed.

Lemma as_Sense_Raise sn e : as_Sense sn = Raise e → e = ValueError invalid_sense.
Proof.
  destruct sn as [s|str]; cbn; [done|].
  destruct (Sense_of_value str); [done|]. by intros [= <-].
Qed.

Lemma take_registrations_labels k e :
  (λ c : Registration, c.1.1.2) <$> take k (registrations e) = take k (model_variables e).
Proof. by rewrite fmap_take, registrations_labels. Qed.

(** C2, as the code has it. A failed [add_discrete] leaves the model as it
    was. A failed [add_constraint_from_model] leaves the objective, the
    constraints and the discrete groups as they were, and the registry
    keeps every label, vartype and bound it had. When the failure is the
    sense or the duplicate label, the whole model is unchanged. When it is
    a vartype or bound conflict, it is the conflict of the first variable
    of the expression, in its order, whose registration fails, at some
    position [k]: the registry is the one that registering the [k]
    variables before it leaves, up to a bound the failing registration
    fixed; so these [k] variables stay registered, with the vartype and
    the bounds the expression gives them, the labels of the registry are
    those it had and these [k] variables, and the model is not the one
    before the call when one of them was not registered. *)
Theorem C2_failed_calls (calls : list Call) :
  let m := model_after calls CQM in
  (∀ vs label draws e m',
     add_discrete vs label draws m = (Raise e, m') → m' = m) ∧
  (∀ qm sn rh label copy draws e m',
     add_constraint_from_model qm sn rh label copy draws m = (Raise e, m') →
     objective m' = objective m ∧ constraints m' = constraints m ∧
     discrete m' = discrete m ∧ _discrete m' = _discrete m ∧
     (error_kind e = DuplicateLabel → m' = m) ∧
     labels (variables m) `prefix_of` labels (variables m') ∧
     (∀ u t, vartype (variables m) u = Return t → vartype (variables m') u = Return t) ∧
     (∀ u b, lower_bounds (variables m) !! u = Some b →
             lower_bounds (variables m') !! u = Some b) ∧
     (∀ u b, upper_bounds (variables m) !! u = Some b →
             upper_bounds (variables m') !! u = Some b) ∧
     (((e = ValueError invalid_sense ∨ e = ValueError label_exists) ∧ m' = m) ∨
      ∃ k vt v lb ub,
        (error_kind e = TypeConflict ∨ error_kind e = BoundConflict) ∧
        registrations qm !! k = Some (vt, v, lb, ub) ∧
        register_all (take k (registrations qm)) (variables m) =
          (Return tt, registry_after (take k (registrations qm)) (variables m)) ∧
        _append vt v lb ub (registry_after (take k (registrations qm)) (variables m)) =
          (Raise e, variables m') ∧
        (∀ u, u ∈ labels (variables m') ↔
              u ∈ labels (variables m) ∨ u ∈ take k (model_variables qm)) ∧
        (∀ vt' u lb' ub',
           (vt', u, lb', ub') ∈ take k (registrations qm) →
           vartype (variables m') u = Return vt' ∧
           (vt' ≠ BINARY → vt' ≠ SPIN →
            (∀ b, lb' = Some b → lower_bounds (variables m') !! u = Some b) ∧
            (∀ b, ub' = Some b → upper_bounds (variables m') !! u = Some b))) ∧
        ((∃ u, u ∈ take k (model_variables qm) ∧ u ∉ labels (variables m)) → m' ≠ m))).
Proof.
  intros m.
  assert (reachable m) as Hm by apply model_after_reachable, reachable_init.
  pose proof (reachable_registry_ok m Hm) as Hok. destruct Hok as [Hwf Hbr].
  split.
  - intros vs label draws e m'. rewrite add_discrete_spec.
    destruct label as [l|].
    + case_decide; [by intros [= _ <-]|]. by intros [? _]%add_discrete_body_Raise.
    + by intros [? _]%add_discrete_body_Raise.
  - intros qm sn rh label copy draws e m'.
    rewrite add_constraint_from_model_spec.
    assert (∀ r0 : TypedVariables, r0 = variables m →
      objective m = objective m ∧ constraints m = constraints m ∧
      discrete m = discrete m ∧ _discrete m = _discrete m ∧
      (error_kind e = DuplicateLabel → m = m) ∧
      labels (variables m) `prefix_of` labels (variables m) ∧
      (∀ u t, vartype (variables m) u = Return t → vartype (variables m) u = Return t) ∧
      (∀ u b, lower_bounds (variables m) !! u = Some b →
              lower_bounds (variables m) !! u = Some b) ∧
      (∀ u b, upper_bounds (variables m) !! u = Some b →
              upper_bounds (variables m) !! u = Some b)) as Hsame by done.
    destruct (as_Sense sn) as [s|e0|] eqn:Hs; [| |done].
    2:{ intros [= <- <-]. apply as_Sense_Raise in Hs as ->.
        destruct (Hsame _ eq_refl) as (?&?&?&?&?&?&?&?&?).
        do 9 (split; [done|]). left. split; [by left|done]. }
    destruct (choose_label label draws (constraints m)) as [l|e0|] eqn:Hl; [| |done].
    2:{ intros [= <- <-]. apply choose_label_Raise in Hl as [-> _].
        destruct (Hsame _ eq_refl) as (?&?&?&?&?&?&?&?&?).
        do 9 (split; [done|]). left. split; [by right|done]. }
    pose proof (register_all_outcome (registrations qm) (variables m) Hwf) as Hout.
    destruct (register_all_state (registrations qm) (variables m)) as [k0 Hk0].
    destruct (register_all (registrations qm) (variables m)) as [[[]| |] r] eqn:Hr;
      [done| |done].
    cbn in Hout, Hk0. intros [= <- <-].
    cbn [set_variables objective constraints discrete _discrete variables].
    do 4 (split; [done|]).
    destruct Hout as [?|(e'&[= <-]&Herr)]; [done|].
    split; [intros Hkind; by destruct Herr as [->|[->| ->]]|].
    split; [subst r; apply registry_after_labels_prefix|].
    split; [subst r; intros u t; apply registry_after_vartype_kept|].
    split; [subst r; intros u b; by apply registry_after_lower_kept|].
    split; [subst r; intros u b; by apply registry_after_upper_kept|].
    right. clear k0 Hk0.
    apply register_all_Raise in Hr as (k&[[[vt v] lb] ub]&Hk&Htake&Hc).
    cbn [register] in Hc. unfold Registration in *.
    set (before := registry_after (take k (registrations qm)) (variables m)) in *.
    assert (registry_ok before) as [Hwf' Hbr'] by (by apply registry_after_ok).
    assert (r = (_append vt v lb ub before).2) as Hr' by (by rewrite Hc).
    assert (labels r = labels before) as Hlabels.
    { destruct (_append_state before vt v lb ub) as [[_ Hnew]|(_&Hl'&_)].
      - unfold Registration in *. congruence.
      - by rewrite Hr'. }
    assert (∀ u, u ∈ labels r ↔
                 u ∈ labels (variables m) ∨ u ∈ take k (model_variables qm)) as Hiff.
    { intros u. rewrite Hlabels. rewrite <- take_registrations_labels. split.
      - apply registry_after_labels.
      - intros [Hu|Hu].
        + destruct (registry_after_labels_prefix (take k (registrations qm)) (variables m))
            as [rest Hrest]. subst before. rewrite Hrest. apply elem_of_app. by left.
        + apply list_elem_of_fmap in Hu as (c&->&Hcin).
          by apply registry_after_registered. }
    exists k, vt, v, lb, ub.
    split; [by apply registry_error_kind|]. split; [done|]. split; [done|].
    split; [done|]. split; [done|]. split.
    + intros vt' u lb' ub' Hin.
      pose proof (register_all_Return_agrees _ _ _ (conj Hwf Hbr) Htake) as Hag.
      rewrite Forall_forall in Hag. destruct (Hag _ Hin) as [Hvt Hbounds].
      rewrite Hr'. split; [by apply _append_vartype_kept|].
      intros H1 H2. destruct (Hbounds H1 H2) as [Hlo Hup]. split.
      * intros b Hb. apply _append_lower_kept; [done|]. by apply Hlo.
      * intros b Hb. apply _append_upper_kept; [done|]. by apply Hup.
    + intros (u&Hu&Hnew) Heq. apply Hnew.
      assert (u ∈ labels r) as Hur by (apply Hiff; by right).
      apply (f_equal variables) in Heq. cbn in Heq. by rewrite <- Heq.
Qed.

(* ===================================================================== *)
(** * Further properties of the registry *)
(* ===================================================================== *)

Lemma _append_labels_NoDup r vt v lb ub :
  NoDup (labels r) → NoDup (labels (_append vt v lb ub r).2).
Proof.
  intros Hnd. destruct (_append_state r vt v lb ub) as [[Hv ->]|(_&->&_)]; [|done].
  cbn. apply NoDup_app. split; [done|]. split; [|apply NoDup_singleton].
  by intros x Hx ->%list_elem_of_singleton.
Qed.

Lemma registry_after_labels_NoDup cs r :
  NoDup (labels r) → NoDup (labels (registry_after cs r)).
Proof.
  revert r. induction cs as [|[[[vt v] lb] ub] cs IH]; intros r Hnd; [done|].
  cbn. apply IH. by apply _append_labels_NoDup.
Qed.

Lemma index_in_prefix l1 l2 v i :
  l1 `prefix_of` l2 → index_in l1 v = Some i → index_in l2 v = Some i.
Proof.
  intros [k ->]. revert i. induction l1 as [|x l1 IH]; intros i; cbn; [done|].
  case_decide; [done|].
  destruct (index_in l1 v) as [j|] eqn:E; cbn; [|done].
  intros [= <-]. by rewrite (IH j eq_refl).
Qed.

Lemma model_after_snoc calls c m :
  model_after (calls ++ [c]) m = after c (model_after calls m).
Proof. unfold model_after. by rewrite foldl_app. Qed.

(** A relation between a model and the models built from it holds when
    every kind of change keeps it. *)
Lemma model_after_steps (R : ConstrainedQuadraticModel → ConstrainedQuadraticModel → Prop) :
  (∀ m, R m m) →
  (∀ m1 m2 m3, reachable m2 → R m1 m2 → transition m2 m3 → R m1 m3) →
  ∀ calls m, reachable m → R m (model_after calls m).
Proof.
  intros Hrefl Hstep calls m Hm.
  induction calls as [|c calls IH] using rev_ind; [apply Hrefl|].
  rewrite model_after_snoc. eapply Hstep; [|exact IH|apply after_transition].
  by apply model_after_reachable.
Qed.

Lemma registry_after_init_ok regs : registry_ok (registry_after regs TypedVariables_init).
Proof. apply registry_after_ok, registry_ok_init. Qed.

Lemma vartype_Return_index r v t :
  vartype r v = Return t →
  ∃ i, index r v = Some i ∧ labels r !! i = Some v ∧ vartypes r !! i = Some t.
Proof.
  unfold vartype, index. destruct (index_in (labels r) v) as [i|] eqn:E; [|done].
  destruct (vartypes r !! i) as [t'|] eqn:E'; [|done]. intros [= <-].
  exists i. split; [done|]. split; [by apply index_in_lookup|done].
Qed.

(** X1. On a registry filled by registrations, a registration that
    returns, returns the label it was given; the label is then counted
    once, [vartype] returns the vartype that was passed, at the index of
    the label, and a label that was not registered before takes the next
    free index. A known label leaves the two lists as they were. *)
Theorem X1_append_then_lookup (regs : list Registration) (vt : Vartype) (v : Hashable)
    (lb ub : option Bias) (l : Hashable) :
  let r := registry_after regs TypedVariables_init in
  (_append vt v lb ub r).1 = Return l →
  let r' := (_append vt v lb ub r).2 in
  l = v ∧ count r' v = 1%nat ∧ vartype r' v = Return vt ∧
  (∃ i, index r' v = Some i ∧ labels r' !! i = Some v ∧ vartypes r' !! i = Some vt) ∧
  (v ∉ labels r →
   index r' v = Some (length (labels r)) ∧ labels r' = labels r ++ [v]) ∧
  (v ∈ labels r → labels r' = labels r ∧ vartypes r' = vartypes r).
Proof.
  intros r Hret r'.
  pose proof (registry_after_init_ok regs) as [Hwf _]. fold r in Hwf.
  destruct (_append_Return_vartype r vt v lb ub l Hwf Hret) as [-> Hvt]. fold r' in Hvt.
  split; [done|]. split.
  { unfold count. rewrite decide_True; [done|]. by eapply vartype_Return_elem. }
  split; [done|]. split; [by apply vartype_Return_index|].
  subst r'. destruct (_append_state r vt v lb ub) as [[Hv ->]|(Hv&Hl&Ht&_)].
  - split; [|done]. intros _. cbn. split; [|done].
    unfold index. cbn. by apply index_in_app_new.
  - split; [done|]. by intros _.
Qed.

(** X2. In every model built through the facade the registry has no
    label twice, one vartype for each label, [vartype] returns for the
    registered labels and raises for every other, and only registered
    labels have a bound. *)
Theorem X2_registry_well_formed (calls : list Call) :
  let r := variables (model_after calls CQM) in
  NoDup (labels r) ∧ length (vartypes r) = length (labels r) ∧
  (∀ v, v ∈ labels r ↔ ∃ t, vartype r v = Return t) ∧
  (∀ v, v ∉ labels r → ∃ e, vartype r v = Raise e) ∧
  (∀ v, is_Some (lower_bounds r !! v) ∨ is_Some (upper_bounds r !! v) → v ∈ labels r).
Proof.
  intros r. destruct (model_after_variables calls CQM) as [regs Hr].
  change (variables CQM) with TypedVariables_init in Hr. fold r in Hr.
  destruct (registry_after_init_ok regs) as [Hwf Hb]. rewrite <- Hr in Hwf, Hb.
  split; [rewrite Hr; apply registry_after_labels_NoDup; constructor|].
  split; [done|]. split; [|split; [|exact Hb]].
  - intros v. split; [by apply vartype_wf_elem|].
    intros [t Ht]. by eapply vartype_Return_elem.
  - intros v Hv. exists (ValueError library_failure).
    unfold vartype, index. by rewrite (proj1 (index_in_None _ _) Hv).
Qed.

(** X3. No call removes a variable from the registry, moves it to
    another index, changes its vartype, or changes or removes a bound
    that is fixed: whatever calls follow, returning or raising. *)
Theorem X3_registry_only_grows (calls later : list Call) :
  let m := model_after calls CQM in
  let m' := model_after later m in
  labels (variables m) `prefix_of` labels (variables m') ∧
  (∀ v i, index (variables m) v = Some i → index (variables m') v = Some i) ∧
  (∀ v t, vartype (variables m) v = Return t → vartype (variables m') v = Return t) ∧
  (∀ v b, lower_bounds (variables m) !! v = Some b →
          lower_bounds (variables m') !! v = Some b) ∧
  (∀ v b, upper_bounds (variables m) !! v = Some b →
          upper_bounds (variables m') !! v = Some b).
Proof.
  intros m m'. destruct (model_after_variables later m) as [regs Hr]. fold m' in Hr.
  assert (registry_ok (variables m)) as Hok.
  { apply reachable_registry_ok, model_after_reachable, reachable_init. }
  rewrite Hr. split; [apply registry_after_labels_prefix|].
  split; [|split; [|split]].
  - intros v i. apply index_in_prefix, registry_after_labels_prefix.
  - intros v t. apply registry_after_vartype_kept.
  - intros v b. by apply registry_after_lower_kept.
  - intros v b. by apply registry_after_upper_kept.
Qed.

(* ===================================================================== *)
(** * Further properties of the facade *)
(* ===================================================================== *)

Lemma transition_grows m m' :
  transition m m' →
  constraints m `prefix_of` constraints m' ∧
  discrete m ⊆ discrete m' ∧ _discrete m ⊆ _discrete m'.
Proof.
  intros [regs|obj r Hr|l c r Hl Hr|l vs r Hl _ Hr]; cbn.
  - done.
  - done.
  - split; [by eexists|done].
  - split; [by eexists|]. split; tidy_set_solver.
Qed.

(** X4. No call removes or replaces a constraint, and none removes the
    label of a discrete group or a variable claimed by one: the
    constraints keep their order, new ones come after them, and a label
    keeps the constraint it names. *)
Theorem X4_constraints_only_grow (calls later : list Call) :
  let m := model_after calls CQM in
  let m' := model_after later m in
  constraints m `prefix_of` constraints m' ∧
  (∀ l c, dict_get (constraints m) l = Some c → dict_get (constraints m') l = Some c) ∧
  discrete m ⊆ discrete m' ∧ _discrete m ⊆ _discrete m'.
Proof.
  intros m m'.
  assert (reachable m) as Hm by apply model_after_reachable, reachable_init.
  assert (constraints m `prefix_of` constraints m' ∧
          discrete m ⊆ discrete m' ∧ _discrete m ⊆ _discrete m') as (Hp&Hd&Hv).
  { subst m'. revert Hm. generalize m. clear m. intros m Hm.
    apply (model_after_steps
             (λ m m', constraints m `prefix_of` constraints m' ∧
                      discrete m ⊆ discrete m' ∧ _discrete m ⊆ _discrete m'));
      [done| |done].
    intros m1 m2 m3 _ (H1&H2&H3) (H1'&H2'&H3')%transition_grows.
    split; [by etrans|]. split; by etrans. }
  split; [done|]. split; [|done].
  intros l c Hl%dict_get_Some_elem. apply dict_get_elem.
  - by apply reachable_labels_NoDup, model_after_reachable.
  - destruct Hp as [k ->]. apply elem_of_app. by left.
Qed.

(** X5. In every model built through the facade, every variable of the
    objective and of the left-hand side of every constraint is registered,
    with the vartype that expression gives it; for a vartype other than
    SPIN and BINARY the registry holds the bounds the expression gives. *)
Theorem X5_expressions_registered (calls : list Call) :
  let m := model_after calls CQM in
  ∀ e vt v lb ub,
    e ∈ expressions m → (vt, v, lb, ub) ∈ registrations e →
    v ∈ labels (variables m) ∧ vartype (variables m) v = Return vt ∧
    (vt ≠ BINARY → vt ≠ SPIN →
     lower_bounds (variables m) !! v = lb ∧ upper_bounds (variables m) !! v = ub).
Proof.
  intros m e vt v lb ub He Hreg.
  assert (consistent m) as Hc.
  { apply reachable_consistent, model_after_reachable, reachable_init. }
  specialize (Hc e He). rewrite Forall_forall in Hc.
  destruct (Hc _ Hreg) as [Hvt Hb].
  split; [by eapply vartype_Return_elem|]. split; [done|].
  intros H1 H2. destruct (registrations_bounded e vt v lb ub Hreg H1 H2) as [[b ->] [b' ->]].
  destruct (Hb H1 H2) as [Hlo Hup]. by rewrite (Hlo b), (Hup b').
Qed.

Lemma registry_after_model_variables e r v :
  v ∈ model_variables e → v ∈ labels (registry_after (registrations e) r).
Proof.
  rewrite <- registrations_labels. intros (c&->&Hc)%list_elem_of_fmap.
  by apply registry_after_registered.
Qed.

(** X6. [set_objective] leaves the constraints and the discrete groups
    as they are. It returns or raises one of the errors of the registry (a
    vartype or a bound conflict). When it returns, the objective is the
    one given and all its variables are registered; when it raises, the
    objective is the one the model had. *)
Theorem X6_set_objective (calls : list Call) (obj : Model) :
  let m := model_after calls CQM in
  let o := (set_objective obj m).1 in
  let m' := (set_objective obj m).2 in
  constraints m' = constraints m ∧ discrete m' = discrete m ∧ _discrete m' = _discrete m ∧
  (o = Return tt ∨
   ∃ e, o = Raise e ∧ (error_kind e = TypeConflict ∨ error_kind e = BoundConflict)) ∧
  (o = Return tt →
   objective m' = obj ∧ ∀ v, v ∈ model_variables obj → v ∈ labels (variables m')) ∧
  (∀ e, o = Raise e → objective m' = objective m).
Proof.
  intros m o m'. subst o m'.
  assert (registry_ok (variables m)) as [Hwf Hb].
  { apply reachable_registry_ok, model_after_reachable, reachable_init. }
  rewrite set_objective_spec.
  pose proof (register_all_outcome (registrations obj) (variables m) Hwf) as Ho.
  destruct (register_all (registrations obj) (variables m)) as [[[]| |] r] eqn:E;
    cbn in *.
  - repeat split; try done; [by left|].
    intros v Hv. apply register_all_Return in E as ->.
    by apply registry_after_model_variables.
  - destruct Ho as [?|(e'&[= <-]&He)]; [done|].
    repeat split; try done. right. exists e. split; [done|by apply registry_error_kind].
  - destruct Ho as [?|(e'&?&?)]; done.
Qed.

(** X7. When [add_constraint_from_model] returns a label, the label was
    no label of the model (and is the one supplied, when one was), the
    constraints are those the model had followed by the new one, looking
    the label up gives the comparison that was added and every other
    label names what it named before, the objective and the discrete
    groups are as they were, and every variable of the expression is
    registered. *)
Theorem X7_add_constraint_then_lookup (self : ConstrainedQuadraticModel) (qm : Model)
    (sn : Sense + string) (rh : Bias) (label : option Hashable) (copy : bool)
    (draws : list string) (l : Hashable) (m' : ConstrainedQuadraticModel) :
  add_constraint_from_model qm sn rh label copy draws self = (Return l, m') →
  ∃ s, as_Sense sn = Return s ∧
       (l ∉ (constraints self).*1) ∧ (∀ l0, label = Some l0 → l = l0) ∧
       constraints m' = constraints self ++ [(l, mkComparison qm s rh)] ∧
       dict_get (constraints m') l = Some (mkComparison qm s rh) ∧
       (∀ l', l' ≠ l → dict_get (constraints m') l' = dict_get (constraints self) l') ∧
       objective m' = objective self ∧
       discrete m' = discrete self ∧ _discrete m' = _discrete self ∧
       (∀ v, v ∈ model_variables qm → v ∈ labels (variables m')).
Proof.
  rewrite add_constraint_from_model_spec.
  destruct (as_Sense sn) as [s| |]; [|done..].
  destruct (choose_label label draws (constraints self)) as [l'| |] eqn:Hl; [|done..].
  destruct (register_all (registrations qm) (variables self)) as [[[]| |] r] eqn:Hr;
    [|done..].
  intros [= <- <-]. exists s. split; [done|]. cbn.
  pose proof (choose_label_Return _ _ _ _ Hl) as Hfresh.
  rewrite (dict_set_fresh _ _ _ Hfresh).
  split; [done|]. split.
  { intros l0 ->. cbn in Hl. case_decide; [done|]. by injection Hl. }
  split; [done|]. split.
  { rewrite (dict_get_app_fresh _ _ _ _ Hfresh). by rewrite decide_True. }
  split.
  { intros l'' Hne. rewrite (dict_get_app_fresh _ _ _ _ Hfresh). by rewrite decide_False. }
  do 3 (split; [done|]).
  intros v Hv. apply register_all_Return in Hr as ->.
  by apply registry_after_model_variables.
Qed.

(** X8. The sense of [add_constraint_from_model] may be given as a string:
    the three values of the enumeration stand for their members, and any
    other string raises a [ValueError] before the label is looked at or a
    variable is registered. *)
Theorem X8_sense_strings (self : ConstrainedQuadraticModel) (qm : Model) (str : string)
    (rh : Bias) (label : option Hashable) (copy : bool) (draws : list string) :
  (∀ s, str = Sense_value s →
        add_constraint_from_model qm (inr str) rh label copy draws self =
        add_constraint_from_model qm (inl s) rh label copy draws self) ∧
  ((∀ s, str ≠ Sense_value s) →
   add_constraint_from_model qm (inr str) rh label copy draws self =
     (Raise (ValueError invalid_sense), self)) ∧
  (str = "<="%string ∨ str = ">="%string ∨ str = "=="%string ↔ ∃ s, str = Sense_value s).
Proof.
  split; [|split].
  - intros s ->. rewrite !add_constraint_from_model_spec. by rewrite as_Sense_value.
  - intros Hno. rewrite add_constraint_from_model_spec.
    unfold as_Sense, Sense_of_value.
    case_decide as H1; [by destruct (Hno Le)|].
    case_decide as H2; [by destruct (Hno Ge)|].
    case_decide as H3; [by destruct (Hno Eq)|]. done.
  - split.
    + intros [->|[->| ->]]; [by exists Le|by exists Ge|by exists Eq].
    + intros [[] ->]; cbn; auto.
Qed.

Lemma is_Return_inv {A} (o : outcome A) : is_Return o ↔ ∃ a, o = Return a.
Proof. destruct o; cbn; split; try done; eauto; by intros [? ?]. Qed.

Lemma add_discrete_Return_inv vs label draws self l m' :
  add_discrete vs label draws self = (Return l, m') →
  Forall (discrete_ok self) vs ∧ choose_label label draws (constraints self) = Return l.
Proof.
  intros Hret. split; [|by eapply add_discrete_Return_label].
  rewrite add_discrete_spec in Hret.
  assert (add_discrete_body vs label draws self = (Return l, m')) as Hbody.
  { destruct label as [l0|]; [|done]. by case_decide. }
  unfold add_discrete_body in Hbody.
  destruct (for_each_check_discrete vs self) as (_&Hiff&_).
  destruct (for_each vs check_discrete self).1 as [[]| |]; [|done..].
  by apply Hiff.
Qed.

(** X9. [add_discrete] with a label returns exactly when the label is
    no label of the model and every variable given is claimed by no
    discrete group and is either unregistered or registered BINARY.
    Without a label it returns under the same condition on the variables,
    once a generated label is free. *)
Theorem X9_add_discrete_succeeds_iff (self : ConstrainedQuadraticModel)
    (vs : list Hashable) (draws : list string) :
  let accepted :=
    ∀ v, v ∈ vs → (v ∉ _discrete self) ∧
                  (v ∈ labels (variables self) →
                   vartype (variables self) v = Return BINARY) in
  (∀ l, is_Return (add_discrete vs (Some l) draws self).1 ↔
        (l ∉ (constraints self).*1) ∧ accepted) ∧
  (∀ d, d ∈ draws → HStr d ∉ (constraints self).*1 →
        (is_Return (add_discrete vs None draws self).1 ↔ accepted)).
Proof.
  intros accepted.
  assert (accepted ↔ Forall (discrete_ok self) vs) as Hacc.
  { subst accepted. by rewrite Forall_forall. }
  split.
  - intros l. rewrite Hacc. split.
    + intros [a Ha]%is_Return_inv.
      destruct (add_discrete vs (Some l) draws self) as [o m'] eqn:E. cbn in Ha. subst o.
      apply add_discrete_Return_inv in E as [Hok Hl]. split; [|done].
      by apply choose_label_Return in Hl as ?; cbn in Hl; case_decide.
    + intros [Hl Hok].
      rewrite (add_discrete_Return vs (Some l) draws self l Hok); [done|].
      cbn. by rewrite decide_False.
  - intros d Hd Hfree. rewrite Hacc. split.
    + intros [a Ha]%is_Return_inv.
      destruct (add_discrete vs None draws self) as [o m'] eqn:E. cbn in Ha. subst o.
      by apply add_discrete_Return_inv in E as [Hok Hl].
    + intros Hok.
      destruct (fresh_label_terminates draws (constraints self) d Hd Hfree) as [l Hl].
      by rewrite (add_discrete_Return vs None draws self l Hok).
Qed.

Lemma register_no_bounds vt v r :
  lower_bounds (register (vt, v, None, None) r).2 = lower_bounds r ∧
  upper_bounds (register (vt, v, None, None) r).2 = upper_bounds r.
Proof.
  cbn. destruct (_append_state r vt v None None) as [[Hv ->]|(Hv&_&_&Hlo&Hup)]; [done|].
  by destruct Hlo as [->| ->], Hup as [->| ->].
Qed.

Lemma registry_after_no_bounds vt ks r :
  lower_bounds (registry_after ((λ v, (vt, v, None, None)) <$> ks) r) = lower_bounds r ∧
  upper_bounds (registry_after ((λ v, (vt, v, None, None)) <$> ks) r) = upper_bounds r.
Proof.
  revert r. induction ks as [|k ks IH]; intros r; [done|].
  rewrite fmap_cons.
  change (registry_after (?c :: ?cs) r) with (registry_after cs (register c r).2).
  destruct (IH (register (vt, k, None, None) r).2) as [-> ->].
  apply register_no_bounds.
Qed.

(** X10. When [add_discrete] returns a label on a model built through
    the facade, the constraint it appended under that label is the
    equality of the one-hot expression with 1, whose variables are the
    variables given, each once; the label is recorded as discrete and the
    variables as claimed; the variables are registered BINARY; and no
    bound was stored. *)
Theorem X10_add_discrete_records (calls : list Call) (vs : list Hashable)
    (label : option Hashable) (draws : list string) (l : Hashable)
    (m' : ConstrainedQuadraticModel) :
  let m := model_after calls CQM in
  add_discrete vs label draws m = (Return l, m') →
  (l ∉ (constraints m).*1) ∧
  constraints m' = constraints m ++ [(l, mkComparison (BQM (one_hot vs)) Eq bias_one)] ∧
  objective m' = objective m ∧
  discrete m' = {[l]} ∪ discrete m ∧ _discrete m' = list_to_set vs ∪ _discrete m ∧
  (∃ g, group m' l = Some g ∧ NoDup g ∧ ∀ v, v ∈ g ↔ v ∈ vs) ∧
  (∀ v, v ∈ vs → vartype (variables m') v = Return BINARY) ∧
  lower_bounds (variables m') = lower_bounds (variables m) ∧
  upper_bounds (variables m') = upper_bounds (variables m).
Proof.
  intros m Hret.
  assert (registry_ok (variables m)) as Hok.
  { apply reachable_registry_ok, model_after_reachable, reachable_init. }
  destruct (add_discrete_Return_inv _ _ _ _ _ _ Hret) as [Hvs Hl].
  pose proof (add_discrete_Return vs label draws m l Hvs Hl) as Heq.
  rewrite Hret in Heq.
  pose proof (choose_label_Return _ _ _ _ Hl) as Hfresh.
  pose proof (register_all_one_hot vs m Hvs) as Hreg.
  destruct (register_all (registrations (BQM (one_hot vs))) (variables m))
    as [o r] eqn:E.
  cbn [fst snd] in Hreg, Heq. subst o. injection Heq as ->.
  destruct (one_hot_variables vs) as [Hnd Hiff].
  cbn [constraints objective discrete _discrete variables].
  do 5 (split; [done|]). split; [|split].
  - exists (model_variables (BQM (one_hot vs))). split; [|done].
    unfold group. cbn [discrete constraints].
    rewrite decide_True by tidy_set_solver.
    rewrite (dict_get_app_fresh _ _ _ _ Hfresh). by rewrite decide_True.
  - intros v Hv.
    pose proof (register_all_Return_agrees _ _ _ Hok E) as Hag.
    rewrite Forall_forall in Hag.
    assert ((BINARY, v, None, None) ∈ registrations (BQM (one_hot vs))) as Hin.
    { cbn. apply list_elem_of_fmap. exists v. split; [done|]. by apply Hiff. }
    by destruct (Hag _ Hin) as [? _].
  - apply register_all_Return in E as ->. apply registry_after_no_bounds.
Qed.

(** The invariants of the discrete groups besides their being disjoint. *)
Lemma transition_discrete_groups m m' :
  transition m m' →
  NoDup (constraints m).*1 → registry_ok (variables m) →
  ((∀ l, l ∈ discrete m →
      ∃ vs, dict_get (constraints m) l =
              Some (mkComparison (BQM (one_hot vs)) Eq bias_one)) ∧
   (∀ v, v ∈ _discrete m → ∃ l g, group m l = Some g ∧ v ∈ g) ∧
   (∀ v, v ∈ _discrete m → vartype (variables m) v = Return BINARY)) →
  ((∀ l, l ∈ discrete m' →
      ∃ vs, dict_get (constraints m') l =
              Some (mkComparison (BQM (one_hot vs)) Eq bias_one)) ∧
   (∀ v, v ∈ _discrete m' → ∃ l g, group m' l = Some g ∧ v ∈ g) ∧
   (∀ v, v ∈ _discrete m' → vartype (variables m') v = Return BINARY)).
Proof.
  intros Htr Hnd Hok (H1&H2&H3).
  assert (∀ v t, vartype (variables m) v = Return t → vartype (variables m') v = Return t)
    as Hkept.
  { destruct (transition_variables _ _ Htr) as [regs ->].
    intros v t. apply registry_after_vartype_kept. }
  assert (∀ l0 l c, l ∉ (constraints m).*1 → l0 ∈ discrete m →
            dict_get (constraints m ++ [(l, c)]) l0 = dict_get (constraints m) l0)
    as Hold.
  { intros l0 l c Hl Hl0. rewrite (dict_get_app_fresh _ _ _ _ Hl).
    case_decide as Heq; [|done]. subst l0.
    destruct (H1 _ Hl0) as [vs Hvs]. apply dict_get_Some_elem in Hvs.
    destruct Hl. apply list_elem_of_fmap. by eexists (_, _). }
  destruct Htr as [regs|obj r Hr|l c r Hl Hr|l vs r Hl Hvs Hr];
    cbn [constraints discrete _discrete variables objective set_variables] in *.
  - split; [done|]. split; [|by auto]. intros v Hv.
    destruct (H2 v Hv) as (l&g&Hg&Hvg). by exists l, g.
  - split; [done|]. split; [|by auto]. intros v Hv.
    destruct (H2 v Hv) as (l&g&Hg&Hvg). by exists l, g.
  - split; [|split; [|by auto]].
    + intros l0 Hl0. rewrite (Hold l0 l c Hl Hl0). by apply H1.
    + intros v Hv. destruct (H2 v Hv) as (l0&g&Hg&Hvg). exists l0, g. split; [|done].
      apply group_Some in Hg as (Hl0&c0&Hc0&->). apply group_Some. cbn.
      split; [done|]. exists c0. split; [|done]. by rewrite (Hold l0 l c Hl Hl0).
  - destruct (one_hot_variables vs) as [_ Hiff].
    split; [|split].
    + intros l0 [->%elem_of_singleton|Hl0]%elem_of_union.
      * exists vs. rewrite (dict_get_app_fresh _ _ _ _ Hl). by rewrite decide_True.
      * rewrite (Hold l0 l _ Hl Hl0). by apply H1.
    + intros v [Hv%elem_of_list_to_set|Hv]%elem_of_union.
      * exists l, (model_variables (BQM (one_hot vs))). split; [|by apply Hiff].
        apply group_Some. cbn. split; [tidy_set_solver|].
        exists (mkComparison (BQM (one_hot vs)) Eq bias_one). split; [|done].
        rewrite (dict_get_app_fresh _ _ _ _ Hl). by rewrite decide_True.
      * destruct (H2 v Hv) as (l0&g&Hg&Hvg). exists l0, g. split; [|done].
        apply group_Some in Hg as (Hl0&c0&Hc0&->). apply group_Some. cbn.
        split; [tidy_set_solver|]. exists c0. split; [|done].
        by rewrite (Hold l0 l _ Hl Hl0).
    + intros v [Hv%elem_of_list_to_set|Hv]%elem_of_union; [|by auto].
      pose proof (register_all_Return_agrees _ _ _ Hok Hr) as Hag.
      rewrite Forall_forall in Hag.
      assert ((BINARY, v, None, None) ∈ registrations (BQM (one_hot vs))) as Hin.
      { cbn. apply list_elem_of_fmap. exists v. split; [done|]. by apply Hiff. }
      by destruct (Hag _ Hin) as [? _].
Qed.

(** X11. In every model built through the facade, every discrete label
    names an equality of a one-hot expression with 1; the claimed
    variables are exactly the variables of the recorded groups; and every
    one of them is registered BINARY. *)
Theorem X11_discrete_groups (calls : list Call) :
  let m := model_after calls CQM in
  (∀ l, l ∈ discrete m →
     ∃ vs, dict_get (constraints m) l =
             Some (mkComparison (BQM (one_hot vs)) Eq bias_one)) ∧
  (∀ v, v ∈ _discrete m ↔ ∃ l g, group m l = Some g ∧ v ∈ g) ∧
  (∀ v, v ∈ _discrete m → vartype (variables m) v = Return BINARY).
Proof.
  intros m.
  assert (reachable m) as Hm by apply model_after_reachable, reachable_init.
  assert (NoDup (constraints m).*1 ∧ registry_ok (variables m) ∧
          ((∀ l, l ∈ discrete m →
              ∃ vs, dict_get (constraints m) l =
                      Some (mkComparison (BQM (one_hot vs)) Eq bias_one)) ∧
           (∀ v, v ∈ _discrete m → ∃ l g, group m l = Some g ∧ v ∈ g) ∧
           (∀ v, v ∈ _discrete m → vartype (variables m) v = Return BINARY)))
    as (_&_&H1&H2&H3).
  { revert Hm. generalize m. clear m.
    apply (reachable_transition_ind
             (λ m, NoDup (constraints m).*1 ∧ registry_ok (variables m) ∧
                   ((∀ l, l ∈ discrete m →
                       ∃ vs, dict_get (constraints m) l =
                               Some (mkComparison (BQM (one_hot vs)) Eq bias_one)) ∧
                    (∀ v, v ∈ _discrete m → ∃ l g, group m l = Some g ∧ v ∈ g) ∧
                    (∀ v, v ∈ _discrete m → vartype (variables m) v = Return BINARY)))).
    - split; [constructor|]. split; [apply registry_ok_init|].
      cbn. split; [|split]; intros ? H0; by apply elem_of_empty in H0.
    - intros m m' (Hnd&Hok&Hinv) Htr.
      split; [by eapply transition_labels_NoDup|].
      split; [by eapply transition_registry_ok|].
      by eapply transition_discrete_groups. }
  split; [done|]. split; [|done].
  intros v. split; [by apply H2|].
  intros (l&g&Hg&Hv). apply group_Some in Hg as (Hl&c&Hc&->).
  destruct (reachable_discrete_inv m Hm) as [Hclaimed _].
  destruct (Hclaimed l Hl) as (c'&Hc'&Hall).
  assert (c' = c) as -> by congruence. by apply Hall.
Qed.

Lemma register_agrees_same r c :
  registry_ok r → agrees r c → register c r = (Return c.1.1.2, r).
Proof.
  destruct c as [[[vt v] lb] ub]. intros [Hwf Hb] [Hvt Hbounds]. cbn [register fst snd].
  destruct (decide (vt = BINARY ∨ vt = SPIN)) as [Hbs|Hn].
  - by apply _append_binary_spin.
  - assert (vt ≠ BINARY) as H1 by (intros ->; apply Hn; by left).
    assert (vt ≠ SPIN) as H2 by (intros ->; apply Hn; by right).
    destruct (Hbounds H1 H2) as [Hlo Hup].
    rewrite (_append_bounded_spec r vt v lb ub Hvt H1 H2).
    rewrite decide_False.
    2:{ intros (b&s&->&Hs&Hne). rewrite (Hlo b eq_refl) in Hs. congruence. }
    rewrite decide_False.
    2:{ intros (b&s&->&Hs&Hne). rewrite (Hup b eq_refl) in Hs. congruence. }
    f_equal.
    assert (fix_bound v lb (lower_bounds r) = lower_bounds r) as ->.
    { unfold fix_bound. destruct lb as [b|]; [|done]. by rewrite (Hlo b eq_refl). }
    assert (fix_bound v ub (upper_bounds r) = upper_bounds r) as ->.
    { unfold fix_bound. destruct ub as [b|]; [|done]. by rewrite (Hup b eq_refl). }
    by destruct r.
Qed.

Lemma register_all_agrees_same r cs :
  registry_ok r → Forall (agrees r) cs → register_all cs r = (Return tt, r).
Proof.
  intros Hok. induction 1 as [|c cs Hc Hcs IH]; [done|].
  rewrite register_all_cons. by rewrite (register_agrees_same r c Hok Hc).
Qed.

(** X12. An expression the model already uses, as its objective or on
    the left of a constraint, can be used again and registers nothing:
    [set_objective] with it returns and only replaces the objective, and
    [add_constraint_from_model] with it returns whenever the sense and
    the label are accepted, and only appends the constraint. *)
Theorem X12_known_expression_registers_nothing (calls : list Call) (e : Model) :
  let m := model_after calls CQM in
  e ∈ expressions m →
  set_objective e m =
    (Return tt, mkCQM e (constraints m) (variables m) (discrete m) (_discrete m)) ∧
  ∀ sn s rh label copy draws l,
    as_Sense sn = Return s → choose_label label draws (constraints m) = Return l →
    add_constraint_from_model e sn rh label copy draws m =
      (Return l,
       mkCQM (objective m) (constraints m ++ [(l, mkComparison e s rh)])
         (variables m) (discrete m) (_discrete m)).
Proof.
  intros m He.
  assert (reachable m) as Hm by apply model_after_reachable, reachable_init.
  pose proof (reachable_registry_ok m Hm) as Hok.
  pose proof (reachable_consistent m Hm e He) as Hag.
  pose proof (register_all_agrees_same _ _ Hok Hag) as Hreg.
  split.
  - rewrite set_objective_spec. by rewrite Hreg.
  - intros sn s rh label copy draws l Hs Hl.
    rewrite add_constraint_from_model_spec. rewrite Hs, Hl, Hreg.
    by rewrite (dict_set_fresh _ _ _ (choose_label_Return _ _ _ _ Hl)).
Qed.

Lemma add_constraint_from_model_Return qm sn rh label copy draws m l m1 :
  add_constraint_from_model qm sn rh label copy draws m = (Return l, m1) →
  ∃ s r, as_Sense sn = Return s ∧
         choose_label label draws (constraints m) = Return l ∧
         register_all (registrations qm) (variables m) = (Return tt, r) ∧
         m1 = mkCQM (objective m) (constraints m ++ [(l, mkComparison qm s rh)]) r
                (discrete m) (_discrete m).
Proof.
  rewrite add_constraint_from_model_spec.
  destruct (as_Sense sn) as [s| |]; [|done..].
  destruct (choose_label label draws (constraints m)) as [l'| |] eqn:Hl; [|done..].
  destruct (register_all (registrations qm) (variables m)) as [[[]| |] r] eqn:Hr;
    [|done..].
  intros [= <- <-]. exists s, r.
  by rewrite (dict_set_fresh _ _ _ (choose_label_Return _ _ _ _ Hl)).
Qed.

Lemma fresh_label_first_free pre d post cs :
  Forall (λ x, HStr x ∈ cs.*1) pre → HStr d ∉ cs.*1 →
  fresh_label (pre ++ d :: post) cs = Return (HStr d).
Proof.
  intros Hpre Hd. induction Hpre as [|x pre Hx _ IH]; cbn.
  - by rewrite decide_False.
  - by rewrite decide_True.
Qed.

(** X24. A generated label is the first of the values drawn that is not
    the label of a constraint: the loop draws again for each value that
    is one, and stops at the first that is not. *)
Theorem X24_first_free_draw (self : ConstrainedQuadraticModel)
    (pre : list string) (d : string) (post : list string) :
  Forall (λ x, HStr x ∈ (constraints self).*1) pre →
  HStr d ∉ (constraints self).*1 →
  (∀ qm sn rh copy l m',
     add_constraint_from_model qm sn rh None copy (pre ++ d :: post) self = (Return l, m') →
     l = HStr d) ∧
  (∀ vs l m',
     add_discrete vs None (pre ++ d :: post) self = (Return l, m') → l = HStr d).
Proof.
  intros Hpre Hd.
  pose proof (fresh_label_first_free pre d post (constraints self) Hpre Hd) as Hf.
  split.
  - intros qm sn rh copy l m' (s&r&_&Hl&_)%add_constraint_from_model_Return.
    cbn in Hl. congruence.
  - intros vs l m' Hl%add_discrete_Return_label. cbn in Hl. congruence.
Qed.

(* ===================================================================== *)
(** * Further properties of the counters and the codec *)
(* ===================================================================== *)

Lemma foldl_add_sum {A} (g : A → nat) (xs : list A) (a : nat) :
  foldl (λ count x, (count + g x)%nat) a xs = (a + sum_list (g <$> xs))%nat.
Proof.
  revert a. induction xs as [|x xs IH]; intros a; cbn; [lia|]. rewrite IH. lia.
Qed.

Lemma num_quadratic_variables_sum self :
  num_quadratic_variables self =
    sum_list ((λ c, length (filter (λ v, (0 < degree (lhs c) v)%nat)
                              (model_variables (lhs c))))
                <$> (constraints self).*2).
Proof. unfold num_quadratic_variables. by rewrite foldl_add_sum. Qed.

Lemma len_linear_variables e : len_linear e = length (model_variables e).
Proof. destruct e; cbn; by rewrite length_fmap. Qed.

(** X13. [num_quadratic_variables] looks at the constraints only. It is 0
    exactly when no variable of a constraint takes part in an interaction
    of that constraint, in particular when no constraint has a quadratic
    term, whatever the objective is; and it never exceeds [num_biases]. *)
Theorem X13_num_quadratic_variables (self : ConstrainedQuadraticModel) :
  (num_quadratic_variables self ≤ num_biases self)%nat ∧
  ((0 < num_quadratic_variables self)%nat ↔
   ∃ l c v, (l, c) ∈ constraints self ∧ v ∈ model_variables (lhs c) ∧
            (0 < degree (lhs c) v)%nat) ∧
  ((∀ l c, (l, c) ∈ constraints self → model_quadratic (lhs c) = []) →
   num_quadratic_variables self = 0%nat).
Proof.
  rewrite num_quadratic_variables_sum. unfold num_biases.
  assert (∀ cs : list (Hashable * Comparison),
            (0 < sum_list ((λ c, length (filter (λ v, (0 < degree (lhs c) v)%nat)
                                           (model_variables (lhs c)))) <$> cs.*2))%nat ↔
            ∃ l c v, (l, c) ∈ cs ∧ v ∈ model_variables (lhs c) ∧
                     (0 < degree (lhs c) v)%nat) as Hpos.
  { induction cs as [|[l c] cs IH]; cbn [fmap list_fmap sum_list sum_list_with snd].
    - split; [lia|]. intros (?&?&?&H0&_). by apply elem_of_nil in H0.
    - split.
      + intros Hsum.
        destruct (filter (λ v, (0 < degree (lhs c) v)%nat) (model_variables (lhs c)))
          as [|v vs] eqn:E.
        * cbn in Hsum. destruct (proj1 IH Hsum) as (l'&c'&v'&Hin&Hv).
          exists l', c', v'. split; [by right|done].
        * assert (v ∈ filter (λ v, (0 < degree (lhs c) v)%nat) (model_variables (lhs c)))
            as Hv by (rewrite E; by left).
          apply list_elem_of_filter in Hv as [Hd Hv].
          exists l, c, v. split; [by left|done].
      + intros (l'&c'&v'&Hin&Hv&Hd). apply elem_of_cons in Hin as [[= -> ->]|Hin].
        * assert (v' ∈ filter (λ v, (0 < degree (lhs c) v)%nat) (model_variables (lhs c)))
            as Hf by (by apply list_elem_of_filter).
          destruct (filter _ _); [by apply elem_of_nil in Hf|]. cbn. lia.
        * assert (0 < sum_list
                    ((λ c, length (filter (λ v, (0 < degree (lhs c) v)%nat)
                                     (model_variables (lhs c)))) <$> cs.*2))%nat
            by (apply IH; by exists l', c', v'). lia. }
  split; [|split].
  - assert (sum_list ((λ c, length (filter (λ v, (0 < degree (lhs c) v)%nat)
                                      (model_variables (lhs c))))
                        <$> (constraints self).*2)
            ≤ sum_list ((λ const, (len_linear (lhs const) + len_quadratic (lhs const))%nat)
                          <$> (constraints self).*2))%nat; [|lia].
    induction (constraints self).*2 as [|c cs IH]; cbn; [lia|].
    pose proof (length_filter (λ v, (0 < degree (lhs c) v)%nat) (model_variables (lhs c))).
    rewrite len_linear_variables. lia.
  - apply Hpos.
  - intros Hnone.
    destruct (decide (0 < sum_list
                ((λ c, length (filter (λ v, (0 < degree (lhs c) v)%nat)
                                 (model_variables (lhs c)))) <$> (constraints self).*2))%nat)
      as [Hp|Hz]; [|lia].
    apply Hpos in Hp as (l&c&v&Hin&_&Hd).
    unfold degree in Hd. rewrite (Hnone l c Hin) in Hd. cbn in Hd. lia.
Qed.

Lemma counters_append self l c :
  let self' := mkCQM (objective self) (constraints self ++ [(l, c)]) (variables self)
                 (discrete self) (_discrete self) in
  num_biases self' = (num_biases self + (len_linear (lhs c) + len_quadratic (lhs c)))%nat ∧
  num_quadratic_variables self' =
    (num_quadratic_variables self +
     length (filter (λ v, (0 < degree (lhs c) v)%nat) (model_variables (lhs c))))%nat.
Proof.
  cbn zeta. rewrite !num_quadratic_variables_sum. unfold num_biases.
  cbn [objective constraints]. rewrite !fmap_app, !sum_list_with_app. cbn. lia.
Qed.

Lemma counters_registry self r :
  num_biases (set_variables r self) = num_biases self ∧
  num_quadratic_variables (set_variables r self) = num_quadratic_variables self.
Proof. done. Qed.

(** X14. The counters the header of a file takes, after a call that
    returned. A constraint added by [add_constraint_from_model] adds its
    linear and quadratic terms to [num_biases] and its variables that take
    part in an interaction to [num_quadratic_variables], also when other
    constraints count the same variables. A discrete group adds one bias
    for each distinct variable and no quadratic variable. *)
Theorem X14_counters_after_a_call (self : ConstrainedQuadraticModel) :
  (∀ qm sn rh label copy draws l m',
     add_constraint_from_model qm sn rh label copy draws self = (Return l, m') →
     length (constraints m') = S (length (constraints self)) ∧
     num_biases m' = (num_biases self + (len_linear qm + len_quadratic qm))%nat ∧
     num_quadratic_variables m' =
       (num_quadratic_variables self +
        length (filter (λ v, (0 < degree qm v)%nat) (model_variables qm)))%nat) ∧
  (∀ vs label draws l m',
     add_discrete vs label draws self = (Return l, m') →
     length (constraints m') = S (length (constraints self)) ∧
     num_biases m' = (num_biases self + length (remove_dups vs))%nat ∧
     num_quadratic_variables m' = num_quadratic_variables self).
Proof.
  split.
  - intros qm sn rh label copy draws l m' Hret.
    rewrite add_constraint_from_model_spec in Hret.
    destruct (as_Sense sn) as [s| |]; [|done..].
    destruct (choose_label label draws (constraints self)) as [l'| |] eqn:Hl; [|done..].
    destruct (register_all (registrations qm) (variables self)) as [[[]| |] r]; [|done..].
    injection Hret as <- <-.
    rewrite (dict_set_fresh _ _ _ (choose_label_Return _ _ _ _ Hl)).
    split; [cbn; rewrite length_app; cbn; lia|].
    pose proof (counters_append (set_variables r self) l' (mkComparison qm s rh)) as Hc.
    cbn zeta in Hc. by rewrite !(proj1 (counters_registry self r)),
      !(proj2 (counters_registry self r)) in Hc.
  - intros vs label draws l m' Hret.
    destruct (add_discrete_Return_inv _ _ _ _ _ _ Hret) as [Hvs Hl].
    pose proof (add_discrete_Return vs label draws self l Hvs Hl) as Heq.
    rewrite Hret in Heq. injection Heq as ->.
    split; [cbn; rewrite length_app; cbn; lia|].
    rewrite !num_quadratic_variables_sum. unfold num_biases.
    cbn [objective constraints]. rewrite !fmap_app, !sum_list_with_app.
    cbn [fmap list_fmap sum_list_with snd lhs].
    destruct (one_hot_variables vs) as [Hnd Hiff].
    assert (len_linear (BQM (one_hot vs)) = length (remove_dups vs)) as ->.
    { rewrite len_linear_variables. apply Permutation_length, NoDup_Permutation;
        [done|apply NoDup_remove_dups|].
      intros v. rewrite Hiff. by rewrite elem_of_remove_dups. }
    assert (∀ ks, filter (λ v, (0 < degree (BQM (one_hot vs)) v)%nat) ks = []) as ->.
    { induction ks as [|v ks IH]; [done|].
      rewrite filter_cons. rewrite decide_False; [done|]. cbn. lia. }
    cbn. lia.
Qed.

Lemma span_not_slash_spec s g r :
  span_not_slash s = (g, r) →
  no_slash g ∧ s = g +:+ r ∧ (r = EmptyString ∨ ∃ r', r = String "/" r').
Proof.
  revert g r. induction s as [|c s IH]; intros g r; cbn.
  - intros [= <- <-]. split; [done|]. split; [done|]. by left.
  - case_decide as Hc.
    + intros [= <- <-]. subst c. split; [done|]. split; [done|]. right. by eexists.
    + destruct (span_not_slash s) as [g' r'] eqn:E. intros [= <- <-].
      destruct (IH g' r' eq_refl) as (Hg&->&Hr).
      split; [by split|]. by split.
Qed.

(** X15. The directory [from_file] reads off the name of an archive
    entry: a name gives the directory [g] exactly when it is
    [constraints/], then [g], not empty and without a slash, then a slash,
    then anything. *)
Theorem X15_constraint_directory (arch g : string) :
  re_match_constraints arch = Some g ↔
  g ≠ EmptyString ∧ no_slash g ∧
  ∃ rest, arch = "constraints/" +:+ g +:+ String "/" rest.
Proof.
  split.
  - unfold re_match_constraints.
    destruct (strip_prefix "constraints/" arch) as [rest0|] eqn:E; [|done]. cbn.
    apply strip_prefix_Some in E as ->.
    destruct (span_not_slash rest0) as [g' r'] eqn:E'.
    destruct (span_not_slash_spec _ _ _ E') as (Hg&->&Hr).
    destruct g' as [|c g']; [done|]. destruct r' as [|c' r']; [done|].
    intros [= <-]. split; [done|]. split; [done|].
    destruct Hr as [?|[r'' [= -> ->]]]; [done|]. by exists r''.
  - intros (Hne&Hg&rest&->).
    change ("constraints/" +:+ g +:+ String "/" rest) with (entry_name g rest).
    by apply re_match_entry_name.
Qed.

Lemma zf_read_missing zf name : name ∉ zf.*1 → zf_read zf name = Raise (KeyError name).
Proof.
  induction zf as [|[n content] zf IH]; [done|]. cbn.
  intros [Hn Hzf]%not_elem_of_cons. rewrite (IH Hzf). by rewrite decide_False.
Qed.

(** X16. A file of a version below 2.0 whose archive has no entry named
    [objective] is not decoded: [from_file] raises the [KeyError] of that
    name, whatever else the archive holds. *)
Theorem X16_from_file_needs_objective (fp : bytes) (header_info : HeaderInfo)
    (zf : list (string * bytes)) :
  read_header fp CQM_MAGIC_PREFIX = Return header_info →
  ((version header_info).1 < 2)%nat →
  ZipFile_read fp = Return zf →
  "objective"%string ∉ zf.*1 →
  from_file fp = Raise (KeyError "objective").
Proof.
  intros Hh Hv Hzf Hno. unfold from_file. rewrite Hh.
  assert (tuple_ge (version header_info) (2%nat, 0%nat) = false) as ->.
  { unfold tuple_ge. cbn [fst snd].
    apply orb_false_iff. split.
    - apply Nat.ltb_ge. lia.
    - apply andb_false_iff. left. apply Nat.eqb_neq. lia. }
  unfold read_archive. rewrite Hzf.
  unfold load_archive, bind at 1. unfold lift_outcome at 1.
  by rewrite (zf_read_missing zf _ Hno).
Qed.







(** X18. A re-registration of a variable whose vartype is not SPIN or
    BINARY tests the lower bound first: when it differs from the one that
    is fixed, the registry is left as it was, whatever upper bound is
    given. The upper bound is tested after the lower bound was stored:
    when the variable has no lower bound and an upper bound that differs
    from the one given, the call raises and the lower bound it was given
    is fixed all the same. *)
Theorem X18_bound_checks_in_order (r : TypedVariables) (v : Hashable) (vt : Vartype)
    (b : Bias) :
  vartype r v = Return vt → vt ≠ BINARY → vt ≠ SPIN →
  (∀ s ub, lower_bounds r !! v = Some s → b ≠ s →
     _append vt v (Some b) ub r = (Raise (ValueError different_lower_bound), r)) ∧
  (∀ b' s', lower_bounds r !! v = None → upper_bounds r !! v = Some s' → b' ≠ s' →
     _append vt v (Some b) (Some b') r =
       (Raise (ValueError different_upper_bound),
        mkTypedVariables (labels r) (vartypes r)
          (<[v := b]> (lower_bounds r)) (upper_bounds r))).
Proof.
  intros Hvt H1 H2. split.
  - intros s ub Hs Hne. rewrite (_append_bounded_spec r vt v _ ub Hvt H1 H2).
    rewrite decide_True; [done|]. by exists b, s.
  - intros b' s' Hlo Hup Hne. rewrite (_append_bounded_spec r vt v _ _ Hvt H1 H2).
    rewrite decide_False.
    2:{ intros (?&?&_&Hs&_). congruence. }
    rewrite decide_True by (by exists b', s').
    unfold fix_bound. by rewrite Hlo.
Qed.

(** X19. When [_add_variables_from] raises, the error is that of the
    first variable, in the order of the expression, whose registration
    conflicts: the variables before it are registered as by a run that
    ends there, the conflicting variable was registered before, no
    variable after it is looked at, and nothing but the registry
    changes. *)
Theorem X19_registration_stops_at_first_error (model : Model)
    (self self' : ConstrainedQuadraticModel) (e : exn) :
  _add_variables_from model self = (Raise e, self') →
  ∃ k vt v lb ub,
    registrations model !! k = Some (vt, v, lb, ub) ∧
    register_all (take k (registrations model)) (variables self) =
      (Return tt, registry_after (take k (registrations model)) (variables self)) ∧
    _append vt v lb ub (registry_after (take k (registrations model)) (variables self)) =
      (Raise e, variables self') ∧
    v ∈ labels (registry_after (take k (registrations model)) (variables self)) ∧
    labels (variables self') =
      labels (registry_after (take k (registrations model)) (variables self)) ∧
    objective self' = objective self ∧ constraints self' = constraints self ∧
    discrete self' = discrete self ∧ _discrete self' = _discrete self.
Proof.
  rewrite _add_variables_from_registry. unfold on_variables.
  destruct (register_all (registrations model) (variables self)) as [o r'] eqn:E.
  intros [= -> <-].
  apply register_all_Raise in E as (k&[[[vt v] lb] ub]&Hk&Htake&Hc).
  exists k, vt, v, lb, ub. cbn [register] in Hc. cbn [set_variables variables objective
    constraints discrete _discrete].
  do 3 (split; [done|]).
  destruct (_append_state (registry_after (take k (registrations model)) (variables self))
              vt v lb ub) as [[_ Hnew]|(Hv&Hl&_)].
  - unfold Registration in *. congruence.
  - unfold Registration in *. split; [done|]. split; [|done].
    by replace r' with (_append vt v lb ub
      (registry_after (take k (registrations model)) (variables self))).2
      by (by rewrite Hc).
Qed.

Lemma vartype_unregistered r v : v ∉ labels r → ∃ e, vartype r v = Raise e.
Proof.
  intros Hv. exists (ValueError library_failure).
  unfold vartype, index. by rewrite (proj1 (index_in_None _ _) Hv).
Qed.

Lemma add_term_unregistered `{!QuadraticModelMethods} self vars bias step qm v :
  v ∈ vars → v ∉ labels (variables self) →
  add_term self vars bias = Some step → ∀ qm', step qm ≠ (Return tt, qm').
Proof.
  intros Hv Hun Hstep qm'. destruct (vartype_unregistered _ _ Hun) as [e He].
  destruct vars as [|u [|w [|x vars]]]; cbn in Hstep; [by apply elem_of_nil in Hv| | |done].
  - apply list_elem_of_singleton in Hv as <-. injection Hstep as <-.
    unfold bind at 1. unfold lift_outcome at 1. by rewrite He.
  - injection Hstep as <-.
    unfold bind at 1. unfold lift_outcome at 1.
    destruct (vartype (variables self) u) as [tu| |] eqn:Eu; [|done..].
    unfold bind at 1. destruct (qm_add_variable tu u qm) as [[[]| |] qm1]; [|done..].
    unfold bind at 1. unfold lift_outcome at 1.
    apply elem_of_cons in Hv as [->|Hv]; [congruence|].
    apply list_elem_of_singleton in Hv as ->. by rewrite He.
Qed.

Lemma add_terms_stops `{!QuadraticModelMethods} self iterable qm :
  Exists (λ term, (2 < length term.1)%nat ∨
                  ∃ v, v ∈ term.1 ∧ v ∉ labels (variables self)) iterable →
  ∀ qm', add_terms self iterable qm ≠ inr (Return tt, qm').
Proof.
  intros Hbad. revert qm. induction Hbad as [[vars bias] rest Hterm|[vars bias] rest _ IH];
    intros qm qm'; cbn [add_terms].
  - destruct (add_term self vars bias) as [step|] eqn:E; [|done].
    cbn [fst] in Hterm. destruct Hterm as [Hlen|(v&Hv&Hun)].
    + destruct vars as [|u [|w [|x vars]]]; cbn in Hlen, E; try lia. done.
    + pose proof (add_term_unregistered self vars bias step qm v Hv Hun E) as Hstep.
      destruct (step qm) as [[[]| |] qm1]; [|done..]. by destruct (Hstep qm1).
  - destruct (add_term self vars bias) as [step|]; [|done].
    destruct (step qm) as [[[]| |] qm1]; [apply IH|done..].
Qed.

(** X23. [add_constraint_from_iterable] does not return a label when a
    term has more than two variables or names a variable that is not
    registered, wherever the term stands; and the model is then left
    exactly as it was, unlike after a failed
    [add_constraint_from_model]. *)
Theorem X23_iterable_needs_registered_variables `{!QuadraticModelMethods}
    (iterable : list (list Hashable * Bias)) (sense : Sense + string) (rhs : Bias)
    (label : option Hashable) (draws : list string) (self : ConstrainedQuadraticModel) :
  Exists (λ term, (2 < length term.1)%nat ∨
                  ∃ v, v ∈ term.1 ∧ v ∉ labels (variables self)) iterable →
  ∃ o, add_constraint_from_iterable iterable sense rhs label draws self = (o, self) ∧
       ∀ l, o ≠ inr (Return l).
Proof.
  intros Hbad. unfold add_constraint_from_iterable.
  pose proof (add_terms_stops self iterable QuadraticModel_new Hbad) as Hstop.
  destruct (add_terms self iterable QuadraticModel_new) as [error|[[[]| |] qm]].
  - by eexists.
  - by destruct (Hstop qm).
  - by eexists.
  - by eexists.
Qed.

(** X25. The two small files of a constraint directory are read back as
    they were written: the sense entry decodes to a string that
    [add_constraint] takes for the sense that was written, and the
    discrete entry, one byte, is true of [any] exactly when the label was
    discrete; an empty discrete entry counts as not discrete. *)
Theorem X25_sense_and_flag_round_trip (s : Sense) (flag : bool) :
  (∃ text, decode_ascii (encode_ascii (Sense_value s)) = Return text ∧
           as_Sense (inr text) = Return s) ∧
  any_byte (bytes_of_bool flag) = flag ∧
  any_byte [] = false.
Proof.
  split; [|split].
  - exists (Sense_value s). split; [apply decode_ascii_Sense_value|apply as_Sense_value].
  - apply any_byte_bytes_of_bool.
  - done.
Qed.

Lemma constraint_entries_names self l c name content :
  (name, content) ∈ constraint_entries self l c →
  ∃ field, field ∈ ["lhs"; "rhs"; "sense"; "discrete"]%string ∧
           name = "constraints/" +:+ json_dumps_label l +:+ String "/" field.
Proof.
  rewrite constraint_entries_fields.
  intros ([field x]&[= -> ->]&Hf)%list_elem_of_fmap. exists field. split; [|done].
  unfold fields in Hf.
  repeat (apply elem_of_cons in Hf as [[= -> _]|Hf]; [repeat constructor|]).
  by apply elem_of_nil in Hf.
Qed.

Lemma archive_entries_names self name content :
  (name, content) ∈ mjoin ((λ e, constraint_entries self e.1 e.2) <$> constraints self) →
  ∃ l c field, (l, c) ∈ constraints self ∧
               field ∈ ["lhs"; "rhs"; "sense"; "discrete"]%string ∧
               name = "constraints/" +:+ json_dumps_label l +:+ String "/" field.
Proof.
  intros (es&Hin&Hes)%list_elem_of_join.
  apply list_elem_of_fmap in Hes as ([l c]&->&Hlc). cbn [fst snd] in Hin.
  apply constraint_entries_names in Hin as (field&Hf&->). by exists l, c, field.
Qed.

Lemma constraint_entries_length self (cs : list (Hashable * Comparison)) :
  length (mjoin ((λ e, constraint_entries self e.1 e.2) <$> cs)) = (4 * length cs)%nat.
Proof.
  induction cs as [|[l c] cs IH]; [done|].
  rewrite fmap_cons. change (mjoin (?x :: ?xs)) with (x ++ mjoin xs).
  rewrite length_app, IH. cbn. lia.
Qed.

Lemma constraint_entries_keys self (cs : list (Hashable * Comparison)) :
  (mjoin ((λ e, constraint_entries self e.1 e.2) <$> cs)).*1 =
    mjoin ((λ e, (λ field, "constraints/" +:+ json_dumps_label e.1 +:+ String "/" field)
                   <$> ["lhs"; "rhs"; "sense"; "discrete"]%string) <$> cs).
Proof.
  induction cs as [|[l c] cs IH]; [done|].
  rewrite !fmap_cons. change (mjoin (?x :: ?xs)) with (x ++ mjoin xs).
  by rewrite fmap_app, IH.
Qed.

(** X26. The archive [to_file] writes: the entry [objective] first, then
    for every constraint, in the order of the constraints, the four
    entries [lhs], [rhs], [sense] and [discrete] of its directory
    [constraints/<label as JSON>/], and nothing else. Reading [objective]
    gives the objective that was written, whatever the labels are. *)
Theorem X26_archive_entries (self : ConstrainedQuadraticModel) :
  length (archive_entries self) = (1 + 4 * length (constraints self))%nat ∧
  (archive_entries self).*1 =
    "objective"%string ::
    mjoin ((λ e, (λ field, "constraints/" +:+ json_dumps_label e.1 +:+ String "/" field)
                   <$> ["lhs"; "rhs"; "sense"; "discrete"]%string) <$> constraints self) ∧
  zf_read (archive_entries self) "objective" = Return (Model_to_file (objective self)).
Proof.
  unfold archive_entries. split; [|split].
  - cbn [length]. by rewrite constraint_entries_length.
  - rewrite fmap_cons. cbn [fst]. f_equal. apply constraint_entries_keys.
  - cbn [zf_read]. rewrite zf_read_missing; [by rewrite decide_True|].
    intros ([name content]&Hname&Hin)%list_elem_of_fmap. cbn in Hname. subst name.
    apply archive_entries_names in Hin as (l&c&field&_&_&Heq). done.
Qed.

End Model.

(* ===================================================================== *)
(** * Properties of the serialization of labels and of [Variables.__eq__] *)
(* ===================================================================== *)

Lemma PyObject_ind' {F} (P : PyObject F → Prop) :
  (∀ n, P (OInt n)) → (∀ n, P (OIntegral n)) →
  (∀ x, P (OFloat x)) → (∀ x, P (ONumber x)) →
  (∀ s, P (OStr s)) →
  (∀ items, Forall P items → P (OTuple items)) →
  (∀ items, Forall P items → P (OList items)) →
  (∀ id, P (OOther id)) →
  ∀ v, P v.
Proof.
  intros H1 H2 H3 H4 H5 H6 H7 H8. fix IH 1.
  intros [n|n|x|x|s|items|items|id];
    [apply H1|apply H2|apply H3|apply H4|apply H5| | |apply H8].
  - apply H6. induction items as [|v items IHitems]; constructor; [apply IH|apply IHitems].
  - apply H7. induction items as [|v items IHitems]; constructor; [apply IH|apply IHitems].
Qed.

Lemma serialized_tuple {F} (items : list (PyObject F)) :
  serialized (OTuple items) ↔ Forall serialized items.
Proof.
  cbn. induction items as [|v items IH]; cbn.
  - split; [constructor|done].
  - rewrite Forall_cons. by rewrite IH.
Qed.

Lemma map_id_Forall {A} (f : A → A) (xs : list A) :
  Forall (λ x, f x = x) xs → map f xs = xs.
Proof. induction 1 as [|x xs Hx _ IH]; cbn; [done|]. by rewrite Hx, IH. Qed.

Lemma map_ext_Forall {A B} (f g : A → B) (xs : list A) :
  Forall (λ x, f x = g x) xs → map f xs = map g xs.
Proof. induction 1 as [|x xs Hx _ IH]; cbn; [done|]. by rewrite Hx, IH. Qed.

Lemma serialize_one_serialized {F} (v : PyObject F) : serialized (serialize_one v).
Proof.
  induction v as [| | | | |items IH|items IH|] using PyObject_ind'; try done.
  - cbn [serialize_one]. apply serialized_tuple. by apply Forall_map.
  - cbn [serialize_one]. apply serialized_tuple. by apply Forall_map.
Qed.

Lemma serialize_one_fixed {F} (v : PyObject F) : serialized v → serialize_one v = v.
Proof.
  induction v as [| | | | |items IH|items IH|] using PyObject_ind'; try done.
  intros Hs%serialized_tuple. cbn [serialize_one]. f_equal.
  apply map_id_Forall. rewrite Forall_forall in *. auto.
Qed.

Lemma deserialize_one_fixed {F} (v : PyObject F) : serialized v → deserialize_one v = v.
Proof.
  induction v as [| | | | |items IH|items IH|] using PyObject_ind'; try done.
  intros Hs%serialized_tuple. cbn [deserialize_one]. f_equal.
  apply map_id_Forall. rewrite Forall_forall in *. auto.
Qed.

Lemma deserialize_one_lists {F} (v : PyObject F) :
  deserialize_one (tuples_as_lists v) = deserialize_one v.
Proof.
  induction v as [| | | | |items IH|items IH|] using PyObject_ind'; try done.
  - cbn [tuples_as_lists deserialize_one]. f_equal. rewrite map_map.
    by apply map_ext_Forall.
  - cbn [tuples_as_lists deserialize_one]. f_equal. rewrite map_map.
    by apply map_ext_Forall.
Qed.

Lemma deserialize_one_idempotent {F} (v : PyObject F) :
  deserialize_one (deserialize_one v) = deserialize_one v.
Proof.
  induction v as [| | | | |items IH|items IH|] using PyObject_ind'; try done.
  - cbn [deserialize_one]. f_equal. rewrite map_map. by apply map_ext_Forall.
  - cbn [deserialize_one]. f_equal. rewrite map_map. by apply map_ext_Forall.
Qed.

(** X20. [iter_serialize_variables] yields one object for each label; in
    what it yields every integral number is an [int], every other number a
    [float] and every sequence a tuple, at any depth; serializing again
    changes nothing, and labels that are built this way already are
    yielded as they are. *)
Theorem X20_serialize_variables {F : Type} (variables : list (PyObject F)) :
  length (iter_serialize_variables variables) = length variables ∧
  Forall serialized (iter_serialize_variables variables) ∧
  iter_serialize_variables (iter_serialize_variables variables) =
    iter_serialize_variables variables ∧
  (Forall serialized variables → iter_serialize_variables variables = variables).
Proof.
  unfold iter_serialize_variables. split; [apply length_map|].
  assert (Forall serialized (map serialize_one variables)) as Hs.
  { apply Forall_map, Forall_forall. intros v _. apply serialize_one_serialized. }
  split; [done|]. split.
  - apply map_id_Forall. eapply Forall_impl; [exact Hs|]. apply serialize_one_fixed.
  - intros Hv. apply map_id_Forall. eapply Forall_impl; [exact Hv|].
    apply serialize_one_fixed.
Qed.

(** X21. [iter_deserialize_variables] gives back what
    [iter_serialize_variables] yielded, also after every tuple in it was
    turned into a list, as a JSON round trip does; it does not tell a list
    from a tuple, and deserializing twice is deserializing once. *)
Theorem X21_deserialize_variables {F : Type} (variables : list (PyObject F)) :
  iter_deserialize_variables (iter_serialize_variables variables) =
    iter_serialize_variables variables ∧
  iter_deserialize_variables (map tuples_as_lists (iter_serialize_variables variables)) =
    iter_serialize_variables variables ∧
  iter_deserialize_variables (map tuples_as_lists variables) =
    iter_deserialize_variables variables ∧
  iter_deserialize_variables (iter_deserialize_variables variables) =
    iter_deserialize_variables variables.
Proof.
  unfold iter_deserialize_variables, iter_serialize_variables.
  assert (map deserialize_one (map serialize_one variables) = map serialize_one variables)
    as Hround.
  { apply map_id_Forall, Forall_map, Forall_forall. intros v _.
    apply deserialize_one_fixed, serialize_one_serialized. }
  assert (∀ vs : list (PyObject F),
            map deserialize_one (map tuples_as_lists vs) = map deserialize_one vs) as Hl.
  { intros vs. rewrite map_map. apply map_ext_Forall, Forall_forall. intros v _.
    apply deserialize_one_lists. }
  split; [done|]. split; [by rewrite Hl|]. split; [apply Hl|].
  rewrite map_map. apply map_ext_Forall, Forall_forall. intros v _.
  apply deserialize_one_idempotent.
Qed.

Lemma forallb_zip_eq (xs ys : list Hashable) :
  length xs = length ys →
  forallb (λ p, bool_decide (p.1 = p.2)) (zip xs ys) = true ↔ xs = ys.
Proof.
  revert ys. induction xs as [|x xs IH]; intros [|y ys]; cbn; try done.
  intros [= Hlen]. rewrite andb_true_iff, bool_decide_eq_true, (IH ys Hlen).
  split; [by intros [-> ->]|by intros [= -> ->]].
Qed.

(** X22. [Variables.__eq__]: against a sequence it is equality of the
    labels in their order (a sequence of another length is unequal, although
    [map] would stop at the shorter one); against a set it is having the
    same members, in any order; against anything else it is false. *)
Theorem X22_Variables_eq (self : list Hashable) :
  (∀ items, Variables__eq__ self (Sequence items) = true ↔ self = items) ∧
  (∀ items, Variables__eq__ self (SetOf items) = true ↔ ∀ x, x ∈ self ↔ x ∈ items) ∧
  Variables__eq__ self Object = false ∧
  (∀ other, Variables__ne__ self other = true ↔ Variables__eq__ self other = false).
Proof.
  split; [|split; [|split]].
  - intros items. cbn. rewrite andb_true_iff, Nat.eqb_eq. split.
    + intros [Hlen Hall]. by apply forallb_zip_eq.
    + intros <-. split; [done|]. by apply forallb_zip_eq.
  - intros items. cbn. rewrite bool_decide_eq_true. split.
    + intros Hempty x. rewrite <- (elem_of_list_to_set (C := gset Hashable)).
      assert (x ∉ list_to_set self ∖ items ∪ items ∖ list_to_set self) as Hx.
      { rewrite Hempty. apply not_elem_of_empty. }
      rewrite elem_of_union, !elem_of_difference in Hx. split; intros Hin.
      * destruct (decide (x ∈ items)) as [|Hn]; [done|]. destruct Hx. by left.
      * destruct (decide (x ∈ (list_to_set self : gset Hashable))) as [|Hn]; [done|].
        destruct Hx. by right.
    + intros Hsame. apply leibniz_equiv. intros x.
      rewrite elem_of_union, !elem_of_difference, elem_of_list_to_set, (Hsame x).
      split; [by intros [[? ?]|[? ?]]|]. by intros ?%elem_of_empty.
  - done.
  - intros other. unfold Variables__ne__. by destruct (Variables__eq__ self other).
Qed.

(* ===================================================================== *)
(** * An instance of the collaborators *)
(* ===================================================================== *)

(** The examples run the model with integers for the numbers and with the
    collaborators below. They stand in for dimod's file views, [numpy],
    [zipfile] and [json]: each codec is a stand-in with the interface the
    code uses, not the byte layout of the library; [json_dumps_label] prints
    integers and strings as [json.dumps] does. *)

#[local] Instance BinaryVartype_eq_dec : EqDecision BinaryVartype.
Proof. solve_decision. Defined.

#[local] Instance BinaryVartype_countable : Countable BinaryVartype :=
  inj_countable' (λ t, match t with BQM_SPIN => false | BQM_BINARY => true end)
    (λ b : bool, if b then BQM_BINARY else BQM_SPIN) (λ t, ltac:(by destruct t)).

#[local] Instance Vartype_countable : Countable Vartype :=
  inj_countable'
    (λ t, match t with
          | SPIN => 0 | BINARY => 1 | INTEGER => 2 | REAL => 3 | DISCRETE => 4
          end%nat)
    (λ n : nat, match n with
                | 0 => SPIN | 1 => BINARY | 2 => INTEGER | 3 => REAL | _ => DISCRETE
                end%nat)
    (λ t, ltac:(by destruct t)).

#[local] Instance QMVariable_eq_dec : EqDecision (QMVariable (Bias := Z)).
Proof. solve_decision. Defined.

#[local] Instance QMVariable_countable : Countable (QMVariable (Bias := Z)) :=
  inj_countable'
    (λ d, (qmv_vartype d, qmv_lower_bound d, qmv_upper_bound d, qmv_linear d))
    (λ '(t, lo, up, b), mkQMVariable t lo up b) (λ d, ltac:(by destruct d)).

#[local] Instance BinaryQuadraticModel_eq_dec : EqDecision (BinaryQuadraticModel (Bias := Z)).
Proof. solve_decision. Defined.

#[local] Instance BinaryQuadraticModel_countable : Countable (BinaryQuadraticModel (Bias := Z)) :=
  inj_countable'
    (λ b, (bqm_vartype b, bqm_linear b, bqm_quadratic b, bqm_offset b))
    (λ '(t, l, q, o), mkBQM t l q o) (λ b, ltac:(by destruct b)).

#[local] Instance QuadraticModel_eq_dec : EqDecision (QuadraticModel (Bias := Z)).
Proof. solve_decision. Defined.

#[local] Instance QuadraticModel_countable : Countable (QuadraticModel (Bias := Z)) :=
  inj_countable'
    (λ q, (qm_variables q, qm_quadratic q, qm_offset q))
    (λ '(v, q, o), mkQM v q o) (λ q, ltac:(by destruct q)).

#[local] Instance Model_eq_dec : EqDecision (Model (Bias := Z)).
Proof. solve_decision. Defined.

#[local] Instance Model_countable : Countable (Model (Bias := Z)) :=
  inj_countable'
    (λ m, match m with BQM b => inl b | QM q => inr q end)
    (λ s, match s with inl b => BQM b | inr q => QM q end)
    (λ m, ltac:(by destruct m)).

(** A positive number as bytes, one binary digit per byte. *)
Fixpoint bytes_of_positive (p : positive) : bytes :=
  match p with
  | xH => []
  | xO p' => Byte.x30 :: bytes_of_positive p'
  | xI p' => Byte.x31 :: bytes_of_positive p'
  end.

Fixpoint positive_of_bytes (b : bytes) : option positive :=
  match b with
  | [] => Some xH
  | d :: b' =>
      p ← positive_of_bytes b';
      if decide (d = Byte.x30) then Some (xO p)
      else if decide (d = Byte.x31) then Some (xI p)
      else None
  end.

Definition to_bytes `{Countable A} (a : A) : bytes := bytes_of_positive (encode a).

Definition from_bytes `{Countable A} (b : bytes) : outcome A :=
  match positive_of_bytes b ≫= decode with
  | Some a => Return a
  | None => Raise (ValueError library_failure)
  end.

(** Little-endian unsigned 32-bit numbers. *)
Definition byte_of_N (n : N) : Byte.byte :=
  default Byte.x00 (Byte.of_N (n mod 256)%N).

Definition le32 (n : nat) : bytes :=
  let n := N.of_nat n in
  [ byte_of_N n; byte_of_N (n / 256)%N;
    byte_of_N (n / 65536)%N; byte_of_N (n / 16777216)%N ].

Definition of_le32 (b : bytes) : option N :=
  match b with
  | [b0; b1; b2; b3] =>
      Some (Byte.to_N b0 + 256 * Byte.to_N b1
            + 65536 * Byte.to_N b2 + 16777216 * Byte.to_N b3)%N
  | _ => None
  end.

Definition quote : ascii := "034"%char.
Definition backslash : ascii := "092"%char.

(** The header of section 4.4: magic, version, length, text padded with
    spaces so that the header ends on a multiple of 64. The text is kept
    as written; its dictionary is not parsed back. *)
Definition header_text (data : list (string * nat)) : bytes :=
  let json := String.list_byte_of_string
                (String.concat ", "
                   ((λ e, String quote (e.1 +:+ String quote (": " +:+ pretty e.2)))
                      <$> data)) in
  let body := (Byte.x7b :: json) ++ [Byte.x7d] in
  let used := (14 + length body + 1)%nat in
  let padding := ((64 - used mod 64) mod 64)%nat in
  body ++ replicate padding Byte.x20 ++ [Byte.x0a].

Definition ref_write_header (prefix : bytes) (data : list (string * nat))
    (version : nat * nat) : bytes :=
  let text := header_text data in
  prefix ++ [byte_of_N (N.of_nat version.1); byte_of_N (N.of_nat version.2)]
         ++ le32 (length text) ++ text.

Definition ref_read_header (fp prefix : bytes) : outcome HeaderInfo :=
  if decide (take (length prefix) fp = prefix) then
    match drop (length prefix) fp with
    | major :: minor :: rest =>
        match of_le32 (take 4 rest) with
        | Some len =>
            if decide (len ≤ N.of_nat (length (drop 4 rest)))%N
            then Return (mkHeaderInfo []
                           (N.to_nat (Byte.to_N major), N.to_nat (Byte.to_N minor)))
            else Raise (ValueError library_failure)
        | None => Raise (ValueError library_failure)
        end
    | _ => Raise (ValueError library_failure)
    end
  else Raise (ValueError library_failure).

(** The archive: each entry as name and content, both with their length
    in front, and the size of the whole archive in the last four bytes,
    from where a reader finds it, whatever precedes the archive. *)
Definition archive_bytes (entries : list (string * bytes)) : bytes :=
  mjoin ((λ e, let name := String.list_byte_of_string e.1 in
               le32 (length name) ++ name ++ le32 (length e.2) ++ e.2) <$> entries).

Definition ref_ZipFile_append (file : bytes) (entries : list (string * bytes)) : bytes :=
  let body := archive_bytes entries in
  file ++ body ++ le32 (length body).

Fixpoint parse_entries (fuel : nat) (b : bytes) : option (list (string * bytes)) :=
  match fuel with
  | O => None
  | S fuel' =>
      match b with
      | [] => Some []
      | _ =>
          n ← N.to_nat <$> of_le32 (take 4 b);
          let name := take n (drop 4 b) in
          let b1 := drop n (drop 4 b) in
          k ← N.to_nat <$> of_le32 (take 4 b1);
          let content := take k (drop 4 b1) in
          rest ← parse_entries fuel' (drop k (drop 4 b1));
          Some ((String.string_of_list_byte name, content) :: rest)
      end
  end.

Definition ref_ZipFile_read (fp : bytes) : outcome (list (string * bytes)) :=
  let n := length fp in
  match of_le32 (drop (n - 4) fp) with
  | Some size =>
      if decide (size + 4 ≤ N.of_nat n)%N then
        let size := N.to_nat size in
        match parse_entries (S size) (take size (drop (n - 4 - size) fp)) with
        | Some entries => Return entries
        | None => Raise (ValueError library_failure)
        end
      else Raise (ValueError library_failure)
  | None => Raise (ValueError library_failure)
  end.

(** [json.dumps] of an integer and of a string of printable ASCII
    characters: the quote and the backslash are escaped. *)

Fixpoint json_escape (s : string) : string :=
  match s with
  | EmptyString => EmptyString
  | String c s' =>
      if decide (c = quote ∨ c = backslash)
      then String backslash (String c (json_escape s'))
      else String c (json_escape s')
  end.

Fixpoint json_unescape (s : string) : option string :=
  match s with
  | EmptyString => None
  | String c s' =>
      if decide (c = quote) then
        match s' with EmptyString => Some EmptyString | _ => None end
      else if decide (c = backslash) then
        match s' with
        | String c' s'' => String c' <$> json_unescape s''
        | EmptyString => None
        end
      else String c <$> json_unescape s'
  end.

Fixpoint ref_json_dumps_label (label : Hashable) : string :=
  match label with
  | HInt z => pretty z
  | HStr s => String quote (json_escape s +:+ String quote EmptyString)
  | HTuple items =>
      "[" +:+ String.concat ", " (ref_json_dumps_label <$> items) +:+ "]"
  end.

Fixpoint parse_digits (acc : N) (s : string) : option N :=
  match s with
  | EmptyString => Some acc
  | String c s' =>
      d ← Ascii.is_nat c; parse_digits (10 * acc + N.of_nat d)%N s'
  end.

Definition parse_Z (s : string) : option Z :=
  match s with
  | EmptyString => None
  | String c s' =>
      if decide (c = "-"%char)
      then match s' with
           | EmptyString => None
           | _ => (λ n, - Z.of_N n) <$> parse_digits 0 s'
           end
      else Z.of_N <$> parse_digits 0 s
  end.

(** Parses back an integer or a string; lists are not parsed. *)
Definition ref_json_loads_label (text : string) : outcome Hashable :=
  match text with
  | String c rest =>
      if decide (c = quote) then
        match json_unescape rest with
        | Some s => Return (HStr s)
        | None => Raise (ValueError library_failure)
        end
      else
        match parse_Z text with
        | Some z => Return (HInt z)
        | None => Raise (ValueError library_failure)
        end
  | EmptyString => Raise (ValueError library_failure)
  end.

#[local] Instance reference : Externals (Bias := Z) := {|
  Model_to_file := to_bytes;
  load := from_bytes;
  float64_tobytes := to_bytes;
  float64_frombuffer := from_bytes;
  json_dumps_label := ref_json_dumps_label;
  json_loads_label := ref_json_loads_label;
  write_header := ref_write_header;
  read_header := ref_read_header;
  ZipFile_append := ref_ZipFile_append;
  ZipFile_read := ref_ZipFile_read;
  set_iter := λ names, reverse (remove_dups names)
|}.

Lemma reference_set_iter names :
  NoDup (set_iter names) ∧ ∀ x, x ∈ set_iter names ↔ x ∈ names.
Proof.
  cbn. split.
  - rewrite reverse_Permutation. apply NoDup_remove_dups.
  - intros x. by rewrite elem_of_reverse, elem_of_remove_dups.
Qed.

Lemma positive_of_bytes_of_positive p :
  positive_of_bytes (bytes_of_positive p) = Some p.
Proof. induction p as [p IH|p IH|]; cbn; [by rewrite IH..|done]. Qed.

Lemma from_bytes_to_bytes `{Countable A} (a : A) : from_bytes (to_bytes a) = Return a.
Proof.
  unfold from_bytes, to_bytes. rewrite positive_of_bytes_of_positive. cbn.
  by rewrite decode_encode.
Qed.

(* ===================================================================== *)
(** * Worked examples *)
(* ===================================================================== *)

Definition a : Hashable := HStr "a".
Definition b : Hashable := HStr "b".
Definition x : Hashable := HStr "x".

(** A model with the objective [a + b] over BINARY variables, the
    constraint [a + 2 b + a b <= 1] labelled [c0], and the discrete group
    [{a, b}] labelled [g]. *)
Definition example_objective : Model (Bias := Z) :=
  BQM (mkBQM BQM_BINARY [(a, 1); (b, 1)] [] None).

Definition example_lhs : Model (Bias := Z) :=
  BQM (mkBQM BQM_BINARY [(a, 1); (b, 2)] [(a, b, 1)] None).

Definition example_calls : list (Call (Bias := Z)) :=
  [ call_set_objective example_objective;
    call_add_constraint_from_model example_lhs (inl Le) 1 (Some (HStr "c0")) true [];
    call_add_discrete [a; b] (Some (HStr "g")) [] ].

Definition example_model : ConstrainedQuadraticModel (Bias := Z) :=
  model_after 1 Z.add example_calls CQM.

(** The model [CQM()] after [add_variable(x, INTEGER)]: [x] is registered
    and used by no expression. *)
Definition unused_variable_model : ConstrainedQuadraticModel (Bias := Z) :=
  model_after 1 Z.add [call_add_variable x INTEGER] CQM.

(** The model [CQM()] after [add_variable(a, SPIN)]. *)
Definition spin_model : ConstrainedQuadraticModel (Bias := Z) :=
  model_after 1 Z.add [call_add_variable a SPIN] CQM.

(** The model [CQM()] after [add_discrete([a, b], label='g')]. *)
Definition group_model : ConstrainedQuadraticModel (Bias := Z) :=
  model_after 1 Z.add [call_add_discrete [a; b] (Some (HStr "g")) []] CQM.

(** The model [CQM()] after a constraint labelled ['a/b'] was added. *)
Definition slash_model : ConstrainedQuadraticModel (Bias := Z) :=
  model_after 1 Z.add
    [ call_add_constraint_from_model example_lhs (inl Le) 1 (Some (HStr "a/b")) true [] ]
    CQM.

(** [x] is first registered BINARY by a constraint over a binary quadratic
    model (no bounds are passed), and then used by an objective that is a
    quadratic model in which [x] is BINARY with bounds 0 and 1. *)
Definition binary_bounds_model : ConstrainedQuadraticModel (Bias := Z) :=
  model_after 1 Z.add
    [ call_add_constraint_from_model (BQM (mkBQM BQM_BINARY [(x, 1)] [] None))
        (inl Le) 1 (Some (HStr "c")) true [];
      call_set_objective (QM (mkQM [(x, mkQMVariable BINARY 0 1 1)] [] None)) ]
    CQM.

(** A registry holding the INTEGER variable [x] with lower bound 0. *)
Definition registry_x : TypedVariables (Bias := Z) :=
  (_append INTEGER x (Some 0) None TypedVariables_init).2.

(** A blob whose header has version 2.0, followed by one byte that is no
    archive. *)
Definition version_2_blob : bytes :=
  ref_write_header CQM_MAGIC_PREFIX [] (2%nat, 0%nat) ++ [Byte.xff].

Lemma example_constraints :
  constraints example_model =
    [ (HStr "c0", mkComparison example_lhs Le 1);
      (HStr "g", mkComparison (BQM (mkBQM BQM_BINARY [(a, 1); (b, 1)] [] None)) Eq 1) ].
Proof. by vm_compute. Qed.

Lemma example_faithful : codec_faithful_on example_model.
Proof.
  split; [|split; [|split; [|split]]].
  - eexists. split; by vm_compute.
  - by vm_compute.
  - apply from_bytes_to_bytes.
  - intros l c Hlc. split; [apply from_bytes_to_bytes|].
    split; [apply from_bytes_to_bytes|].
    rewrite example_constraints in Hlc.
    apply elem_of_cons in Hlc as [[= -> _]|Hlc]; [by vm_compute|].
    apply elem_of_cons in Hlc as [[= -> _]|Hlc]; [by vm_compute|].
    by apply elem_of_nil in Hlc.
  - apply reference_set_iter.
Qed.

Lemma example_dirs : label_dirs_ok example_model.
Proof.
  intros l Hl. rewrite example_constraints in Hl.
  apply elem_of_cons in Hl as [->|Hl]; [by vm_compute|].
  apply elem_of_cons in Hl as [->|Hl]; [by vm_compute|].
  by apply elem_of_nil in Hl.
Qed.

(** The model that [from_file] builds from the file of [example_model]. *)
Definition decoded_example : ConstrainedQuadraticModel (Bias := Z) :=
  Eval vm_compute in
    match from_file (to_file example_model) with
    | Return cqm => cqm
    | _ => CQM
    end.

Lemma from_file_example : from_file (to_file example_model) = Return decoded_example.
Proof. by vm_compute. Qed.

(** Membership in a list that is given by its elements. *)
Ltac is_in := vm_compute; repeat constructor.
Ltac not_in := apply (bool_decide_unpack _); by vm_compute.

(** ** C1 *)

Lemma C1_round_trip_witness :
  ∃ M', from_file (to_file example_model) = Return M' ∧
        objective M' = objective example_model ∧
        (∀ l, dict_get (constraints M') l = dict_get (constraints example_model) l) ∧
        discrete M' = discrete example_model ∧
        (∀ v, used example_model v →
           vartype (variables M') v = vartype (variables example_model) v) ∧
        (∀ v, ¬ used example_model v → v ∉ labels (variables M')).
Proof.
  destruct (C1_round_trip 1 Z.add example_model) as (M'&H1&H2&H3&H4&H5&H6).
  - apply model_after_reachable, reachable_init.
  - apply example_faithful.
  - apply example_dirs.
  - exists M'. split; [exact H1|]. split; [exact H2|]. split; [exact H3|].
    split; [exact H4|]. split; [|exact H6].
    intros v Hv. exact (proj1 (H5 v Hv)).
Defined.

(** Encoding and decoding [unused_variable_model] loses the variable [x]:
    the file holds the objective and the constraints, and no registry. *)
Lemma C1_counterexample :
  reachable 1 Z.add unused_variable_model ∧
  vartype (variables unused_variable_model) x = Return INTEGER ∧
  ∃ M', from_file (to_file unused_variable_model) = Return M' ∧
        vartype (variables M') x ≠ Return INTEGER.
Proof.
  split; [apply model_after_reachable, reachable_init|].
  split; [by vm_compute|].
  eexists. split; [by vm_compute|]. by vm_compute.
Qed.

(** The two side conditions of [C1_round_trip] are needed. The directory of
    the label ['a/b'] holds a slash: the pattern of [from_file] finds the
    part before it, and reading the entries of that directory fails. *)
Lemma slash_label_not_decoded :
  reachable 1 Z.add slash_model ∧
  ¬ label_dirs_ok slash_model ∧
  ∃ name, from_file (to_file slash_model) = Raise (KeyError name).
Proof.
  split; [apply model_after_reachable, reachable_init|]. split.
  - intros Hd. destruct (Hd (HStr "a/b")) as [_ Hs]; [is_in|].
    vm_compute in Hs. destruct Hs as (_&_&Hs&_). by apply Hs.
  - eexists. by vm_compute.
Qed.

(** The bounds of a BINARY variable depend on the order of registration,
    which the file does not keep: decoding registers the objective first. *)
Lemma binary_bounds_not_kept :
  reachable 1 Z.add binary_bounds_model ∧
  vartype (variables binary_bounds_model) x = Return BINARY ∧
  lower_bounds (variables binary_bounds_model) !! x = None ∧
  ∃ M', from_file (to_file binary_bounds_model) = Return M' ∧
        vartype (variables M') x = Return BINARY ∧
        lower_bounds (variables M') !! x = Some 0.
Proof.
  split; [apply model_after_reachable, reachable_init|].
  split; [by vm_compute|]. split; [by vm_compute|].
  eexists. split; [by vm_compute|]. split; by vm_compute.
Qed.

(** ** C2 *)

Lemma C2_failed_calls_witness :
  (add_discrete 1 Z.add [a] None ["abc123"%string] spin_model).2 = spin_model ∧
  constraints
    (add_constraint_from_model example_lhs (inl Le) 0 (Some (HStr "c")) true []
       spin_model).2 = constraints spin_model ∧
  ∃ k, ∀ u,
    u ∈ labels (variables
                  (add_constraint_from_model
                     (BQM (mkBQM BQM_BINARY [(b, 1); (a, 1)] [] None))
                     (inl Le) 0 (Some (HStr "c")) true [] spin_model).2) ↔
    u ∈ labels (variables spin_model) ∨ u ∈ take k [b; a].
Proof.
  destruct (C2_failed_calls 1 Z.add [call_add_variable a SPIN]) as [Hd Hc].
  split; [|split].
  - apply (Hd [a] None ["abc123"%string] (ValueError not_binary)). by vm_compute.
  - apply (Hc example_lhs (inl Le) 0 (Some (HStr "c")) true []
                (TypeError different_vartype)). by vm_compute.
  - destruct (Hc (BQM (mkBQM BQM_BINARY [(b, 1); (a, 1)] [] None)) (inl Le) 0
                (Some (HStr "c")) true [] (TypeError different_vartype)
                (add_constraint_from_model
                   (BQM (mkBQM BQM_BINARY [(b, 1); (a, 1)] [] None))
                   (inl Le) 0 (Some (HStr "c")) true [] spin_model).2)
      as (_&_&_&_&_&_&_&_&_&[[[He|He] _]|(k&vt&v&lb&ub&_&_&_&_&Hiff&_)]);
      [by vm_compute|discriminate He|discriminate He|].
    exists k. exact Hiff.
Defined.

(** [a] is registered SPIN; adding a constraint over the BINARY variables
    [b] and [a] raises the vartype error at [a], after [b] was registered. *)
Lemma C2_counterexample :
  (add_constraint_from_model
     (BQM (mkBQM BQM_BINARY [(b, 1); (a, 1)] [] None))
     (inl Le) 0 (Some (HStr "c")) true [] spin_model).1
    = Raise (TypeError different_vartype) ∧
  error_kind (TypeError different_vartype) = TypeConflict ∧
  labels (variables spin_model) = [a] ∧
  labels (variables
            (add_constraint_from_model
               (BQM (mkBQM BQM_BINARY [(b, 1); (a, 1)] [] None))
               (inl Le) 0 (Some (HStr "c")) true [] spin_model).2) = [a; b].
Proof. by vm_compute. Qed.

(** ** C3 *)

Lemma C3_discrete_disjoint_witness :
  groups_disjoint group_model ∧
  ∃ e, add_discrete 1 Z.add [a] None ["abc123"%string] group_model
         = (Raise e, group_model) ∧
       error_kind e = DiscreteConflict.
Proof.
  destruct (C3_discrete_disjoint 1 Z.add [call_add_discrete [a; b] (Some (HStr "g")) []])
    as [Hdj Hfail].
  split; [exact Hdj|].
  destruct (Hfail [a] None ["abc123"%string] a (HStr "g") [a; b])
    as (e&He&_&Hkind); [by left|by vm_compute|by left|].
  exists e. split; [exact He|]. apply Hkind. intros (l0&Hl0&_). done.
Defined.

(** [a] belongs to the group [g]; [add_discrete([a], label='g')] raises the
    duplicate-label error, not the discrete-conflict error. *)
Lemma C3_counterexample :
  group group_model (HStr "g") = Some [a; b] ∧
  (add_discrete 1 Z.add [a] (Some (HStr "g")) [] group_model).1
    = Raise (ValueError label_exists) ∧
  error_kind (ValueError label_exists) ≠ DiscreteConflict.
Proof. by vm_compute. Qed.

(** ** C4 *)

(** C4 fails on a first registration: [_append] stores the bounds given
    with a new BINARY (or SPIN) label, and so does [set_objective] for a
    BINARY variable of a quadratic model. Only a re-registration ignores
    them. *)
Theorem C4_binary_bounds_stored :
  (_append BINARY x (Some 0) (Some 1) TypedVariables_init).1 = Return x ∧
  lower_bounds (_append BINARY x (Some 0) (Some 1) TypedVariables_init).2 !! x = Some 0 ∧
  upper_bounds (_append BINARY x (Some 0) (Some 1) TypedVariables_init).2 !! x = Some 1 ∧
  lower_bounds
    (variables (set_objective (QM (mkQM [(x, mkQMVariable BINARY 0 1 1)] [] None)) CQM).2)
    !! x = Some 0 ∧
  _append BINARY x (Some 5) (Some 7)
      (_append BINARY x None None TypedVariables_init).2
    = (Return x, (_append BINARY x None None TypedVariables_init).2).
Proof. by vm_compute. Qed.

(** ** C5 *)

Lemma C5_idempotent_registration_witness :
  (_append BINARY x None None
     (_append BINARY x None None TypedVariables_init).2
     = (Return x, (_append (Bias := Z) BINARY x None None TypedVariables_init).2)) ∧
  (add_variable x SPIN
     (model_after 1 Z.add [call_set_objective example_objective]
        (add_variable x BINARY CQM).2)).1
    = Raise (ValueError added_different_vartype).
Proof.
  destruct (C5_idempotent_registration 1 Z.add [] [] []
              [call_set_objective example_objective] x BINARY SPIN None None)
    as (Hreg&Hfac&_); [done|].
  split.
  - apply Hreg. by vm_compute.
  - destruct Hfac as [_ Hf]; [by vm_compute|]. exact (f_equal fst Hf).
Defined.

(** ** C6 *)

Lemma C6_bound_merge_witness :
  (∃ e, (_append INTEGER x (Some 1) None registry_x).1 = Raise e ∧
        error_kind e = BoundConflict) ∧
  _append INTEGER x (Some 0) None registry_x = (Return x, registry_x) ∧
  (∃ r', _append INTEGER x None (Some 5) registry_x = (Return x, r') ∧
         upper_bounds r' !! x = Some 5).
Proof.
  destruct (C6_bound_merge registry_x x INTEGER (Some 1) None) as (Hc&_&_);
    [reflexivity|by left|].
  destruct (C6_bound_merge registry_x x INTEGER (Some 0) None) as (_&Hs&_);
    [reflexivity|by left|].
  destruct (C6_bound_merge registry_x x INTEGER None (Some 5)) as (_&_&Hn);
    [reflexivity|by left|].
  split; [|split].
  - apply Hc. left. exists 1, 0. by vm_compute.
  - apply Hs; [by right|by left].
  - destruct Hn as (r'&Hr'&_&_&_&Hu&_).
    + intros (?&?&?&?&?); done.
    + intros (b0&s&_&Hs'&_). by vm_compute in Hs'.
    + exists r'. split; [done|]. by apply Hu.
Defined.

(** ** C7 *)

Lemma C7_version_gate_witness :
  from_file version_2_blob = Raise (ValueError cannot_load_version) ∧
  ZipFile_read version_2_blob = Raise (ValueError library_failure).
Proof.
  split; [|by vm_compute].
  apply (C7_version_gate version_2_blob (mkHeaderInfo [] (2%nat, 0%nat)));
    [by vm_compute|cbn; lia].
Defined.

(** ** C8 *)

Lemma C8_label_uniqueness_witness :
  add_constraint_from_model example_lhs (inr "<="%string) 1 (Some (HStr "c0")) true []
      example_model
    = (Raise (ValueError label_exists), example_model) ∧
  add_discrete 1 Z.add [x] (Some (HStr "g")) [] example_model
    = (Raise (ValueError label_exists), example_model) ∧
  (add_discrete 1 Z.add [x] None ["c0"; "0a1b2c"]%string example_model).1
    = Return (HStr "0a1b2c") ∧
  (HStr "0a1b2c" ∉ (constraints example_model).*1) ∧
  (add_discrete 1 Z.add [x] None ["c0"; "0a1b2c"]%string example_model).1 ≠ OutOfDraws.
Proof.
  destruct (C8_label_uniqueness 1 Z.add [] example_model)
    as (Hm&Hd&_&_&Hret&_&Hend&_).
  split; [|split; [|split; [|split]]].
  - destruct (Hm example_lhs Le 1 (HStr "c0") true []) as [_ Hr]; [is_in|].
    exact Hr.
  - apply Hd. is_in.
  - by vm_compute.
  - apply (Hret [x] ["c0"; "0a1b2c"]%string (HStr "0a1b2c")
             (add_discrete 1 Z.add [x] None ["c0"; "0a1b2c"]%string example_model).2).
    by vm_compute.
  - apply (Hend [x] ["c0"; "0a1b2c"]%string "0a1b2c"%string); [is_in|not_in].
Defined.

(** ** C9 *)

(** A hand-built model: the objective [a + b], a constraint with linear
    terms only, one whose only non-zero bias is quadratic, and a mixed one.
    The variables [a] and [b] of the second constraint are entries of its
    linear view, with bias 0. *)
Example num_biases_hand_built :
  num_biases
    (mkCQM example_objective
       [ (HStr "linear", mkComparison example_objective Le 1);
         (HStr "quadratic",
          mkComparison (BQM (mkBQM BQM_BINARY [(a, 0); (b, 0)] [(a, b, 1)] None)) Le 1);
         (HStr "mixed", mkComparison example_lhs Le 1) ]
       TypedVariables_init ∅ ∅) = 10%nat.
Proof. by vm_compute. Qed.

(** ** C10 *)

Lemma C10_decoded_groups_unprotected_witness :
  ∃ m',
    from_file (to_file example_model) = Return decoded_example ∧
    HStr "g" ∈ discrete decoded_example ∧ _discrete decoded_example = ∅ ∧
    add_discrete 1 Z.add [a; b] (Some (HStr "g2")) [] decoded_example
      = (Return (HStr "g2"), m') ∧
    ¬ groups_disjoint m'.
Proof.
  destruct (C10_decoded_groups_unprotected 1 Z.add _ decoded_example from_file_example)
    as [Hempty Hadd].
  destruct (Hadd [a; b] (Some (HStr "g2")) [] (HStr "g")
              (mkComparison (BQM (one_hot 1 Z.add [a; b])) Eq 1) (HStr "g2"))
    as (m'&Hm'&_&_&Hbad).
  - by vm_compute.
  - by vm_compute.
  - intros v Hv. split.
    + apply one_hot_variables. exact Hv.
    + apply elem_of_cons in Hv as [->|Hv]; [by vm_compute|].
      apply elem_of_cons in Hv as [->|Hv]; [by vm_compute|].
      by apply elem_of_nil in Hv.
  - by vm_compute.
  - exists m'. split; [exact from_file_example|]. split; [by vm_compute|].
    split; [exact Hempty|]. split; [exact Hm'|]. by apply Hbad.
Defined.

(* ===================================================================== *)
(** * Worked examples of the further properties *)
(* ===================================================================== *)

(** A file of version 1.1 whose archive has no entry. *)
Definition empty_archive_blob : bytes :=
  ref_ZipFile_append (ref_write_header CQM_MAGIC_PREFIX [] (1%nat, 1%nat)) [].

(** A registry holding the INTEGER variable [x] with the upper bound 5 and
    no lower bound. *)
Definition registry_x_upper : TypedVariables (Bias := Z) :=
  (_append INTEGER x None (Some 5) TypedVariables_init).2.

(** A binary expression over [b] and [a], in this order. *)
Definition b_then_a : Model (Bias := Z) :=
  BQM (mkBQM BQM_BINARY [(b, 1); (a, 1)] [] None).

(** A stand-in for the methods of [QuadraticModel]: a variable is added
    once, with the bounds 0 and 0; biases are added up. *)
#[local] Instance reference_methods : QuadraticModelMethods (Bias := Z) := {|
  QuadraticModel_new := mkQM [] [] None;
  iadd_offset bias := λ qm,
    (Return tt,
     mkQM (qm_variables qm) (qm_quadratic qm) (Some (default 0 (qm_offset qm) + bias)));
  qm_add_variable vt v := λ qm,
    (Return tt,
     if decide (v ∈ (qm_variables qm).*1) then qm
     else mkQM (qm_variables qm ++ [(v, mkQMVariable vt 0 0 0)])
            (qm_quadratic qm) (qm_offset qm));
  qm_add_linear v bias := λ qm,
    (Return tt,
     mkQM ((λ e, if decide (e.1 = v)
                 then (e.1, mkQMVariable (qmv_vartype e.2) (qmv_lower_bound e.2)
                              (qmv_upper_bound e.2) (qmv_linear e.2 + bias))
                 else e) <$> qm_variables qm)
       (qm_quadratic qm) (qm_offset qm));
  qm_add_quadratic u v bias := λ qm,
    (Return tt, mkQM (qm_variables qm) (qm_quadratic qm ++ [(u, v, bias)]) (qm_offset qm))
|}.

(** ** X1 *)

Lemma X1_append_then_lookup_witness :
  vartype registry_x x = Return INTEGER ∧ index registry_x x = Some 0%nat.
Proof.
  destruct (X1_append_then_lookup (Bias := Z) [] INTEGER x (Some 0) None x)
    as (_&_&Hvt&_&Hnew&_); [by vm_compute|].
  split; [exact Hvt|]. apply Hnew. not_in.
Defined.

(** ** X5 *)

Lemma X5_expressions_registered_witness :
  vartype (variables example_model) a = Return BINARY.
Proof.
  destruct (X5_expressions_registered 1 Z.add example_calls example_lhs
              BINARY a None None) as (_&Hvt&_); [is_in|is_in|].
  exact Hvt.
Defined.

(** ** X7 *)

Lemma X7_add_constraint_then_lookup_witness :
  dict_get
    (constraints
       (add_constraint_from_model example_lhs (inl Le) 1 (Some (HStr "c0")) true [] CQM).2)
    (HStr "c0") = Some (mkComparison example_lhs Le 1).
Proof.
  destruct (X7_add_constraint_then_lookup (Bias := Z) CQM example_lhs (inl Le) 1
              (Some (HStr "c0")) true [] (HStr "c0")
              (add_constraint_from_model example_lhs (inl Le) 1
                 (Some (HStr "c0")) true [] CQM).2)
    as (s&Hs&_&_&_&Hget&_); [by vm_compute|].
  injection Hs as <-. exact Hget.
Defined.

(** ** X10 *)

Lemma X10_add_discrete_records_witness :
  vartype (variables group_model) a = Return BINARY ∧
  lower_bounds (variables group_model) = ∅.
Proof.
  destruct (X10_add_discrete_records 1 Z.add [] [a; b] (Some (HStr "g")) []
              (HStr "g") group_model) as (_&_&_&_&_&_&Hvt&Hlo&_); [by vm_compute|].
  split; [apply Hvt; is_in|exact Hlo].
Defined.

(** ** X12 *)

Lemma X12_known_expression_registers_nothing_witness :
  set_objective example_lhs example_model =
    (Return tt,
     mkCQM example_lhs (constraints example_model) (variables example_model)
       (discrete example_model) (_discrete example_model)).
Proof.
  destruct (X12_known_expression_registers_nothing 1 Z.add example_calls example_lhs)
    as [Hset _]; [is_in|].
  exact Hset.
Defined.

(** ** X16 *)

Lemma X16_from_file_needs_objective_witness :
  from_file empty_archive_blob = Raise (KeyError "objective").
Proof.
  apply (X16_from_file_needs_objective empty_archive_blob
           (mkHeaderInfo [] (1%nat, 1%nat)) []);
    [by vm_compute|cbn; lia|by vm_compute|apply not_elem_of_nil].
Defined.

(** ** X17 *)


(** ** X18 *)

Lemma X18_bound_checks_in_order_witness :
  _append INTEGER x (Some 0) (Some 7) registry_x_upper =
    (Raise (ValueError different_upper_bound),
     mkTypedVariables (labels registry_x_upper) (vartypes registry_x_upper)
       (<[x := 0]> (lower_bounds registry_x_upper)) (upper_bounds registry_x_upper)).
Proof.
  destruct (X18_bound_checks_in_order registry_x_upper x INTEGER 0) as [_ Hup];
    [by vm_compute|done|done|].
  apply (Hup 7 5); [by vm_compute|by vm_compute|done].
Defined.

(** ** X19 *)

Lemma X19_registration_stops_at_first_error_witness :
  ∃ k vt v lb ub,
    registrations b_then_a !! k = Some (vt, v, lb, ub) ∧
    v ∈ labels (registry_after (take k (registrations b_then_a)) (variables spin_model)) ∧
    labels (variables (_add_variables_from b_then_a spin_model).2) =
      labels (registry_after (take k (registrations b_then_a)) (variables spin_model)).
Proof.
  destruct (X19_registration_stops_at_first_error b_then_a spin_model
              (_add_variables_from b_then_a spin_model).2 (TypeError different_vartype))
    as (k&vt&v&lb&ub&Hk&_&_&Hv&Hl&_); [by vm_compute|].
  exists k, vt, v, lb, ub. split; [exact Hk|]. split; [exact Hv|exact Hl].
Defined.

(** ** X23 *)

Lemma X23_iterable_needs_registered_variables_witness :
  ∃ o, add_constraint_from_iterable [([a; b; x], 1)] (inl Le) 0 None [] example_model
         = (o, example_model) ∧
       ∀ l, o ≠ inr (Return l).
Proof.
  apply (X23_iterable_needs_registered_variables [([a; b; x], 1)] (inl Le) 0 None []
           example_model).
  apply Exists_cons_hd. left. cbn. lia.
Defined.

(** ** X24 *)

Lemma X24_first_free_draw_witness :
  (∀ qm sn rh copy l m',
     add_constraint_from_model qm sn rh None copy
       (["c0"%string; "g"%string] ++ ["0a1b2c"%string]) example_model = (Return l, m') →
     l = HStr "0a1b2c") ∧
  (∀ vs l m',
     add_discrete 1 Z.add vs None (["c0"%string; "g"%string] ++ ["0a1b2c"%string]) example_model
       = (Return l, m') →
     l = HStr "0a1b2c").
Proof.
  apply (X24_first_free_draw 1 Z.add example_model ["c0"%string; "g"%string] "0a1b2c" []).
  - repeat constructor; is_in.
  - not_in.
Defined.
